(** * Contract dependency detection and the dependency watcher

    A shallow embedding of
    [src/services/contractDependencyDetectionService.ts] and
    [src/services/contractDependencyWatcherService.ts], followed by the
    properties of the dependency-graph engine that are established on it.

    Conventions of the embedding.
    - A JS [Map<string, V>] is an association list in insertion order
      ([JsMap]); a JS [Set<string>] is a duplicate-free list in insertion
      order ([JsSet]).  Objects held in a map are mutated through their key
      ([JsMap.mutate]): every object of the modelled code is reachable from
      exactly one key of exactly one map.
    - A JS [number] that holds a count, a depth or a timestamp is a [Z].
    - A string is a byte string; [toLowerCase], [trim] and the [\s] class
      of the regular expressions act on the ASCII range.
    - A call that may throw returns a [Result]; a [try]/[catch] is a match
      on it.
    - The writes of the detection service to its output channel are not
      part of its state: the channel defaults to a no-op and no result
      depends on it.  The watcher's channel is modelled, line by line. *)

From Stdlib Require Import ZArith QArith_base String Ascii List Sorted Lia.
From stdpp Require Import base option list strings relations.

Local Open Scope string_scope.
Local Open Scope Z_scope.

(* ================================================================== *)
(** * JavaScript containers *)
(* ================================================================== *)

Module JsMap.
Section JsMap.
Context {V : Type}.

(** [Map.prototype.get] *)
Fixpoint get (k : string) (m : list (string * V)) : option V :=
  match m with
  | [] => None
  | (k', v) :: r => if decide (k = k') then Some v else get k r
  end.

(** [Map.prototype.set]: an existing key keeps its position. *)
Fixpoint set (k : string) (v : V) (m : list (string * V)) : list (string * V) :=
  match m with
  | [] => [(k, v)]
  | (k', v') :: r =>
      if decide (k = k') then (k, v) :: r else (k', v') :: set k v r
  end.

(** In-place mutation of the object stored under [k]. *)
Fixpoint mutate (k : string) (f : V -> V) (m : list (string * V)) : list (string * V) :=
  match m with
  | [] => []
  | (k', v) :: r =>
      if decide (k = k') then (k', f v) :: r else (k', v) :: mutate k f r
  end.

Definition keys (m : list (string * V)) : list string := map fst m.
Definition values (m : list (string * V)) : list V := map snd m.
Definition size (m : list (string * V)) : Z := Z.of_nat (length m).
End JsMap.
End JsMap.

Module JsSet.
Definition has (x : string) (s : list string) : bool := bool_decide (x ∈ s).
(** [Set.prototype.add]: adding a member again changes nothing. *)
Definition add (x : string) (s : list string) : list string :=
  if has x s then s else (s ++ [x])%list.
Definition size (s : list string) : Z := Z.of_nat (length s).
End JsSet.

(** [Array.prototype.includes] on an array of strings. *)
Definition includes (x : string) (l : list string) : bool := bool_decide (x ∈ l).

(** A call that either returns or throws. *)
Inductive Result (A : Type) : Type :=
| Ok (value : A)
| Throw (error : string).
Arguments Ok {A} value.
Arguments Throw {A} error.

(* ================================================================== *)
(** * Strings *)
(* ================================================================== *)

Definition lower_ascii (a : ascii) : ascii :=
  let n := nat_of_ascii a in
  if ((65 <=? n)%nat && (n <=? 90)%nat)%bool then ascii_of_nat (n + 32) else a.

(** [String.prototype.toLowerCase] *)
Fixpoint toLowerCase (s : string) : string :=
  match s with
  | EmptyString => EmptyString
  | String a r => String (lower_ascii a) (toLowerCase r)
  end.

Definition backslash : ascii := ascii_of_nat 92.
Definition slash : ascii := ascii_of_nat 47.

(** [p.replace(/\\/g, '/')] *)
Fixpoint replaceBackslashes (s : string) : string :=
  match s with
  | EmptyString => EmptyString
  | String a r =>
      String (if decide (a = backslash) then slash else a) (replaceBackslashes r)
  end.

(** [p.replace(/\/$/, '')]: one trailing slash is removed. *)
Fixpoint stripTrailingSlash (s : string) : string :=
  match s with
  | EmptyString => EmptyString
  | String a EmptyString => if decide (a = slash) then EmptyString else s
  | String a r => String a (stripTrailingSlash r)
  end.

(** [normalizePath] *)
Definition normalizePath (p : string) : string :=
  stripTrailingSlash (replaceBackslashes p).

(** The class [\s], on ASCII: tab, line feed, vertical tab, form feed,
    carriage return and space. *)
Definition is_space (a : ascii) : bool :=
  let n := nat_of_ascii a in
  (((9 <=? n)%nat && (n <=? 13)%nat) || (n =? 32)%nat)%bool.

Definition is_letter (a : ascii) : bool :=
  let n := nat_of_ascii a in
  (((65 <=? n)%nat && (n <=? 90)%nat) || ((97 <=? n)%nat && (n <=? 122)%nat))%bool.

Definition is_digit (a : ascii) : bool :=
  let n := nat_of_ascii a in ((48 <=? n)%nat && (n <=? 57)%nat)%bool.

(** [[a-zA-Z_]] and [[a-zA-Z0-9_]] *)
Definition is_ident_start (a : ascii) : bool :=
  (is_letter a || (nat_of_ascii a =? 95)%nat)%bool.
Definition is_ident_char (a : ascii) : bool :=
  (is_ident_start a || is_digit a)%bool.

Fixpoint dropWhile (p : ascii -> bool) (s : string) : string :=
  match s with
  | EmptyString => EmptyString
  | String a r => if p a then dropWhile p r else s
  end.

Fixpoint takeWhile (p : ascii -> bool) (s : string) : string :=
  match s with
  | EmptyString => EmptyString
  | String a r => if p a then String a (takeWhile p r) else EmptyString
  end.

Fixpoint string_rev_onto (s acc : string) : string :=
  match s with
  | EmptyString => acc
  | String a r => string_rev_onto r (String a acc)
  end.

(** [String.prototype.trim] *)
Definition trim (s : string) : string :=
  let t := dropWhile is_space s in
  string_rev_onto (dropWhile is_space (string_rev_onto t EmptyString)) EmptyString.

(** [content.split('\n')]: the current line is kept reversed in [cur]. *)
Fixpoint split_lines_aux (s cur : string) : list string :=
  match s with
  | EmptyString => [string_rev_onto cur EmptyString]
  | String a r =>
      if (nat_of_ascii a =? 10)%nat
      then string_rev_onto cur EmptyString :: split_lines_aux r EmptyString
      else split_lines_aux r (String a cur)
  end.
Definition split_lines (content : string) : list string :=
  split_lines_aux content EmptyString.

(** The text after the literal [kw] at the start of [s], if [s] starts
    with it. *)
Fixpoint after_prefix (kw s : string) : option string :=
  match kw, s with
  | EmptyString, _ => Some s
  | String a k, String b r => if decide (a = b) then after_prefix k r else None
  | String _ _, EmptyString => None
  end.

(** [\s+] at the start of [s]: what follows the longest run of white
    space, when that run is not empty. *)
Definition after_spaces (s : string) : option string :=
  match s with
  | String a r => if is_space a then Some (dropWhile is_space r) else None
  | EmptyString => None
  end.

(** The capture group of the three patterns, at the start of [s]: one
    character of [[a-zA-Z_]], then the longest run of [[a-zA-Z0-9_]]. *)
Definition capture_ident (s : string) : option string :=
  match s with
  | String a r =>
      if is_ident_start a then Some (String a (takeWhile is_ident_char r)) else None
  | EmptyString => None
  end.

(** The pattern of [use] statements: [^use], [\s+], identifier. *)
Definition match_use (line : string) : option string :=
  r ← after_prefix "use" line; r ← after_spaces r; capture_ident r.

(** The pattern of [extern crate] statements: [^extern], [\s+], [crate],
    [\s+], identifier. *)
Definition match_extern_crate (line : string) : option string :=
  r ← after_prefix "extern" line; r ← after_spaces r;
  r ← after_prefix "crate" r; r ← after_spaces r; capture_ident r.

(** The pattern of [mod] statements: [^mod], [\s+], identifier. *)
Definition match_mod (line : string) : option string :=
  r ← after_prefix "mod" line; r ← after_spaces r; capture_ident r.

(* ================================================================== *)
(** * Data model *)
(* ================================================================== *)

(** [CargoDependency] and [ContractMetadata] are declared in
    [contractMetadataService.ts]; the fields below are the ones the two
    services read. *)
Record CargoDependency := {
  dep_name : string;
  dep_path : option string;
  dep_workspace : bool;
  dep_version : option string
}.

Record ContractMetadata := {
  contractName : string;
  cargoTomlPath : string;
  contractDir : string;
  dependencies : list (string * CargoDependency);
  buildDependencies : list (string * CargoDependency);
  devDependencies : list (string * CargoDependency)
}.

Inductive ImportType := use | extern_crate | mod_.

Record ImportDependency := {
  sourceContract : string;
  importedModule : string;
  importType : ImportType;
  sourceFile : string;
  lineNumber : Z;
  statement : string
}.

(** [DependencyEdge] and [DependencyResolutionResult] are declared in
    [deploymentDependencyResolver.ts]. *)
Record DependencyEdge := {
  from : string;
  to : string;
  reason : string;
  dependencyName : string
}.

Record DependencyResolutionResult := {
  res_edges : list DependencyEdge;
  res_cycles : list (list string);
  res_order : list string;
  res_levels : list (list string)
}.

Inductive EdgeSource := cargo | import | both.

(** [EnhancedDependencyEdge extends DependencyEdge] *)
Record EnhancedDependencyEdge := {
  edge_from : string;
  edge_to : string;
  edge_reason : string;
  edge_dependencyName : string;
  edge_source : EdgeSource;
  edge_imports : option (list ImportDependency);
  edge_isExternal : bool;
  edge_cargoMetadata : option CargoDependency
}.

Record DependencyNode := {
  node_name : string;
  node_cargoTomlPath : string;
  node_contractDir : string;
  node_dependencies : list string;
  node_dependents : list string;
  node_isExternal : bool;
  node_dependencyCount : Z;
  node_dependentCount : Z;
  node_depth : Z
}.

Record DependencyGraphStatistics := {
  totalContracts : Z;
  totalDependencies : Z;
  stat_externalDependencies : Z;
  circularDependencies : Z;
  maxDepth : Z;
  (** The quotient [totalDependencies / totalContracts]; the JS value is
      the double nearest to it. *)
  avgDependenciesPerContract : Q;
  leafContracts : Z;
  rootContracts : Z
}.

Record DependencyGraph := {
  nodes : list (string * DependencyNode);
  edges : list EnhancedDependencyEdge;
  imports : list ImportDependency;
  cycles : list (list string);
  deploymentOrder : list string;
  deploymentLevels : list (list string);
  externalDependencies : list string;
  workspaceContracts : list string;
  statistics : DependencyGraphStatistics
}.

Record DependencyDetectionOptions := {
  includeDevDependencies : option bool;
  includeBuildDependencies : option bool;
  detectImports : option bool;
  maxSourceDepth : option Z;
  sourceExtensions : option (list string)
}.

(** The options object [{}]. *)
Definition noOptions : DependencyDetectionOptions :=
  {| includeDevDependencies := None; includeBuildDependencies := None;
     detectImports := None; maxSourceDepth := None; sourceExtensions := None |}.

(* ================================================================== *)
(** * Edge merger: [buildEnhancedEdges] *)
(* ================================================================== *)

(** Object spread [{...a, ...b}] on objects used as dictionaries. *)
Definition spread {V : Type} (a b : list (string * V)) : list (string * V) :=
  fold_left (fun m kv => JsMap.set (fst kv) (snd kv) m) b a.

(** [{...contract.dependencies, ...contract.buildDependencies,
      ...contract.devDependencies}] *)
Definition allDeps (contract : ContractMetadata) : list (string * CargoDependency) :=
  spread (spread (spread [] (dependencies contract)) (buildDependencies contract))
         (devDependencies contract).

(** [findCargoDependency] *)
Definition findCargoDependency (contract : ContractMetadata) (dependencyName : string)
  : option CargoDependency :=
  JsMap.get dependencyName (allDeps contract).

(** The template string [`${from}|${to}`]. *)
Definition edgeKey (from_ to_ : string) : string := from_ ++ "|" ++ to_.

Definition contractByPath (contracts : list ContractMetadata)
  : list (string * ContractMetadata) :=
  fold_left (fun m c => JsMap.set (normalizePath (cargoTomlPath c)) c m) contracts [].

Definition contractByName (contracts : list ContractMetadata)
  : list (string * ContractMetadata) :=
  fold_left (fun m c => JsMap.set (toLowerCase (contractName c)) c m) contracts [].

(** Body of the loop over [cargoEdges]. *)
Definition addCargoEdge (byPath : list (string * ContractMetadata))
    (edgeMap : list (string * EnhancedDependencyEdge)) (edge : DependencyEdge)
  : list (string * EnhancedDependencyEdge) :=
  let key := edgeKey (from edge) (to edge) in
  let fromContract := JsMap.get (normalizePath (from edge)) byPath in
  let cargoMetadata :=
    match fromContract with
    | Some c => findCargoDependency c (dependencyName edge)
    | None => None
    end in
  JsMap.set key
    {| edge_from := from edge; edge_to := to edge; edge_reason := reason edge;
       edge_dependencyName := dependencyName edge;
       edge_source := cargo; edge_imports := None; edge_isExternal := false;
       edge_cargoMetadata := cargoMetadata |}
    edgeMap.

(** [existing.source = 'both'; existing.imports = existing.imports || [];
     existing.imports.push(imp)] *)
Definition confirmEdge (imp : ImportDependency) (existing : EnhancedDependencyEdge)
  : EnhancedDependencyEdge :=
  {| edge_from := edge_from existing; edge_to := edge_to existing;
     edge_reason := edge_reason existing;
     edge_dependencyName := edge_dependencyName existing;
     edge_source := both;
     edge_imports := Some (default [] (edge_imports existing) ++ [imp])%list;
     edge_isExternal := edge_isExternal existing;
     edge_cargoMetadata := edge_cargoMetadata existing |}.

(** The edge synthesized from an import that has no entry in the map. *)
Definition importEdge (sourceContract targetContract : ContractMetadata)
    (imp : ImportDependency) : EnhancedDependencyEdge :=
  {| edge_from := cargoTomlPath sourceContract;
     edge_to := cargoTomlPath targetContract;
     edge_reason := "workspace";
     edge_dependencyName := importedModule imp;
     edge_source := import; edge_imports := Some [imp];
     edge_isExternal := false; edge_cargoMetadata := None |}.

(** Body of the loop over [imports]. *)
Definition addImport (byName : list (string * ContractMetadata))
    (edgeMap : list (string * EnhancedDependencyEdge)) (imp : ImportDependency)
  : list (string * EnhancedDependencyEdge) :=
  match JsMap.get (toLowerCase (sourceContract imp)) byName,
        JsMap.get (toLowerCase (importedModule imp)) byName with
  | Some src, Some tgt =>
      let key := edgeKey (cargoTomlPath src) (cargoTomlPath tgt) in
      match JsMap.get key edgeMap with
      | Some existing => JsMap.mutate key (confirmEdge imp) edgeMap
      | None => JsMap.set key (importEdge src tgt imp) edgeMap
      end
  | _, _ => edgeMap
  end.

(** The edge map after both loops. *)
Definition enhancedEdgeMap (cargoEdges : list DependencyEdge)
    (imports_ : list ImportDependency) (contracts : list ContractMetadata)
  : list (string * EnhancedDependencyEdge) :=
  fold_left (addImport (contractByName contracts)) imports_
    (fold_left (addCargoEdge (contractByPath contracts)) cargoEdges []).

(** [buildEnhancedEdges] *)
Definition buildEnhancedEdges (cargoEdges : list DependencyEdge)
    (imports_ : list ImportDependency) (contracts : list ContractMetadata)
  : list EnhancedDependencyEdge :=
  JsMap.values (enhancedEdgeMap cargoEdges imports_ contracts).

(* ================================================================== *)
(** * Graph assembler: [buildNodes], [calculateDepths] *)
(* ================================================================== *)

Definition newNode (contract : ContractMetadata) : DependencyNode :=
  {| node_name := contractName contract;
     node_cargoTomlPath := cargoTomlPath contract;
     node_contractDir := contractDir contract;
     node_dependencies := []; node_dependents := [];
     node_isExternal := false;
     node_dependencyCount := 0; node_dependentCount := 0; node_depth := 0 |}.

(** [n.dependencies.push(name); n.dependencyCount++] *)
Definition pushDependency (name : string) (n : DependencyNode) : DependencyNode :=
  {| node_name := node_name n; node_cargoTomlPath := node_cargoTomlPath n;
     node_contractDir := node_contractDir n;
     node_dependencies := (node_dependencies n ++ [name])%list;
     node_dependents := node_dependents n;
     node_isExternal := node_isExternal n;
     node_dependencyCount := node_dependencyCount n + 1;
     node_dependentCount := node_dependentCount n;
     node_depth := node_depth n |}.

(** [n.dependents.push(name); n.dependentCount++] *)
Definition pushDependent (name : string) (n : DependencyNode) : DependencyNode :=
  {| node_name := node_name n; node_cargoTomlPath := node_cargoTomlPath n;
     node_contractDir := node_contractDir n;
     node_dependencies := node_dependencies n;
     node_dependents := (node_dependents n ++ [name])%list;
     node_isExternal := node_isExternal n;
     node_dependencyCount := node_dependencyCount n;
     node_dependentCount := node_dependentCount n + 1;
     node_depth := node_depth n |}.

(** [n.depth = d] *)
Definition setDepth (d : Z) (n : DependencyNode) : DependencyNode :=
  {| node_name := node_name n; node_cargoTomlPath := node_cargoTomlPath n;
     node_contractDir := node_contractDir n;
     node_dependencies := node_dependencies n;
     node_dependents := node_dependents n;
     node_isExternal := node_isExternal n;
     node_dependencyCount := node_dependencyCount n;
     node_dependentCount := node_dependentCount n;
     node_depth := d |}.

Definition initialNodes (contracts : list ContractMetadata)
  : list (string * DependencyNode) :=
  fold_left (fun m c => JsMap.set (contractName c) (newNode c) m) contracts [].

(** [contracts.find(c => normalizePath(c.cargoTomlPath) === normalizePath(p))] *)
Definition findContractByPath (contracts : list ContractMetadata) (p : string)
  : option ContractMetadata :=
  List.find (fun c => bool_decide (normalizePath (cargoTomlPath c) = normalizePath p))
            contracts.

(** Body of the loop of [buildNodes] over the edges.  [fromNode] and
    [toNode] are the same object for an edge of a contract to itself; the
    second update is applied to the object as the first one left it. *)
Definition addAdjacency (contracts : list ContractMetadata)
    (nodes_ : list (string * DependencyNode)) (edge : EnhancedDependencyEdge)
  : list (string * DependencyNode) :=
  match findContractByPath contracts (edge_from edge),
        findContractByPath contracts (edge_to edge) with
  | Some fromContract, Some toContract =>
      match JsMap.get (contractName fromContract) nodes_,
            JsMap.get (contractName toContract) nodes_ with
      | Some fromNode, Some toNode =>
          let nodes1 :=
            if includes (node_name toNode) (node_dependencies fromNode) then nodes_
            else JsMap.mutate (contractName fromContract)
                              (pushDependency (node_name toNode)) nodes_ in
          if includes (node_name fromNode) (node_dependents toNode) then nodes1
          else JsMap.mutate (contractName toContract)
                            (pushDependent (node_name fromNode)) nodes1
      | _, _ => nodes_
      end
  | _, _ => nodes_
  end.

(** The node map of [buildNodes] before the depths are computed. *)
Definition adjacencyNodes (contracts : list ContractMetadata)
    (edges_ : list EnhancedDependencyEdge) : list (string * DependencyNode) :=
  fold_left (addAdjacency contracts) edges_ (initialNodes contracts).

(** State of [calculateDepths]: the node map, whose objects receive their
    depth in place, and the [visited] set of the closure. *)
Record DepthState := {
  ds_nodes : list (string * DependencyNode);
  ds_visited : list string
}.

(** A loop whose body is a partial state transformer that yields a value:
    [array.map] with a callback that has effects. *)
Fixpoint mapState {S A B : Type} (f : A -> S -> option (B * S)) (l : list A) (s : S)
  : option (list B * S) :=
  match l with
  | [] => Some ([], s)
  | a :: r =>
      match f a s with
      | None => None
      | Some (b, s1) =>
          match mapState f r s1 with
          | None => None
          | Some (bs, s2) => Some (b :: bs, s2)
          end
      end
  end.

(** The closure [calculateDepth].  The recursion of the source is not
    structural; [fuel] bounds its nesting and [None] means that the bound
    was reached.  [Math.max(...depths)] is taken over the results of a
    non-empty [dependencies] array. *)
Fixpoint calculateDepth (fuel : nat) (nodeName : string) (st : DepthState)
  : option (Z * DepthState) :=
  match fuel with
  | O => None
  | S fuel' =>
      if JsSet.has nodeName (ds_visited st) then
        Some (match JsMap.get nodeName (ds_nodes st) with
              | Some n => node_depth n
              | None => 0
              end, st)
      else
        let visited := JsSet.add nodeName (ds_visited st) in
        match JsMap.get nodeName (ds_nodes st) with
        | None => Some (0, {| ds_nodes := ds_nodes st; ds_visited := visited |})
        | Some node =>
            match node_dependencies node with
            | [] =>
                Some (0, {| ds_nodes := JsMap.mutate nodeName (setDepth 0) (ds_nodes st);
                            ds_visited := visited |})
            | dep :: deps =>
                match calculateDepth fuel' dep
                        {| ds_nodes := ds_nodes st; ds_visited := visited |} with
                | None => None
                | Some (d, st2) =>
                    match mapState (calculateDepth fuel') deps st2 with
                    | None => None
                    | Some (ds, st3) =>
                        let maxDepth := fold_left Z.max ds d in
                        Some (maxDepth + 1,
                              {| ds_nodes := JsMap.mutate nodeName (setDepth (maxDepth + 1))
                                                          (ds_nodes st3);
                                 ds_visited := ds_visited st3 |})
                    end
                end
            end
        end
  end.

(** [for (const nodeName of nodes.keys()) calculateDepth(nodeName)] *)
Definition calculateDepths_fuel (fuel : nat) (nodes_ : list (string * DependencyNode))
  : option (list (string * DependencyNode)) :=
  match mapState (calculateDepth fuel) (JsMap.keys nodes_)
                 {| ds_nodes := nodes_; ds_visited := [] |} with
  | None => None
  | Some (_, st) => Some (ds_nodes st)
  end.

(** Every name [calculateDepth] can be called with: the keys of the map and
    the entries of the [dependencies] arrays. *)
Definition depthNames (nodes_ : list (string * DependencyNode)) : list string :=
  (JsMap.keys nodes_ ++ concat (map (fun kn => node_dependencies (snd kn)) nodes_))%list.

(** A nesting bound that is never reached
    ([calculateDepths_fuel_terminates]). *)
Definition depthFuel (nodes_ : list (string * DependencyNode)) : nat :=
  S (length (depthNames nodes_)).

(** [calculateDepths] *)
Definition calculateDepths (nodes_ : list (string * DependencyNode))
  : list (string * DependencyNode) :=
  match calculateDepths_fuel (depthFuel nodes_) nodes_ with
  | Some r => r
  | None => nodes_
  end.

(** [buildNodes] *)
Definition buildNodes (contracts : list ContractMetadata)
    (edges_ : list EnhancedDependencyEdge) : list (string * DependencyNode) :=
  calculateDepths (adjacencyNodes contracts edges_).

(** [identifyExternalDependencies]; [!dep.path] holds for a missing and
    for an empty path. *)
Definition noPath (dep : CargoDependency) : bool :=
  match dep_path dep with
  | None => true
  | Some p => bool_decide (p = "")
  end.

Definition workspaceContractsOf (contracts : list ContractMetadata) : list string :=
  fold_left (fun s c => JsSet.add (contractName c) s) contracts [].

Definition identifyExternalDependencies (contracts : list ContractMetadata)
    (edges_ : list EnhancedDependencyEdge) : list string * list string :=
  let workspace := workspaceContractsOf contracts in
  let external :=
    fold_left
      (fun ext contract =>
         fold_left
           (fun ext kv =>
              if (noPath (snd kv) && negb (JsSet.has (fst kv) workspace))%bool
              then JsSet.add (fst kv) ext else ext)
           (allDeps contract) ext)
      contracts [] in
  (external, workspace).

(** [Math.max(...xs, 0)] *)
Definition Math_max0 (xs : list Z) : Z := fold_right Z.max 0 xs.

Definition count_if {A : Type} (p : A -> bool) (l : list A) : Z :=
  Z.of_nat (length (List.filter p l)).

(** [calculateStatistics] *)
Definition calculateStatistics (nodes_ : list (string * DependencyNode))
    (edges_ : list EnhancedDependencyEdge) (externalDependencies_ : list string)
  : DependencyGraphStatistics :=
  let totalContracts_ := JsMap.size nodes_ in
  let totalDependencies_ := Z.of_nat (length edges_) in
  {| totalContracts := totalContracts_;
     totalDependencies := totalDependencies_;
     stat_externalDependencies := JsSet.size externalDependencies_;
     circularDependencies := 0;
     maxDepth := Math_max0 (map node_depth (JsMap.values nodes_));
     avgDependenciesPerContract :=
       if 0 <? totalContracts_
       then Qmake totalDependencies_ (Z.to_pos totalContracts_)
       else Qmake 0 1;
     leafContracts :=
       count_if (fun n => node_dependencyCount n =? 0) (JsMap.values nodes_);
     rootContracts :=
       count_if (fun n => node_dependentCount n =? 0) (JsMap.values nodes_) |}.

(* ================================================================== *)
(** * Collaborators *)
(* ================================================================== *)

Inductive DirentKind := DirentFile | DirentDirectory | DirentOther.

(** [fs.Dirent]: [isFile()] and [isDirectory()] are read off the kind. *)
Record Dirent := {
  dirent_name : string;
  dirent_kind : DirentKind
}.

(** What the detection service consumes and does not define: the file
    system and path functions of the platform, and the edge resolver of
    [deploymentDependencyResolver.ts]. *)
Record Platform := {
  readdirSync : string -> Result (list Dirent);
  readFileSync : string -> Result string;
  path_join : string -> string -> string;
  path_extname : string -> string;
  resolveDeploymentDependencies :
    list ContractMetadata -> bool -> Result DependencyResolutionResult
}.

(* ================================================================== *)
(** * Import scanner *)
(* ================================================================== *)

Definition skippedDirectories : list string :=
  ["target"; "node_modules"; ".git"; "out"].

Section Scanner.
Variable P : Platform.

(** What one directory entry adds to [files]; [sub] scans a
    subdirectory. *)
Definition entryFiles (sub : string -> list string) (dir : string)
    (extensions : list string) (entry : Dirent) : list string :=
  let fullPath := path_join P dir (dirent_name entry) in
  match dirent_kind entry with
  | DirentDirectory =>
      if includes (dirent_name entry) skippedDirectories then []
      else sub fullPath
  | DirentFile =>
      if includes (path_extname P (dirent_name entry)) extensions
      then [fullPath] else []
  | DirentOther => []
  end.

(** [findSourceFiles] with [remaining = maxDepth - currentDepth + 1]
    levels left; the guard [currentDepth > maxDepth] is [remaining = 0].
    A failing [readdirSync] is caught and leaves [files] empty. *)
Fixpoint findSourceFiles_from (remaining : nat) (dir : string)
    (extensions : list string) : list string :=
  match remaining with
  | O => []
  | S r =>
      match readdirSync P dir with
      | Throw _ => []
      | Ok entries =>
          flat_map
            (entryFiles (fun d => findSourceFiles_from r d extensions) dir extensions)
            entries
      end
  end.

(** [findSourceFiles] *)
Definition findSourceFiles (dir : string) (extensions : list string)
    (maxDepth_ currentDepth : Z) : list string :=
  findSourceFiles_from (Z.to_nat (maxDepth_ - currentDepth + 1)) dir extensions.

Definition mkImport (contractName_ filePath : string) (ty : ImportType)
    (module line : string) (lineNumber_ : Z) : ImportDependency :=
  {| sourceContract := contractName_; importedModule := module;
     importType := ty; sourceFile := filePath;
     lineNumber := lineNumber_; statement := line |}.

(** Body of the loop over the lines: the first pattern that matches the
    trimmed line decides. *)
Definition parseLine (filePath contractName_ : string) (lineNumber_ : Z)
    (rawLine : string) : option ImportDependency :=
  let line := trim rawLine in
  match match_use line with
  | Some m => Some (mkImport contractName_ filePath use m line lineNumber_)
  | None =>
      match match_extern_crate line with
      | Some m => Some (mkImport contractName_ filePath extern_crate m line lineNumber_)
      | None =>
          match match_mod line with
          | Some m => Some (mkImport contractName_ filePath mod_ m line lineNumber_)
          | None => None
          end
      end
  end.

(** The loop over [lines], from index [i]. *)
Fixpoint parseLines (filePath contractName_ : string) (i : Z) (lines : list string)
  : list ImportDependency :=
  match lines with
  | [] => []
  | l :: r =>
      match parseLine filePath contractName_ (i + 1) l with
      | Some imp => imp :: parseLines filePath contractName_ (i + 1) r
      | None => parseLines filePath contractName_ (i + 1) r
      end
  end.

(** [parseImportsFromFile]: a failing [readFileSync] is caught. *)
Definition parseImportsFromFile (filePath contractName_ cargoTomlPath_ : string)
  : list ImportDependency :=
  match readFileSync P filePath with
  | Throw _ => []
  | Ok content => parseLines filePath contractName_ 0 (split_lines content)
  end.

(** The imports of one contract. *)
Definition contractImports (extensions : list string) (maxDepth_ : Z)
    (contract : ContractMetadata) : list ImportDependency :=
  flat_map
    (fun sourceFile_ =>
       parseImportsFromFile sourceFile_ (contractName contract) (cargoTomlPath contract))
    (findSourceFiles (contractDir contract) extensions maxDepth_ 0).

(** [detectImportDependencies] *)
Definition detectImportDependencies (contracts : list ContractMetadata)
    (options : DependencyDetectionOptions) : list ImportDependency :=
  let maxDepth_ := default 3 (maxSourceDepth options) in
  let extensions := default [".rs"] (sourceExtensions options) in
  flat_map (contractImports extensions maxDepth_) contracts.
End Scanner.

(* ================================================================== *)
(** * The detection service *)
(* ================================================================== *)

(** The two private fields of [ContractDependencyDetectionService]. *)
Record DetectionService := {
  cachedGraph : option DependencyGraph;
  lastScanTime : Z
}.

(** The service as constructed. *)
Definition newService : DetectionService :=
  {| cachedGraph := None; lastScanTime := 0 |}.

Section Detection.
Variable P : Platform.

(** Steps 3 to 6 of [buildDependencyGraph] and the graph literal. *)
Definition assembleGraph (contracts : list ContractMetadata)
    (cargoResolution : DependencyResolutionResult)
    (imports_ : list ImportDependency) : DependencyGraph :=
  let enhancedEdges := buildEnhancedEdges (res_edges cargoResolution) imports_ contracts in
  let nodes_ := buildNodes contracts enhancedEdges in
  let ext_ws := identifyExternalDependencies contracts enhancedEdges in
  let statistics_ := calculateStatistics nodes_ enhancedEdges (fst ext_ws) in
  {| nodes := nodes_; edges := enhancedEdges; imports := imports_;
     cycles := res_cycles cargoResolution;
     deploymentOrder := res_order cargoResolution;
     deploymentLevels := res_levels cargoResolution;
     externalDependencies := fst ext_ws;
     workspaceContracts := snd ext_ws;
     statistics := statistics_ |}.

(** [buildDependencyGraph]; [now] is the value of [Date.now()] when the
    graph is stored.  A throwing resolver leaves the service as it is. *)
Definition buildDependencyGraph (contracts : list ContractMetadata)
    (options : DependencyDetectionOptions) (now : Z) (svc : DetectionService)
  : Result DependencyGraph * DetectionService :=
  let opts :=
    {| includeDevDependencies := Some (default false (includeDevDependencies options));
       includeBuildDependencies := Some (default true (includeBuildDependencies options));
       detectImports := Some (default true (detectImports options));
       maxSourceDepth := Some (default 3 (maxSourceDepth options));
       sourceExtensions := Some (default [".rs"] (sourceExtensions options)) |} in
  match resolveDeploymentDependencies P contracts
          (default false (includeDevDependencies opts)) with
  | Throw e => (Throw e, svc)
  | Ok cargoResolution =>
      let imports_ :=
        if default true (detectImports opts)
        then detectImportDependencies P contracts opts else [] in
      let graph := assembleGraph contracts cargoResolution imports_ in
      (Ok graph, {| cachedGraph := Some graph; lastScanTime := now |})
  end.
End Detection.

(** [getCachedGraph]; [now] is the value of [Date.now()]. *)
Definition getCachedGraph (maxAge now : Z) (svc : DetectionService)
  : option DependencyGraph :=
  match cachedGraph svc with
  | None => None
  | Some g =>
      let age := now - lastScanTime svc in
      if age >? maxAge then None else Some g
  end.

(** The default of the [maxAge] parameter. *)
Definition defaultMaxAge : Z := 60000.

(** [invalidateCache] *)
Definition invalidateCache (svc : DetectionService) : DetectionService :=
  {| cachedGraph := None; lastScanTime := 0 |}.

(** [hasCircularDependencies] *)
Definition hasCircularDependencies (graph : DependencyGraph) : bool :=
  (0 <? Z.of_nat (length (cycles graph))).

(** [getCircularDependencyDetails]: [cycle.join(' -> ')] with the arrow
    of the source, and the template string around it. *)
Definition getCircularDependencyDetails (graph : DependencyGraph) : list string :=
  map (fun cycle => ("Circular dependency: " ++ String.concat " → " cycle)%string)
      (cycles graph).

(* ================================================================== *)
(** * Queries *)
(* ================================================================== *)

(** [Array.from(graph.nodes.values()).find((n) => n.name === name)] *)
Definition findNodeByName (graph : DependencyGraph) (name : string)
  : option DependencyNode :=
  List.find (fun n => bool_decide (node_name n = name)) (JsMap.values (nodes graph)).

(** A loop whose body is a partial state transformer. *)
Fixpoint forEachState {S A : Type} (f : A -> S -> option S) (l : list A) (s : S)
  : option S :=
  match l with
  | [] => Some s
  | a :: r =>
      match f a s with
      | None => None
      | Some s1 => forEachState f r s1
      end
  end.

(** The closure [traverse] of [getTransitiveDependencies] and of
    [getTransitiveDependents], which differ in the adjacency array [adj]
    they follow.  The state is [(visited, transitive)]; [fuel] bounds the
    nesting of the calls. *)
Fixpoint traverse (fuel : nat) (adj : DependencyNode -> list string)
    (graph : DependencyGraph) (name : string)
    (st : list string * list DependencyNode)
  : option (list string * list DependencyNode) :=
  match fuel with
  | O => None
  | S fuel' =>
      match findNodeByName graph name with
      | None => Some st
      | Some node =>
          forEachState
            (fun depName st =>
               if JsSet.has depName (fst st) then Some st
               else
                 let visited := JsSet.add depName (fst st) in
                 match JsMap.get depName (nodes graph) with
                 | Some depNode =>
                     traverse fuel' adj graph depName
                              (visited, (snd st ++ [depNode])%list)
                 | None => Some (visited, snd st)
                 end)
            (adj node) st
      end
  end.

Definition getTransitiveDependencies (fuel : nat) (graph : DependencyGraph)
    (contractName_ : string) : option (list DependencyNode) :=
  option_map snd (traverse fuel node_dependencies graph contractName_ ([], [])).

Definition getTransitiveDependents (fuel : nat) (graph : DependencyGraph)
    (contractName_ : string) : option (list DependencyNode) :=
  option_map snd (traverse fuel node_dependents graph contractName_ ([], [])).

Record Related := {
  direct : list DependencyNode;
  transitive : list DependencyNode
}.

(** [names.map((depName) => graph.nodes.get(depName)).filter(defined)] *)
Definition lookupNodes (graph : DependencyGraph) (names : list string)
  : list DependencyNode :=
  omap (fun depName => JsMap.get depName (nodes graph)) names.

(** [getContractDependencies]; [None] means that the traversal reached
    the nesting bound [fuel]. *)
Definition getContractDependencies (fuel : nat) (graph : DependencyGraph)
    (contractName_ : string) : option Related :=
  match findNodeByName graph contractName_ with
  | None => Some {| direct := []; transitive := [] |}
  | Some node =>
      match getTransitiveDependencies fuel graph contractName_ with
      | None => None
      | Some t => Some {| direct := lookupNodes graph (node_dependencies node);
                          transitive := t |}
      end
  end.

(** [getContractDependents] *)
Definition getContractDependents (fuel : nat) (graph : DependencyGraph)
    (contractName_ : string) : option Related :=
  match findNodeByName graph contractName_ with
  | None => Some {| direct := []; transitive := [] |}
  | Some node =>
      match getTransitiveDependents fuel graph contractName_ with
      | None => None
      | Some t => Some {| direct := lookupNodes graph (node_dependents node);
                          transitive := t |}
      end
  end.

(* ================================================================== *)
(** * The dependency watcher *)
(* ================================================================== *)

Inductive ChangeType := added | removed | modified | full_refresh.

Record DependencyChangeEvent := {
  event_type : ChangeType;
  affectedContracts : list string;
  timestamp : Z;
  event_graph : DependencyGraph
}.

(** [Required<DependencyWatcherOptions>] *)
Record WatcherOptions := {
  debounceMs : Z;
  watchSourceFiles : bool;
  autoRefresh : bool
}.

Definition defaultWatcherOptions : WatcherOptions :=
  {| debounceMs := 1000; watchSourceFiles := true; autoRefresh := true |}.

(** A registered callback: its identity, and the error it throws, if any,
    when it is called with an event. *)
Record Listener := {
  listener_id : nat;
  listener_throws : DependencyChangeEvent -> option string
}.

(** The handle stored in [debounceTimer]: the change type its callback
    closes over, and whether the callback is still to run. *)
Record Timer := {
  timer_changeType : ChangeType;
  timer_armed : bool
}.

(** The fields of [ContractDependencyWatcherService], the detection
    service it owns, the lines written to its output channel and the calls
    made to its listeners, oldest first. *)
Record Watcher := {
  cargoWatcher : bool;
  sourceWatcher : bool;
  disposables : nat;
  debounceTimer : option Timer;
  pendingChanges : list string;
  isRunning : bool;
  changeListeners : list Listener;
  options : WatcherOptions;
  dependencyService : DetectionService;
  outputChannel : list string;
  delivered : list (nat * DependencyChangeEvent)
}.

Definition newWatcher (svc : DetectionService) (opts : WatcherOptions) : Watcher :=
  {| cargoWatcher := false; sourceWatcher := false; disposables := 0%nat;
     debounceTimer := None; pendingChanges := []; isRunning := false;
     changeListeners := []; options := opts; dependencyService := svc;
     outputChannel := []; delivered := [] |}.

(** [this.outputChannel.appendLine(message)] *)
Definition log (message : string) (w : Watcher) : Watcher :=
  {| cargoWatcher := cargoWatcher w; sourceWatcher := sourceWatcher w;
     disposables := disposables w; debounceTimer := debounceTimer w;
     pendingChanges := pendingChanges w; isRunning := isRunning w;
     changeListeners := changeListeners w; options := options w;
     dependencyService := dependencyService w;
     outputChannel := (outputChannel w ++ [message])%list;
     delivered := delivered w |}.

Definition withService (svc : DetectionService) (w : Watcher) : Watcher :=
  {| cargoWatcher := cargoWatcher w; sourceWatcher := sourceWatcher w;
     disposables := disposables w; debounceTimer := debounceTimer w;
     pendingChanges := pendingChanges w; isRunning := isRunning w;
     changeListeners := changeListeners w; options := options w;
     dependencyService := svc;
     outputChannel := outputChannel w; delivered := delivered w |}.

Definition withPending (pending : list string) (w : Watcher) : Watcher :=
  {| cargoWatcher := cargoWatcher w; sourceWatcher := sourceWatcher w;
     disposables := disposables w; debounceTimer := debounceTimer w;
     pendingChanges := pending; isRunning := isRunning w;
     changeListeners := changeListeners w; options := options w;
     dependencyService := dependencyService w;
     outputChannel := outputChannel w; delivered := delivered w |}.

Definition withTimer (timer : option Timer) (w : Watcher) : Watcher :=
  {| cargoWatcher := cargoWatcher w; sourceWatcher := sourceWatcher w;
     disposables := disposables w; debounceTimer := timer;
     pendingChanges := pendingChanges w; isRunning := isRunning w;
     changeListeners := changeListeners w; options := options w;
     dependencyService := dependencyService w;
     outputChannel := outputChannel w; delivered := delivered w |}.

(** One call [listener(event)] inside its [try]/[catch]. *)
Definition callListener (event : DependencyChangeEvent) (w : Watcher) (l : Listener)
  : Watcher :=
  let w1 :=
    {| cargoWatcher := cargoWatcher w; sourceWatcher := sourceWatcher w;
       disposables := disposables w; debounceTimer := debounceTimer w;
       pendingChanges := pendingChanges w; isRunning := isRunning w;
       changeListeners := changeListeners w; options := options w;
       dependencyService := dependencyService w;
       outputChannel := outputChannel w;
       delivered := (delivered w ++ [(listener_id l, event)])%list |} in
  match listener_throws l event with
  | Some error => log ("[DependencyWatcher] Error in change listener: " ++ error) w1
  | None => w1
  end.

(** [emitChange] *)
Definition emitChange (event : DependencyChangeEvent) (w : Watcher) : Watcher :=
  fold_left (callListener event) (changeListeners w) w.




Section WatcherOperations.
Variable P : Platform.

(** [refresh].  [scan] is the outcome of
    [metadataService.scanWorkspace()], reduced to its [contracts];
    [tBuild] and [tEvent] are the values of [Date.now()] in
    [buildDependencyGraph] and in the event literal.  The [catch] logs
    and throws again. *)
Definition refresh (changeType : ChangeType)
    (scan : Result (list ContractMetadata)) (tBuild tEvent : Z) (w : Watcher)
  : Result unit * Watcher :=
  let w := log "[DependencyWatcher] Refreshing dependency graph..." w in
  let w := withService (invalidateCache (dependencyService w)) w in
  match scan with
  | Throw error =>
      (Throw error, log ("[DependencyWatcher] Failed to refresh: " ++ error) w)
  | Ok contracts =>
      match contracts with
      | [] => (Ok tt, log "[DependencyWatcher] No contracts found in workspace" w)
      | _ :: _ =>
          let buildOptions :=
            {| includeDevDependencies := None; includeBuildDependencies := None;
               detectImports := Some (watchSourceFiles (options w));
               maxSourceDepth := None; sourceExtensions := None |} in
          match buildDependencyGraph P contracts buildOptions tBuild
                  (dependencyService w) with
          | (Throw error, svc) =>
              (Throw error,
               log ("[DependencyWatcher] Failed to refresh: " ++ error)
                   (withService svc w))
          | (Ok graph, svc) =>
              let w := withService svc w in
              let event :=
                {| event_type := changeType;
                   affectedContracts := pendingChanges w;
                   timestamp := tEvent; event_graph := graph |} in
              let w := emitChange event w in
              let w := withPending [] w in
              (Ok tt, log "[DependencyWatcher] Dependency graph refreshed successfully" w)
          end
      end
  end.

(** [scheduleRefresh]: the path is recorded and the single timer is
    replaced. *)
Definition scheduleRefresh (changeType : ChangeType) (filePath : string)
    (w : Watcher) : Watcher :=
  let w := withPending (JsSet.add filePath (pendingChanges w)) w in
  withTimer (Some {| timer_changeType := changeType; timer_armed := true |}) w.

(** The callback given to [setTimeout]:
    [refresh(changeType).catch(log)] when [autoRefresh] is set. *)
Definition debounceCallback (changeType : ChangeType)
    (scan : Result (list ContractMetadata)) (tBuild tEvent : Z) (w : Watcher)
  : Watcher :=
  if autoRefresh (options w) then
    match refresh changeType scan tBuild tEvent w with
    | (Ok _, w') => w'
    | (Throw error, w') =>
        log ("[DependencyWatcher] Auto-refresh failed: " ++ error) w'
    end
  else w.

(** The debounce timer expires. *)
Definition debounceTimerFires (scan : Result (list ContractMetadata))
    (tBuild tEvent : Z) (w : Watcher) : Watcher :=
  match debounceTimer w with
  | Some t =>
      if timer_armed t then
        debounceCallback (timer_changeType t) scan tBuild tEvent
          (withTimer (Some {| timer_changeType := timer_changeType t;
                              timer_armed := false |}) w)
      else w
  | None => w
  end.

(** The handlers registered on the two file-system watchers. *)
Definition onCargoEvent (changeType : ChangeType) (fsPath : string) (w : Watcher)
  : Watcher :=
  let verb :=
    match changeType with
    | added => "created" | removed => "deleted" | _ => "changed"
    end in
  scheduleRefresh changeType fsPath
    (log ("[DependencyWatcher] Cargo.toml " ++ verb ++ ": " ++ fsPath) w).

Definition onSourceEvent (changeType : ChangeType) (fsPath : string) (w : Watcher)
  : Watcher :=
  let verb :=
    match changeType with
    | added => "created" | removed => "deleted" | _ => "changed"
    end in
  scheduleRefresh changeType fsPath
    (log ("[DependencyWatcher] Source file " ++ verb ++ ": " ++ fsPath) w).

Definition setRunning (running cargoW sourceW : bool) (disp : nat) (w : Watcher)
  : Watcher :=
  {| cargoWatcher := cargoW; sourceWatcher := sourceW;
     disposables := disp; debounceTimer := debounceTimer w;
     pendingChanges := pendingChanges w; isRunning := running;
     changeListeners := changeListeners w; options := options w;
     dependencyService := dependencyService w;
     outputChannel := outputChannel w; delivered := delivered w |}.

(** [start] *)
Definition start (scan : Result (list ContractMetadata)) (tBuild tEvent : Z)
    (w : Watcher) : Result unit * Watcher :=
  if isRunning w then (Ok tt, log "[DependencyWatcher] Already running" w)
  else
    let w := log "[DependencyWatcher] Starting dependency watcher..." w in
    let withSource := watchSourceFiles (options w) in
    let w :=
      setRunning true true (if withSource then true else sourceWatcher w)
                 (disposables w + (if withSource then 2 else 1))%nat w in
    let w := log "[DependencyWatcher] Dependency watcher started" w in
    if autoRefresh (options w) then refresh full_refresh scan tBuild tEvent w
    else (Ok tt, w).

(** [stop] *)
Definition stop (w : Watcher) : Watcher :=
  if isRunning w then
    let w := log "[DependencyWatcher] Stopping dependency watcher..." w in
    let w := withTimer None w in
    let w := setRunning false false false (disposables w) w in
    let w := withPending [] w in
    log "[DependencyWatcher] Dependency watcher stopped" w
  else w.
End WatcherOperations.

(** [dispose]: [stop], then the disposables and the listeners are
    dropped. *)
Definition dispose (w : Watcher) : Watcher :=
  let w := stop w in
  {| cargoWatcher := cargoWatcher w; sourceWatcher := sourceWatcher w;
     disposables := 0%nat; debounceTimer := debounceTimer w;
     pendingChanges := pendingChanges w; isRunning := isRunning w;
     changeListeners := []; options := options w;
     dependencyService := dependencyService w;
     outputChannel := outputChannel w; delivered := delivered w |}.

(* ================================================================== *)
(** * Sequences of calls to the cache *)
(* ================================================================== *)

(** The calls that read or write the two cache fields. *)
Inductive ServiceCall :=
| CallBuild (contracts : list ContractMetadata) (options : DependencyDetectionOptions)
            (now : Z)
| CallInvalidate
| CallGetCached (maxAge now : Z).

Definition serviceStep (P : Platform) (svc : DetectionService) (c : ServiceCall)
  : DetectionService :=
  match c with
  | CallBuild contracts options_ now => snd (buildDependencyGraph P contracts options_ now svc)
  | CallInvalidate => invalidateCache svc
  | CallGetCached _ _ => svc
  end.

Definition serviceRun (P : Platform) (calls : list ServiceCall) (svc : DetectionService)
  : DetectionService :=
  fold_left (serviceStep P) calls svc.

(** What the cache is said to hold after a sequence of calls: the graph
    and the time of the most recent build that returned a graph, unless
    [invalidateCache] was called since; [held] is what it held before. *)
Fixpoint mostRecentBuild (P : Platform) (calls : list ServiceCall)
    (held : option (DependencyGraph * Z)) : option (DependencyGraph * Z) :=
  match calls with
  | [] => held
  | CallBuild contracts options_ now :: later =>
      match fst (buildDependencyGraph P contracts options_ now newService) with
      | Ok g => mostRecentBuild P later (Some (g, now))
      | Throw _ => mostRecentBuild P later held
      end
  | CallInvalidate :: later => mostRecentBuild P later None
  | CallGetCached _ _ :: later => mostRecentBuild P later held
  end.

(** What a read is said to return: the held graph when its age is at most
    [maxAge], and [null] otherwise. *)
Definition freshGraph (maxAge now : Z) (held : option (DependencyGraph * Z))
  : option DependencyGraph :=
  match held with
  | Some (g, t) => if now - t <=? maxAge then Some g else None
  | None => None
  end.

(** The graph a service holds, with the time of its build. *)
Definition heldBy (svc : DetectionService) : option (DependencyGraph * Z) :=
  match cachedGraph svc with
  | Some g => Some (g, lastScanTime svc)
  | None => None
  end.

(* ================================================================== *)
(** * Dependency relation of a node map *)
(* ================================================================== *)

(** [a] lists [b] among its dependencies. *)
Definition dependsOn (nodes_ : list (string * DependencyNode)) (a b : string) : Prop :=
  ∃ n, JsMap.get a nodes_ = Some n ∧ b ∈ node_dependencies n.

(** No node reaches itself along one or more dependencies. *)
Definition acyclic (nodes_ : list (string * DependencyNode)) : Prop :=
  ∀ a, ¬ tc (dependsOn nodes_) a a.

(** Every dependency listed in the map has a smaller rank than the node
    that lists it: a check that implies [acyclic]. *)
Definition rankedBy (rank : string -> nat) (nodes_ : list (string * DependencyNode))
  : bool :=
  forallb (fun kn => forallb (fun d => (rank d <? rank (fst kn))%nat)
                             (node_dependencies (snd kn)))
          nodes_.

(** The depth of the node stored under a name; [0] for a name that is not
    a key, as in [nodes.get(name)?.depth ?? 0]. *)
Definition depthOf (nodes_ : list (string * DependencyNode)) (name : string) : Z :=
  match JsMap.get name nodes_ with
  | Some n => node_depth n
  | None => 0
  end.

(** [0] for no dependencies, else one more than the largest depth among
    them. *)
Definition depthRecurrence (nodes_ : list (string * DependencyNode))
    (n : DependencyNode) : Z :=
  match node_dependencies n with
  | [] => 0
  | d :: ds => 1 + fold_left Z.max (map (depthOf nodes_) ds) (depthOf nodes_ d)
  end.

(** The node map with every depth reset: what [calculateDepths] leaves
    as it is. *)
Definition eraseDepth (nodes_ : list (string * DependencyNode))
  : list (string * DependencyNode) :=
  map (fun kn => (fst kn, setDepth 0 (snd kn))) nodes_.

(* ================================================================== *)
(** * Invariants of edges and nodes *)
(* ================================================================== *)

(** The ordered pair an edge stands for. *)
Definition edgePair (e : EnhancedDependencyEdge) : string * string :=
  (edge_from e, edge_to e).

(** An entry of the edge map sits under the key of its own pair. *)
Definition keyedByPair (ke : string * EnhancedDependencyEdge) : Prop :=
  fst ke = edgeKey (edge_from (snd ke)) (edge_to (snd ke)).

(** The adjacency arrays of a node have no duplicates and the two counts
    are their lengths. *)
Definition adjacencyOk (n : DependencyNode) : Prop :=
  NoDup (node_dependencies n) ∧ NoDup (node_dependents n) ∧
  node_dependencyCount n = Z.of_nat (length (node_dependencies n)) ∧
  node_dependentCount n = Z.of_nat (length (node_dependents n)).

(** The import names two workspace contracts, matched without regard to
    case, and [key] is the key of their pair. *)
Definition resolvesTo (contracts : list ContractMetadata) (imp : ImportDependency)
    (key : string) : Prop :=
  ∃ src tgt,
    JsMap.get (toLowerCase (sourceContract imp)) (contractByName contracts) = Some src ∧
    JsMap.get (toLowerCase (importedModule imp)) (contractByName contracts) = Some tgt ∧
    key = edgeKey (cargoTomlPath src) (cargoTomlPath tgt).

(** What a call of [calculateDepth] in state [st] leaves in place when it
    returns in state [st']: everything but depths, the members of
    [visited], and the node stored under each name already visited. *)
Definition depthFrame (st st' : DepthState) : Prop :=
  eraseDepth (ds_nodes st') = eraseDepth (ds_nodes st) ∧
  (∀ v, v ∈ ds_visited st -> v ∈ ds_visited st') ∧
  (∀ v, v ∈ ds_visited st -> JsMap.get v (ds_nodes st') = JsMap.get v (ds_nodes st)).

(** Every visited node outside [pending], the names whose calls have not
    returned yet, has its final depth: its dependencies are visited and
    outside [pending], and its depth obeys the recurrence. *)
Definition settled (pending : list string) (st : DepthState) : Prop :=
  ∀ v n,
    v ∈ ds_visited st -> v ∉ pending -> JsMap.get v (ds_nodes st) = Some n ->
    (∀ d, d ∈ node_dependencies n -> d ∈ ds_visited st ∧ d ∉ pending) ∧
    node_depth n = depthRecurrence (ds_nodes st) n.

(** A state that [calculateDepths] can be in on the node map [nodes0]:
    only depths differ from [nodes0], and [visited] is a duplicate-free
    list of names of [depthNames nodes0]. *)
Definition reachableFrom (nodes0 : list (string * DependencyNode)) (st : DepthState)
  : Prop :=
  eraseDepth (ds_nodes st) = eraseDepth nodes0 ∧
  NoDup (ds_visited st) ∧
  (∀ x, x ∈ ds_visited st -> x ∈ depthNames nodes0).

(** [fuel] exceeds the number of names that are not visited yet. *)
Definition enoughFuel (nodes0 : list (string * DependencyNode)) (fuel : nat)
    (st : DepthState) : Prop :=
  (length (depthNames nodes0) < fuel + length (ds_visited st))%nat.

(** What a call [calculateDepth fuel x] establishes on [nodes0] when every
    pending name reaches [x]: the state stays settled and the result is
    the depth stored for [x]. *)
Definition settles (nodes0 : list (string * DependencyNode)) (fuel : nat) : Prop :=
  ∀ x pending st r st',
    calculateDepth fuel x st = Some (r, st') ->
    eraseDepth (ds_nodes st) = eraseDepth nodes0 ->
    settled pending st ->
    (∀ s, s ∈ pending -> tc (dependsOn nodes0) s x) ->
    settled pending st' ∧ r = depthOf (ds_nodes st') x.

(* ================================================================== *)
(** * Files within reach of a scan *)
(* ================================================================== *)

(** [foundFile P extensions remaining dir file]: [file] has one of the
    extensions and a chain of at most [remaining] directories, each of
    which lists the next and none of which is skipped, leads from [dir]
    to it. *)
Inductive foundFile (P : Platform) (extensions : list string)
  : nat -> string -> string -> Prop :=
| found_here remaining dir entries entry :
    readdirSync P dir = Ok entries ->
    entry ∈ entries ->
    dirent_kind entry = DirentFile ->
    path_extname P (dirent_name entry) ∈ extensions ->
    foundFile P extensions (S remaining) dir (path_join P dir (dirent_name entry))
| found_below remaining dir entries entry file :
    readdirSync P dir = Ok entries ->
    entry ∈ entries ->
    dirent_kind entry = DirentDirectory ->
    dirent_name entry ∉ skippedDirectories ->
    foundFile P extensions remaining (path_join P dir (dirent_name entry)) file ->
    foundFile P extensions (S remaining) dir file.

(** The platform [P] on which reading the files selected by [bad] throws. *)
Definition withUnreadable (P : Platform) (bad : string -> bool) : Platform :=
  {| readdirSync := readdirSync P;
     readFileSync := fun f => if bad f then Throw "EACCES" else readFileSync P f;
     path_join := path_join P;
     path_extname := path_extname P;
     resolveDeploymentDependencies := resolveDeploymentDependencies P |}.

(* ================================================================== *)
(** * Sample workspaces *)
(* ================================================================== *)

(** [createMockContract] of the test suite, with workspace dependencies
    given by name. *)
Definition workspaceDep (name : string) : string * CargoDependency :=
  (name, {| dep_name := name; dep_path := None; dep_workspace := true;
            dep_version := None |}).

Definition mockContract (name dir : string) (deps : list string) : ContractMetadata :=
  {| contractName := name; cargoTomlPath := dir ++ "/Cargo.toml"; contractDir := dir;
     dependencies := map workspaceDep deps;
     buildDependencies := []; devDependencies := [] |}.

Definition declaredEdge (c d : ContractMetadata) : DependencyEdge :=
  {| from := cargoTomlPath c; to := cargoTomlPath d; reason := "workspace";
     dependencyName := contractName d |}.

(** A file system on which every call fails, path functions for plain
    names with one dot, and a resolver that answers [r]. *)
Definition simple_extname (name : string) : string :=
  match index 0 "." name with
  | Some (S i) => substring (S i) (String.length name - S i) name
  | _ => ""
  end.

Definition fixedResolver (r : Result DependencyResolutionResult) : Platform :=
  {| readdirSync := fun _ => Throw "ENOENT";
     readFileSync := fun _ => Throw "ENOENT";
     path_join := fun d n => d ++ "/" ++ n;
     path_extname := simple_extname;
     resolveDeploymentDependencies := fun _ _ => r |}.

(** The chain of [testDependencyChain]: a depends on b, b depends on c. *)
Definition chainC : ContractMetadata := mockContract "contract-c" "/workspace/contracts/c" [].
Definition chainB : ContractMetadata :=
  mockContract "contract-b" "/workspace/contracts/b" ["contract-c"].
Definition chainA : ContractMetadata :=
  mockContract "contract-a" "/workspace/contracts/a" ["contract-b"].
Definition chainContracts : list ContractMetadata := [chainA; chainB; chainC].

Definition chainResolution : DependencyResolutionResult :=
  {| res_edges := [declaredEdge chainA chainB; declaredEdge chainB chainC];
     res_cycles := [];
     res_order := ["contract-c"; "contract-b"; "contract-a"];
     res_levels := [["contract-c"]; ["contract-b"]; ["contract-a"]] |}.

Definition chainGraph : DependencyGraph := assembleGraph chainContracts chainResolution [].

(** The two contracts of [testCircularDependencies], which depend on each
    other, and a resolver outcome that reports their cycle, as that test
    asserts of the resolver. *)
Definition cycleA : ContractMetadata :=
  mockContract "contract-a" "/workspace/contracts/a" ["contract-b"].
Definition cycleB : ContractMetadata :=
  mockContract "contract-b" "/workspace/contracts/b" ["contract-a"].
Definition cycleContracts : list ContractMetadata := [cycleA; cycleB].

Definition cycleResolution : DependencyResolutionResult :=
  {| res_edges := [declaredEdge cycleA cycleB; declaredEdge cycleB cycleA];
     res_cycles := [["contract-a"; "contract-b"; "contract-a"]];
     res_order := []; res_levels := [] |}.

Definition withoutImports : DependencyDetectionOptions :=
  {| includeDevDependencies := None; includeBuildDependencies := None;
     detectImports := Some false; maxSourceDepth := None; sourceExtensions := None |}.

(** A running watcher whose service holds [chainGraph], built at time
    [1000], with one pending path. *)
Definition cachedService : DetectionService :=
  {| cachedGraph := Some chainGraph; lastScanTime := 1000 |}.

Definition sampleWatcher : Watcher :=
  {| cargoWatcher := true; sourceWatcher := true; disposables := 2%nat;
     debounceTimer := Some {| timer_changeType := modified; timer_armed := true |};
     pendingChanges := ["/workspace/contracts/a/Cargo.toml"];
     isRunning := true;
     changeListeners := [{| listener_id := 0%nat; listener_throws := fun _ => None |}];
     options := defaultWatcherOptions;
     dependencyService := cachedService;
     outputChannel := []; delivered := [] |}.

(** Two contracts without a declared dependency between them; the source
    of [alpha] imports [beta] on two lines. *)
Definition alpha : ContractMetadata := mockContract "alpha" "/ws/alpha" [].
Definition beta : ContractMetadata := mockContract "beta" "/ws/beta" [].

Definition alphaUsesBeta (line : Z) (text : string) : ImportDependency :=
  {| sourceContract := "alpha"; importedModule := "beta"; importType := use;
     sourceFile := "/ws/alpha/src/lib.rs"; lineNumber := line; statement := text |}.

Definition firstImport : ImportDependency := alphaUsesBeta 1 "use beta::Client;".
Definition secondImport : ImportDependency := alphaUsesBeta 2 "use beta::Error;".

(** A file system for [alpha]: its [src] directory holds a readable file,
    a file that cannot be read, a directory that cannot be listed and a
    readable subdirectory; [target] is one of the skipped directories. *)
Definition file (name : string) : Dirent :=
  {| dirent_name := name; dirent_kind := DirentFile |}.
Definition directory (name : string) : Dirent :=
  {| dirent_name := name; dirent_kind := DirentDirectory |}.

Definition sampleListing (dir : string) : Result (list Dirent) :=
  if decide (dir = "/ws/alpha") then
    Ok [file "Cargo.toml"; directory "target"; directory "src"]
  else if decide (dir = "/ws/alpha/src") then
    Ok [file "secret.rs"; directory "locked"; file "lib.rs"; directory "util";
        file "notes.txt"]
  else if decide (dir = "/ws/alpha/src/util") then Ok [file "helpers.rs"]
  else if decide (dir = "/ws/alpha/target") then Ok [file "generated.rs"]
  else Throw "EACCES".

Definition newline : string := String (ascii_of_nat 10) EmptyString.

Definition sampleContent (path : string) : Result string :=
  if decide (path = "/ws/alpha/src/lib.rs") then
    Ok ("use beta::Client;" ++ newline ++ "  extern crate gamma;" ++ newline
        ++ "fn main() {}" ++ newline ++ "mod tests;")
  else if decide (path = "/ws/alpha/src/util/helpers.rs") then
    Ok "use soroban_sdk::Env;"
  else Throw "EACCES".

Definition sampleFs : Platform :=
  {| readdirSync := sampleListing;
     readFileSync := sampleContent;
     path_join := fun d n => d ++ "/" ++ n;
     path_extname := simple_extname;
     resolveDeploymentDependencies :=
       fun _ _ => Ok {| res_edges := []; res_cycles := []; res_order := [];
                        res_levels := [] |} |}.

Definition sampleImport (file_ : string) (ty : ImportType) (module : string)
    (line : Z) (text : string) : ImportDependency :=
  {| sourceContract := "alpha"; importedModule := module; importType := ty;
     sourceFile := file_; lineNumber := line; statement := text |}.

(* ================================================================== *)
(** * Relations read off a node map *)
(* ================================================================== *)

(** [b] lists [a] among its dependents. *)
Definition dependentOf (nodes_ : list (string * DependencyNode)) (b a : string) : Prop :=
  ∃ n, JsMap.get b nodes_ = Some n ∧ a ∈ node_dependents n.

(** A node stored under its own name. *)
Definition namedByKey (kn : string * DependencyNode) : Prop :=
  node_name (snd kn) = fst kn.

(** The edge runs between the contracts named [a] and [b]: its two paths,
    normalized, are those of the first contracts with such paths. *)
Definition edgeLinks (contracts : list ContractMetadata) (e : EnhancedDependencyEdge)
    (a b : string) : Prop :=
  ∃ fromContract toContract,
    findContractByPath contracts (edge_from e) = Some fromContract ∧
    findContractByPath contracts (edge_to e) = Some toContract ∧
    a = contractName fromContract ∧ b = contractName toContract.

(** The adjacency array that a traversal follows leads from the node
    named [a] to the name [b]. *)
Definition follows (adj : DependencyNode -> list string) (graph : DependencyGraph)
    (a b : string) : Prop :=
  ∃ n, findNodeByName graph a = Some n ∧ b ∈ adj n.

(** Every name that [traverse] can add to [visited]. *)
Definition traverseNames (adj : DependencyNode -> list string) (graph : DependencyGraph)
  : list string :=
  concat (map adj (JsMap.values (nodes graph))).

(** A nesting bound that [traverse] never reaches. *)
Definition traverseFuel (adj : DependencyNode -> list string) (graph : DependencyGraph)
  : nat :=
  S (length (traverseNames adj graph)).

(** A state that [traverse] can be in: [visited] is a duplicate-free list
    of names of the adjacency arrays, and [transitive] holds the nodes
    stored under them, in the same order. *)
Definition traversalState (adj : DependencyNode -> list string) (graph : DependencyGraph)
    (st : list string * list DependencyNode) : Prop :=
  NoDup (fst st) ∧
  (∀ d, d ∈ fst st -> d ∈ traverseNames adj graph) ∧
  snd st = lookupNodes graph (fst st).

(** Looking a node up by its name field and by its key agree. *)
Definition coherent (graph : DependencyGraph) : Prop :=
  ∀ d, findNodeByName graph d = JsMap.get d (nodes graph).

(** Every visited name outside [pending], the names whose loops are still
    running, has all the names of its adjacency array visited. *)
Definition closedUnder (adj : DependencyNode -> list string) (graph : DependencyGraph)
    (pending : list string) (visited : list string) : Prop :=
  ∀ d n, d ∈ visited -> d ∉ pending -> JsMap.get d (nodes graph) = Some n ->
         ∀ b, b ∈ adj n -> b ∈ visited.

(** A depth that tells leaves from the other nodes: [0] without
    dependencies, at least [1] with some. *)
Definition depthSound (n : DependencyNode) : Prop :=
  (node_dependencies n = [] -> node_depth n = 0) ∧
  (node_dependencies n ≠ [] -> 1 <= node_depth n).

(** No depth is negative, and every visited node outside [pending] has
    received a sound depth. *)
Definition finished (pending : list string) (st : DepthState) : Prop :=
  (∀ k n, JsMap.get k (ds_nodes st) = Some n -> 0 <= node_depth n) ∧
  (∀ v n, v ∈ ds_visited st -> v ∉ pending ->
          JsMap.get v (ds_nodes st) = Some n -> depthSound n).

(** What holds of every entry of the edge map built from [contracts] and
    [imports_]: the edge is not external; it has no supporting imports
    exactly when its source is [cargo]; its supporting imports are not
    empty, come from [imports_] and name the pair of its key; an edge of
    source [import] has the reason and the missing metadata of
    [importEdge]. *)
Definition edgeWellFormed (contracts : list ContractMetadata)
    (imports_ : list ImportDependency) (ke : string * EnhancedDependencyEdge) : Prop :=
  edge_isExternal (snd ke) = false ∧
  (edge_source (snd ke) = cargo ↔ edge_imports (snd ke) = None) ∧
  (∀ imps, edge_imports (snd ke) = Some imps ->
           imps ≠ [] ∧
           ∀ imp, imp ∈ imps -> imp ∈ imports_ ∧ resolvesTo contracts imp (fst ke)) ∧
  (edge_source (snd ke) = import ->
   edge_reason (snd ke) = "workspace" ∧ edge_cargoMetadata (snd ke) = None).


(** Every character of [s] satisfies [p]. *)
Fixpoint string_forallb (p : ascii -> bool) (s : string) : bool :=
  match s with
  | EmptyString => true
  | String a r => (p a && string_forallb p r)%bool
  end.




(** The entries that [findSourceFiles] does not pass over: the files, and
    the directories not named in [skippedDirectories]. *)
Definition entered (entry : Dirent) : bool :=
  match dirent_kind entry with
  | DirentFile => true
  | DirentDirectory => negb (includes (dirent_name entry) skippedDirectories)
  | DirentOther => false
  end.

(** The platform [P] on which the listings show the entered entries only. *)
Definition withoutSkipped (P : Platform) : Platform :=
  {| readdirSync := fun dir =>
       match readdirSync P dir with
       | Ok entries => Ok (List.filter entered entries)
       | Throw e => Throw e
       end;
     readFileSync := readFileSync P;
     path_join := path_join P;
     path_extname := path_extname P;
     resolveDeploymentDependencies := resolveDeploymentDependencies P |}.

(** The options [refresh] passes to [buildDependencyGraph]. *)
Definition refreshOptions (w : Watcher) : DependencyDetectionOptions :=
  {| includeDevDependencies := None; includeBuildDependencies := None;
     detectImports := Some (watchSourceFiles (options w));
     maxSourceDepth := None; sourceExtensions := None |}.

(** The lines that [emitChange] logs: one for each listener that throws. *)
Definition listenerErrors (event : DependencyChangeEvent) (ls : list Listener)
  : list string :=
  flat_map
    (fun l =>
       match listener_throws l event with
       | Some error => [("[DependencyWatcher] Error in change listener: " ++ error)%string]
       | None => []
       end) ls.

(** One call of each listener with [event], in the order of [ls]. *)
Definition callsOf (event : DependencyChangeEvent) (ls : list Listener)
  : list (nat * DependencyChangeEvent) :=
  map (fun l => (listener_id l, event)) ls.

(** A burst of file events, each given to [scheduleRefresh]. *)
Definition scheduleAll (events : list (ChangeType * string)) (w : Watcher) : Watcher :=
  fold_left (fun w ev => scheduleRefresh (fst ev) (snd ev) w) events w.

(** The fields that neither [refresh] nor a timer callback writes. *)
Definition sameRegistration (w w' : Watcher) : Prop :=
  cargoWatcher w' = cargoWatcher w ∧ sourceWatcher w' = sourceWatcher w ∧
  disposables w' = disposables w ∧ isRunning w' = isRunning w ∧
  changeListeners w' = changeListeners w ∧ options w' = options w.

(** No character of [s] is a backslash. *)
Definition noBackslash (s : string) : bool :=
  string_forallb (fun a => negb (bool_decide (a = backslash))) s.


(* ================================================================== *)
(** * Properties *)
(* ================================================================== *)

(** ** The cache *)

Lemma getCachedGraph_invalidateCache maxAge now svc :
  getCachedGraph maxAge now (invalidateCache svc) = None.
Proof. reflexivity. Qed.

Lemma getCachedGraph_fresh maxAge now g t :
  now - t <= maxAge ->
  getCachedGraph maxAge now {| cachedGraph := Some g; lastScanTime := t |} = Some g.
Proof.
  intros Hage. unfold getCachedGraph; simpl.
  destruct (Z.gtb_spec (now - t) maxAge); [lia | reflexivity].
Qed.

Lemma getCachedGraph_stale maxAge now g t :
  maxAge < now - t ->
  getCachedGraph maxAge now {| cachedGraph := Some g; lastScanTime := t |} = None.
Proof.
  intros Hage. unfold getCachedGraph; simpl.
  destruct (Z.gtb_spec (now - t) maxAge); [reflexivity | lia].
Qed.

Lemma buildDependencyGraph_Ok_service P contracts opts now svc g svc' :
  buildDependencyGraph P contracts opts now svc = (Ok g, svc') ->
  svc' = {| cachedGraph := Some g; lastScanTime := now |}.
Proof.
  unfold buildDependencyGraph.
  destruct (resolveDeploymentDependencies P contracts _); intros [= <- <-]; reflexivity.
Qed.

Lemma buildDependencyGraph_Throw_service P contracts opts now svc e svc' :
  buildDependencyGraph P contracts opts now svc = (Throw e, svc') -> svc' = svc.
Proof.
  unfold buildDependencyGraph.
  destruct (resolveDeploymentDependencies P contracts _); intros [= <-]; congruence.
Qed.

Lemma buildDependencyGraph_graph_independent P contracts opts now svc svc0 :
  fst (buildDependencyGraph P contracts opts now svc)
  = fst (buildDependencyGraph P contracts opts now svc0).
Proof.
  unfold buildDependencyGraph.
  destruct (resolveDeploymentDependencies P contracts _); reflexivity.
Qed.

Lemma getCachedGraph_heldBy maxAge now svc :
  getCachedGraph maxAge now svc = freshGraph maxAge now (heldBy svc).
Proof.
  unfold getCachedGraph, freshGraph, heldBy.
  destruct (cachedGraph svc) as [g |]; [| reflexivity].
  destruct (Z.gtb_spec (now - lastScanTime svc) maxAge),
           (Z.leb_spec (now - lastScanTime svc) maxAge); try reflexivity; lia.
Qed.

Lemma heldBy_serviceRun P calls svc :
  heldBy (serviceRun P calls svc) = mostRecentBuild P calls (heldBy svc).
Proof.
  unfold serviceRun. revert svc.
  induction calls as [| c calls IH]; intros svc; [reflexivity |].
  simpl. rewrite IH. destruct c as [cs o t | | m t]; simpl; try reflexivity.
  rewrite (buildDependencyGraph_graph_independent P cs o t newService svc).
  destruct (buildDependencyGraph P cs o t svc) as [[g | e] svc'] eqn:Hb; simpl.
  - now rewrite (buildDependencyGraph_Ok_service _ _ _ _ _ _ _ Hb).
  - now rewrite (buildDependencyGraph_Throw_service _ _ _ _ _ _ _ Hb).
Qed.

(** C4.  Cache freshness.  After any sequence of builds, invalidations
    and reads on a new service, [getCachedGraph maxAge] at time [now]
    returns the graph of the most recent build that returned one, itself,
    when that build is at most [maxAge] old; it returns [null] when the
    build is older, when no build returned a graph, and when
    [invalidateCache] was called after the last such build. *)
Theorem cache_freshness (P : Platform) (calls : list ServiceCall) (maxAge now : Z) :
  getCachedGraph maxAge now (serviceRun P calls newService)
  = freshGraph maxAge now (mostRecentBuild P calls None).
Proof.
  rewrite getCachedGraph_heldBy, heldBy_serviceRun. reflexivity.
Qed.

Example cache_read_within_window :
  getCachedGraph 60000 61000
    (serviceRun (fixedResolver (Ok chainResolution))
       [CallBuild chainContracts withoutImports 1000; CallGetCached 10 5000] newService)
  = Some chainGraph.
Proof. vm_compute. reflexivity. Qed.

Example cache_read_after_expiry :
  getCachedGraph 60000 61001
    (serviceRun (fixedResolver (Ok chainResolution))
       [CallBuild chainContracts withoutImports 1000] newService)
  = None.
Proof. vm_compute. reflexivity. Qed.

Example cache_read_after_invalidate :
  getCachedGraph 60000 1001
    (serviceRun (fixedResolver (Ok chainResolution))
       [CallBuild chainContracts withoutImports 1000; CallInvalidate] newService)
  = None.
Proof. vm_compute. reflexivity. Qed.

(** ** Statistics *)

Lemma calculateStatistics_circularDependencies nodes_ edges_ ext :
  circularDependencies (calculateStatistics nodes_ edges_ ext) = 0.
Proof. reflexivity. Qed.

Lemma buildDependencyGraph_circularDependencies P contracts opts now svc g svc' :
  buildDependencyGraph P contracts opts now svc = (Ok g, svc') ->
  circularDependencies (statistics g) = 0.
Proof.
  unfold buildDependencyGraph.
  destruct (resolveDeploymentDependencies P contracts _); intros [= <- _]; reflexivity.
Qed.

(** C2.  The statistics of a graph are said to report the cycle count of
    the resolver.  For the two mutually dependent contracts of
    [testCircularDependencies] the graph carries the resolver's cycle, yet
    [statistics.circularDependencies] is [0]: [calculateStatistics] writes
    [0] ("will be set by caller") and [buildDependencyGraph] never sets
    it. *)
Theorem circularDependencies_not_set :
  ∃ g svc',
    buildDependencyGraph (fixedResolver (Ok cycleResolution)) cycleContracts
      withoutImports 1000 newService = (Ok g, svc') ∧
    cycles g = [["contract-a"; "contract-b"; "contract-a"]] ∧
    hasCircularDependencies g = true ∧
    circularDependencies (statistics g) = 0 ∧
    circularDependencies (statistics g) ≠ Z.of_nat (length (cycles g)).
Proof.
  eexists _, _. split; [reflexivity |]. repeat split. discriminate.
Qed.

(** ** The watcher *)

Lemma refresh_invalidates P ct scan tBuild tEvent w e w' :
  refresh P ct scan tBuild tEvent w = (Throw e, w') ->
  cachedGraph (dependencyService w') = None ∧
  pendingChanges w' = pendingChanges w ∧
  delivered w' = delivered w ∧
  isRunning w' = isRunning w ∧
  changeListeners w' = changeListeners w ∧
  debounceTimer w' = debounceTimer w ∧
  outputChannel w'
  = (outputChannel w ++ ["[DependencyWatcher] Refreshing dependency graph...";
                         ("[DependencyWatcher] Failed to refresh: " ++ e)%string])%list.
Proof.
  unfold refresh. destruct scan as [[| c cs] | err].
  - discriminate.
  - destruct (buildDependencyGraph P (c :: cs) _ tBuild _) as [[g | err] svc] eqn:Hb.
    + discriminate.
    + apply buildDependencyGraph_Throw_service in Hb. subst svc.
      intros [= <- <-]. simpl. rewrite <- app_assoc. repeat split.
  - intros [= <- <-]. simpl. rewrite <- app_assoc. repeat split.
Qed.

(** C1, as the code has it.  When the refresh started by the debounce
    timer fails, because the workspace scan or the graph build throws, the
    failure is caught and logged: the callback returns, the watcher keeps
    running with its pending changes, its timer and its listeners, and no
    event is delivered.  The cache was invalidated before the scan, so
    [getCachedGraph] returns [null] for every [maxAge] afterwards. *)
Theorem failed_debounced_refresh (P : Platform) (ct : ChangeType)
    (scan : Result (list ContractMetadata)) (tBuild tEvent : Z) (w w1 : Watcher)
    (e : string) :
  autoRefresh (options w) = true ->
  refresh P ct scan tBuild tEvent w = (Throw e, w1) ->
  let w' := debounceCallback P ct scan tBuild tEvent w in
  (∀ maxAge now, getCachedGraph maxAge now (dependencyService w') = None) ∧
  outputChannel w'
  = (outputChannel w ++ ["[DependencyWatcher] Refreshing dependency graph...";
                         ("[DependencyWatcher] Failed to refresh: " ++ e)%string;
                         ("[DependencyWatcher] Auto-refresh failed: " ++ e)%string])%list ∧
  pendingChanges w' = pendingChanges w ∧
  delivered w' = delivered w ∧
  isRunning w' = isRunning w ∧
  changeListeners w' = changeListeners w ∧
  debounceTimer w' = debounceTimer w.
Proof.
  intros Hauto Hrefresh. unfold debounceCallback. rewrite Hauto, Hrefresh.
  destruct (refresh_invalidates _ _ _ _ _ _ _ _ Hrefresh)
    as (Hcache & Hpending & Hdelivered & Hrun & Hls & Htimer & Hlog).
  simpl. rewrite Hlog, <- app_assoc. simpl.
  repeat split; try assumption.
  intros maxAge now. unfold getCachedGraph. now rewrite Hcache.
Qed.

Lemma failed_debounced_refresh_witness :
  let w' := debounceCallback (fixedResolver (Ok chainResolution)) modified
              (Throw "Error: scan failed") 2000 2000 sampleWatcher in
  (∀ maxAge now, getCachedGraph maxAge now (dependencyService w') = None) ∧
  outputChannel w'
  = ["[DependencyWatcher] Refreshing dependency graph...";
     "[DependencyWatcher] Failed to refresh: Error: scan failed";
     "[DependencyWatcher] Auto-refresh failed: Error: scan failed"] ∧
  pendingChanges w' = pendingChanges sampleWatcher ∧
  delivered w' = delivered sampleWatcher ∧
  isRunning w' = isRunning sampleWatcher ∧
  changeListeners w' = changeListeners sampleWatcher ∧
  debounceTimer w' = debounceTimer sampleWatcher.
Proof.
  exact (failed_debounced_refresh (fixedResolver (Ok chainResolution)) modified
           (Throw "Error: scan failed") 2000 2000 sampleWatcher _
           "Error: scan failed" eq_refl eq_refl).
Defined.

(** C1, as stated, fails.  The service of [sampleWatcher] holds
    [chainGraph], built at time [1000], and a read at time [2000] returns
    it; after the debounced refresh fails on a throwing workspace scan,
    the same read returns [null]. *)
Lemma failed_debounced_refresh_drops_cache :
  getCachedGraph defaultMaxAge 2000 (dependencyService sampleWatcher) = Some chainGraph ∧
  getCachedGraph defaultMaxAge 2000
    (dependencyService
       (debounceTimerFires (fixedResolver (Ok chainResolution))
          (Throw "Error: scan failed") 2000 2000 sampleWatcher))
  = None.
Proof. split; vm_compute; reflexivity. Qed.

(** C10.  When the workspace scan returns no contract, [refresh] returns
    normally; no listener is called, the pending changes are kept, no
    graph is built, and the cache, invalidated at the start of the
    refresh, is empty: [getCachedGraph] returns [null]. *)
Theorem refresh_empty_workspace (P : Platform) (ct : ChangeType) (tBuild tEvent : Z)
    (w : Watcher) :
  let r := refresh P ct (Ok []) tBuild tEvent w in
  fst r = Ok tt ∧
  delivered (snd r) = delivered w ∧
  pendingChanges (snd r) = pendingChanges w ∧
  dependencyService (snd r) = invalidateCache (dependencyService w) ∧
  cachedGraph (dependencyService (snd r)) = None ∧
  (∀ maxAge now, getCachedGraph maxAge now (dependencyService (snd r)) = None) ∧
  outputChannel (snd r)
  = (outputChannel w ++ ["[DependencyWatcher] Refreshing dependency graph...";
                         "[DependencyWatcher] No contracts found in workspace"])%list.
Proof.
  simpl. rewrite <- app_assoc. repeat split.
Qed.

Example refresh_empty_workspace_drops_cache :
  getCachedGraph defaultMaxAge 2000 (dependencyService sampleWatcher) = Some chainGraph ∧
  getCachedGraph defaultMaxAge 2000
    (dependencyService
       (snd (refresh (fixedResolver (Ok chainResolution)) full_refresh (Ok []) 2000 2000
               sampleWatcher)))
  = None.
Proof. split; vm_compute; reflexivity. Qed.

(** ** Queries *)

Lemma findNodeByName_None graph name :
  (∀ n, n ∈ JsMap.values (nodes graph) -> node_name n ≠ name) ->
  findNodeByName graph name = None.
Proof.
  unfold findNodeByName. intros Hno.
  induction (JsMap.values (nodes graph)) as [| n ns IH]; [reflexivity |].
  simpl. rewrite bool_decide_eq_false_2.
  - apply IH. intros m Hm. apply Hno. now right.
  - apply Hno. now left.
Qed.

(** C7.  For a name that no node of the graph carries,
    [getContractDependencies] and [getContractDependents] return
    [{ direct: [], transitive: [] }], whatever the nesting bound: they
    return before any traversal starts. *)
Theorem unknown_name_queries (fuel : nat) (graph : DependencyGraph) (name : string) :
  (∀ n, n ∈ JsMap.values (nodes graph) -> node_name n ≠ name) ->
  getContractDependencies fuel graph name = Some {| direct := []; transitive := [] |} ∧
  getContractDependents fuel graph name = Some {| direct := []; transitive := [] |}.
Proof.
  intros Hno. unfold getContractDependencies, getContractDependents.
  rewrite (findNodeByName_None _ _ Hno). split; reflexivity.
Qed.

Lemma unknown_name_queries_witness :
  getContractDependencies 0 chainGraph "contract-z"
  = Some {| direct := []; transitive := [] |} ∧
  getContractDependents 0 chainGraph "contract-z"
  = Some {| direct := []; transitive := [] |}.
Proof.
  apply (unknown_name_queries 0 chainGraph "contract-z").
  intros n Hn. vm_compute in Hn.
  repeat (apply elem_of_cons in Hn as [-> | Hn]; [discriminate |]).
  now apply elem_of_nil in Hn.
Defined.

(** ** JavaScript maps *)

Section JsMapFacts.
Context {V : Type}.
Implicit Types (m : list (string * V)) (k : string) (v : V).

Lemma get_set k k' v m :
  JsMap.get k (JsMap.set k' v m) = if decide (k = k') then Some v else JsMap.get k m.
Proof.
  induction m as [| [k0 v0] m IH]; simpl.
  - repeat case_decide; congruence.
  - repeat (case_decide; simpl); subst; try congruence.
Qed.

Lemma get_mutate k k' f m :
  JsMap.get k (JsMap.mutate k' f m)
  = if decide (k = k') then f <$> JsMap.get k m else JsMap.get k m.
Proof.
  induction m as [| [k0 v0] m IH]; simpl.
  - case_decide; reflexivity.
  - repeat (case_decide; simpl); subst; try congruence.
Qed.

Lemma keys_mutate k f m : JsMap.keys (JsMap.mutate k f m) = JsMap.keys m.
Proof.
  unfold JsMap.keys. induction m as [| [k0 v0] m IH]; simpl; [reflexivity |].
  case_decide; simpl; congruence.
Qed.

Lemma length_mutate k f m : length (JsMap.mutate k f m) = length m.
Proof.
  induction m as [| [k0 v0] m IH]; simpl; [reflexivity |].
  case_decide; simpl; congruence.
Qed.

Lemma get_None k m : JsMap.get k m = None ↔ k ∉ JsMap.keys m.
Proof.
  unfold JsMap.keys. induction m as [| [k0 v0] m IH]; simpl.
  - split; [intros _; apply not_elem_of_nil | reflexivity].
  - rewrite not_elem_of_cons. case_decide; subst.
    + split; [discriminate | intros [? _]; congruence].
    + rewrite IH. tauto.
Qed.

Lemma get_Some_elem_of k v m : JsMap.get k m = Some v -> (k, v) ∈ m.
Proof.
  induction m as [| [k0 v0] m IH]; simpl; [discriminate |].
  case_decide as Hk; subst.
  - intros [= ->]. left.
  - intros Hg. right. auto.
Qed.

Lemma elem_of_get k v m : NoDup (JsMap.keys m) -> (k, v) ∈ m -> JsMap.get k m = Some v.
Proof.
  unfold JsMap.keys. induction m as [| [k0 v0] m IH]; simpl.
  - intros _ H. now apply elem_of_nil in H.
  - intros Hnd H. apply NoDup_cons in Hnd as [Hk0 Hnd].
    apply elem_of_cons in H as [[= -> ->] | H].
    + now rewrite decide_True.
    + case_decide; subst.
      * exfalso. apply Hk0. exact (list_elem_of_fmap_2 fst m (k0, v) H).
      * auto.
Qed.

(** [set] on a key of the map replaces the value where it is. *)
Lemma set_present k v m :
  k ∈ JsMap.keys m -> JsMap.set k v m = JsMap.mutate k (fun _ => v) m.
Proof.
  unfold JsMap.keys. induction m as [| [k0 v0] m IH]; simpl.
  - intros H. now apply elem_of_nil in H.
  - intros H. case_decide; subst; [reflexivity |].
    apply elem_of_cons in H as [? | H]; [congruence |]. now rewrite IH.
Qed.

(** [set] on a new key appends the entry. *)
Lemma set_absent k v m : k ∉ JsMap.keys m -> JsMap.set k v m = (m ++ [(k, v)])%list.
Proof.
  unfold JsMap.keys. induction m as [| [k0 v0] m IH]; simpl; [reflexivity |].
  rewrite not_elem_of_cons. intros [Hne H]. rewrite decide_False by assumption.
  now rewrite IH.
Qed.

Lemma keys_set k v m :
  JsMap.keys (JsMap.set k v m)
  = if decide (k ∈ JsMap.keys m) then JsMap.keys m else (JsMap.keys m ++ [k])%list.
Proof.
  case_decide as Hk.
  - rewrite set_present by assumption. apply keys_mutate.
  - rewrite set_absent by assumption. unfold JsMap.keys. now rewrite map_app.
Qed.

Lemma NoDup_keys_set k v m : NoDup (JsMap.keys m) -> NoDup (JsMap.keys (JsMap.set k v m)).
Proof.
  intros Hnd. rewrite keys_set. case_decide as Hk; [assumption |].
  apply NoDup_app. split; [assumption |]. split.
  - intros x Hx Hx'. apply list_elem_of_singleton in Hx'. congruence.
  - apply NoDup_singleton.
Qed.

Lemma Forall_set (Q : string * V -> Prop) k v m :
  Forall Q m -> Q (k, v) -> Forall Q (JsMap.set k v m).
Proof.
  intros Hall Hq. induction Hall as [| [k0 v0] m H0 Hm IH]; simpl.
  - now constructor.
  - case_decide; subst; constructor; assumption.
Qed.

(** The object that [mutate] changes is the one that [get] returns. *)
Lemma Forall_mutate (Q : string * V -> Prop) k f m :
  Forall Q m ->
  (∀ v, JsMap.get k m = Some v -> Q (k, v) -> Q (k, f v)) ->
  Forall Q (JsMap.mutate k f m).
Proof.
  intros Hall. induction Hall as [| [k0 v0] m H0 Hall IH]; simpl; intros Hf.
  - constructor.
  - case_decide; subst.
    + constructor; [| assumption]. apply Hf; [reflexivity | assumption].
    + constructor; [assumption |]. apply IH. exact Hf.
Qed.

End JsMapFacts.

Lemma NoDup_keys_fold_set {A V : Type} (key : A -> string) (val : A -> V)
    (l : list A) (m : list (string * V)) :
  NoDup (JsMap.keys m) ->
  NoDup (JsMap.keys (fold_left (fun m a => JsMap.set (key a) (val a) m) l m)).
Proof.
  revert m. induction l as [| a l IH]; intros m Hnd; simpl; [assumption |].
  apply IH. now apply NoDup_keys_set.
Qed.

(** ** Edge merger *)

Lemma addCargoEdge_keyed byPath m edge :
  Forall keyedByPair m -> Forall keyedByPair (addCargoEdge byPath m edge).
Proof. intros Hm. apply Forall_set; [assumption | reflexivity]. Qed.

Lemma addCargoEdge_NoDup byPath m edge :
  NoDup (JsMap.keys m) -> NoDup (JsMap.keys (addCargoEdge byPath m edge)).
Proof. apply NoDup_keys_set. Qed.

Lemma addImport_keyed byName m imp :
  Forall keyedByPair m -> Forall keyedByPair (addImport byName m imp).
Proof.
  intros Hm. unfold addImport.
  destruct (JsMap.get (toLowerCase (sourceContract imp)) byName) as [src |]; [| assumption].
  destruct (JsMap.get (toLowerCase (importedModule imp)) byName) as [tgt |]; [| assumption].
  destruct (JsMap.get _ m) as [existing |] eqn:Hget.
  - apply Forall_mutate; [assumption |]. intros v _ Hv. exact Hv.
  - apply Forall_set; [assumption | reflexivity].
Qed.

Lemma addImport_NoDup byName m imp :
  NoDup (JsMap.keys m) -> NoDup (JsMap.keys (addImport byName m imp)).
Proof.
  intros Hm. unfold addImport.
  destruct (JsMap.get (toLowerCase (sourceContract imp)) byName) as [src |]; [| assumption].
  destruct (JsMap.get (toLowerCase (importedModule imp)) byName) as [tgt |]; [| assumption].
  destruct (JsMap.get _ m) as [existing |] eqn:Hget.
  - now rewrite keys_mutate.
  - now apply NoDup_keys_set.
Qed.

Lemma fold_left_invariant {A B : Type} (I : A -> Prop) (f : A -> B -> A) l a :
  (∀ a b, I a -> I (f a b)) -> I a -> I (fold_left f l a).
Proof.
  intros Hstep. revert a. induction l as [| b l IH]; intros a Ha; simpl; auto.
Qed.

Lemma enhancedEdgeMap_keyed cargoEdges imports_ contracts :
  Forall keyedByPair (enhancedEdgeMap cargoEdges imports_ contracts).
Proof.
  unfold enhancedEdgeMap.
  apply (fold_left_invariant (Forall keyedByPair)); [intros; now apply addImport_keyed |].
  apply (fold_left_invariant (Forall keyedByPair)); [intros; now apply addCargoEdge_keyed |].
  constructor.
Qed.

Lemma enhancedEdgeMap_NoDup cargoEdges imports_ contracts :
  NoDup (JsMap.keys (enhancedEdgeMap cargoEdges imports_ contracts)).
Proof.
  unfold enhancedEdgeMap.
  apply (fold_left_invariant (fun m => NoDup (JsMap.keys m)));
    [intros; now apply addImport_NoDup |].
  apply (fold_left_invariant (fun m => NoDup (JsMap.keys m)));
    [intros; now apply addCargoEdge_NoDup |].
  constructor.
Qed.

Lemma keyed_keys m :
  Forall keyedByPair m ->
  JsMap.keys m = map (fun e => edgeKey (edge_from e) (edge_to e)) (JsMap.values m).
Proof.
  unfold JsMap.keys, JsMap.values.
  induction 1 as [| [k e] m Hk _ IH]; simpl; [reflexivity |].
  unfold keyedByPair in Hk; simpl in Hk. congruence.
Qed.

(** At most one edge per ordered pair. *)
Lemma buildEnhancedEdges_one_edge_per_pair cargoEdges imports_ contracts :
  NoDup (map edgePair (buildEnhancedEdges cargoEdges imports_ contracts)).
Proof.
  unfold buildEnhancedEdges.
  pose proof (enhancedEdgeMap_NoDup cargoEdges imports_ contracts) as Hnd.
  rewrite (keyed_keys _ (enhancedEdgeMap_keyed cargoEdges imports_ contracts)) in Hnd.
  set (es := JsMap.values _) in *.
  change (NoDup ((fun e => edgeKey (edge_from e) (edge_to e)) <$> es)) in Hnd.
  change (NoDup (edgePair <$> es)).
  replace ((fun e => edgeKey (edge_from e) (edge_to e)) <$> es)
    with ((fun p : string * string => edgeKey (fst p) (snd p)) <$> (edgePair <$> es)) in Hnd
    by (rewrite <- list_fmap_compose; reflexivity).
  exact (NoDup_fmap_1 _ _ Hnd).
Qed.

(** An import that resolves is, from the moment it is processed, among
    the supporting imports of the edge under the key of its pair. *)
Lemma addImport_records contracts m imp key :
  resolvesTo contracts imp key ->
  ∃ e, JsMap.get key (addImport (contractByName contracts) m imp) = Some e ∧
       imp ∈ default [] (edge_imports e).
Proof.
  intros (src & tgt & Hs & Ht & ->). unfold addImport. rewrite Hs, Ht.
  destruct (JsMap.get _ m) as [existing |] eqn:Hget.
  - rewrite get_mutate, decide_True, Hget by reflexivity. simpl.
    eexists; split; [reflexivity |]. simpl. apply elem_of_app. right. left.
  - rewrite get_set, decide_True by reflexivity.
    eexists; split; [reflexivity |]. simpl. left.
Qed.

Lemma addImport_keeps_records byName m imp' key (imp : ImportDependency) :
  (∃ e, JsMap.get key m = Some e ∧ imp ∈ default [] (edge_imports e)) ->
  ∃ e, JsMap.get key (addImport byName m imp') = Some e ∧
       imp ∈ default [] (edge_imports e).
Proof.
  intros (e & He & Hin). unfold addImport.
  destruct (JsMap.get (toLowerCase (sourceContract imp')) byName) as [src |]; [| eauto].
  destruct (JsMap.get (toLowerCase (importedModule imp')) byName) as [tgt |]; [| eauto].
  set (key' := edgeKey _ _).
  destruct (JsMap.get key' m) as [existing |] eqn:Hget.
  - rewrite get_mutate. case_decide as Hk.
    + subst key. rewrite He. simpl. eexists; split; [reflexivity |].
      simpl. apply elem_of_app. now left.
    + eauto.
  - rewrite get_set. case_decide as Hk; [congruence | eauto].
Qed.

Lemma enhancedEdgeMap_records cargoEdges imports_ contracts imp key :
  imp ∈ imports_ ->
  resolvesTo contracts imp key ->
  ∃ e, JsMap.get key (enhancedEdgeMap cargoEdges imports_ contracts) = Some e ∧
       imp ∈ default [] (edge_imports e).
Proof.
  unfold enhancedEdgeMap. generalize (fold_left (addCargoEdge (contractByPath contracts))
                                         cargoEdges []).
  induction imports_ as [| i rest IH]; intros m Hin Hres.
  - now apply elem_of_nil in Hin.
  - simpl. apply elem_of_cons in Hin as [<- | Hin].
    + apply (fold_left_invariant
               (fun m => ∃ e, JsMap.get key m = Some e ∧ imp ∈ default [] (edge_imports e))).
      * intros; now apply addImport_keeps_records.
      * now apply addImport_records.
    + now apply IH.
Qed.

(** An import that confirms an entry of the map adds no edge. *)
Lemma addImport_existing contracts m imp key existing :
  resolvesTo contracts imp key ->
  JsMap.get key m = Some existing ->
  addImport (contractByName contracts) m imp = JsMap.mutate key (confirmEdge imp) m ∧
  length (addImport (contractByName contracts) m imp) = length m ∧
  JsMap.get key (addImport (contractByName contracts) m imp)
  = Some (confirmEdge imp existing).
Proof.
  intros (src & tgt & Hs & Ht & ->) Hget. unfold addImport. rewrite Hs, Ht, Hget.
  split; [reflexivity |]. split; [apply length_mutate |].
  now rewrite get_mutate, decide_True, Hget.
Qed.

(** An import whose pair has no entry yet adds the edge [importEdge]. *)
Lemma addImport_new contracts m imp key :
  resolvesTo contracts imp key ->
  JsMap.get key m = None ->
  ∃ src tgt,
    JsMap.get (toLowerCase (sourceContract imp)) (contractByName contracts) = Some src ∧
    JsMap.get (toLowerCase (importedModule imp)) (contractByName contracts) = Some tgt ∧
    addImport (contractByName contracts) m imp
    = (m ++ [(key, importEdge src tgt imp)])%list.
Proof.
  intros (src & tgt & Hs & Ht & ->) Hget. exists src, tgt.
  split; [assumption |]. split; [assumption |].
  unfold addImport. rewrite Hs, Ht, Hget.
  apply set_absent. now apply get_None.
Qed.

(** An import that confirms a declared edge: the edge count is that of
    the build without the import, the edge has source [both] and the
    import is appended to its supporting imports. *)
Lemma buildEnhancedEdges_confirms_declared cargoEdges earlier imp contracts key :
  resolvesTo contracts imp key ->
  key ∈ map (fun e => edgeKey (from e) (to e)) cargoEdges ->
  ∃ existing,
    JsMap.get key (enhancedEdgeMap cargoEdges earlier contracts) = Some existing ∧
    enhancedEdgeMap cargoEdges (earlier ++ [imp]) contracts
    = JsMap.mutate key (confirmEdge imp) (enhancedEdgeMap cargoEdges earlier contracts) ∧
    length (buildEnhancedEdges cargoEdges (earlier ++ [imp]) contracts)
    = length (buildEnhancedEdges cargoEdges earlier contracts).
Proof.
  intros Hres Hkey.
  assert (Hin : key ∈ JsMap.keys (enhancedEdgeMap cargoEdges earlier contracts)).
  { unfold enhancedEdgeMap.
    apply (fold_left_invariant (fun m => key ∈ JsMap.keys m)).
    - intros m i Hm. unfold addImport.
      destruct (JsMap.get (toLowerCase (sourceContract i)) _); [| assumption].
      destruct (JsMap.get (toLowerCase (importedModule i)) _); [| assumption].
      destruct (JsMap.get _ m).
      + now rewrite keys_mutate.
      + rewrite keys_set. case_decide; [assumption |]. apply elem_of_app. now left.
    - clear Hres. revert Hkey. generalize (@nil (string * EnhancedDependencyEdge)).
      induction cargoEdges as [| c cs IH]; intros m Hkey; simpl in *.
      + now apply elem_of_nil in Hkey.
      + apply elem_of_cons in Hkey as [-> | Hkey].
        * apply (fold_left_invariant (fun m => edgeKey (from c) (to c) ∈ JsMap.keys m)).
          -- intros m' c' Hm'. unfold addCargoEdge. rewrite keys_set.
             case_decide; [assumption |]. apply elem_of_app. now left.
          -- unfold addCargoEdge. rewrite keys_set.
             case_decide; [assumption |]. apply elem_of_app. right. left.
        * now apply IH. }
  destruct (JsMap.get key (enhancedEdgeMap cargoEdges earlier contracts))
    as [existing |] eqn:Hget; [| now apply get_None in Hget].
  exists existing. split; [reflexivity |].
  destruct (addImport_existing contracts _ imp key existing Hres Hget) as (Heq & Hlen & _).
  unfold buildEnhancedEdges, JsMap.values, enhancedEdgeMap in *.
  rewrite fold_left_app. simpl. rewrite Heq. split; [reflexivity |].
  rewrite !length_map. apply length_mutate.
Qed.

(** C3.  An import whose pair has no declared edge is said to leave one
    edge with source [import].  The first import of [alpha] from [beta]
    does; the second import of the same pair finds the edge that the first
    one synthesized, takes it for a declared edge and sets its source to
    [both], although no declared edge exists. *)
Theorem repeated_import_marked_both :
  buildEnhancedEdges [] [firstImport] [alpha; beta]
  = [importEdge alpha beta firstImport] ∧
  edge_source (importEdge alpha beta firstImport) = import ∧
  buildEnhancedEdges [] [firstImport; secondImport] [alpha; beta]
  = [confirmEdge secondImport (importEdge alpha beta firstImport)] ∧
  edge_source (confirmEdge secondImport (importEdge alpha beta firstImport)) = both ∧
  edge_imports (confirmEdge secondImport (importEdge alpha beta firstImport))
  = Some [firstImport; secondImport].
Proof. repeat split; vm_compute; reflexivity. Qed.

(** ** Graph assembler: adjacency *)

Lemma adjacencyOk_newNode c : adjacencyOk (newNode c).
Proof. repeat split; simpl; constructor. Qed.

Lemma adjacencyOk_pushDependency name n :
  name ∉ node_dependencies n -> adjacencyOk n -> adjacencyOk (pushDependency name n).
Proof.
  intros Hnew (Hd & Hds & Hc & Hcs). repeat split; simpl; try assumption.
  - apply NoDup_app. split; [assumption |]. split; [| apply NoDup_singleton].
    intros x Hx Hx'. apply list_elem_of_singleton in Hx'. congruence.
  - rewrite length_app. simpl. lia.
Qed.

Lemma adjacencyOk_pushDependent name n :
  name ∉ node_dependents n -> adjacencyOk n -> adjacencyOk (pushDependent name n).
Proof.
  intros Hnew (Hd & Hds & Hc & Hcs). repeat split; simpl; try assumption.
  - apply NoDup_app. split; [assumption |]. split; [| apply NoDup_singleton].
    intros x Hx Hx'. apply list_elem_of_singleton in Hx'. congruence.
  - rewrite length_app. simpl. lia.
Qed.

Lemma adjacencyOk_setDepth d n : adjacencyOk (setDepth d n) ↔ adjacencyOk n.
Proof. reflexivity. Qed.

Lemma initialNodes_adjacencyOk contracts :
  Forall (fun kn => adjacencyOk (snd kn)) (initialNodes contracts).
Proof.
  unfold initialNodes.
  apply (fold_left_invariant (Forall (fun kn => adjacencyOk (snd kn)))); [| constructor].
  intros m c Hm. apply Forall_set; [assumption | apply adjacencyOk_newNode].
Qed.

Lemma addAdjacency_adjacencyOk contracts m edge :
  Forall (fun kn => adjacencyOk (snd kn)) m ->
  Forall (fun kn => adjacencyOk (snd kn)) (addAdjacency contracts m edge).
Proof.
  intros Hm. unfold addAdjacency.
  destruct (findContractByPath contracts (edge_from edge)) as [fc |]; [| assumption].
  destruct (findContractByPath contracts (edge_to edge)) as [tc_ |]; [| assumption].
  destruct (JsMap.get (contractName fc) m) as [fromNode |] eqn:Hf; [| assumption].
  destruct (JsMap.get (contractName tc_) m) as [toNode |] eqn:Ht; [| assumption].
  set (nodes1 := if includes _ _ then m else _).
  assert (H1 : Forall (fun kn => adjacencyOk (snd kn)) nodes1).
  { subst nodes1. unfold includes. case_bool_decide as Hin; [assumption |].
    apply Forall_mutate; [assumption |]. intros v Hv Hok. simpl in *.
    rewrite Hf in Hv. injection Hv as <-. now apply adjacencyOk_pushDependency. }
  unfold includes. case_bool_decide as Hin; [assumption |].
  apply Forall_mutate; [assumption |]. intros v Hv Hok. simpl in *.
  apply adjacencyOk_pushDependent; [| assumption].
  assert (Hdeps : node_dependents v = node_dependents toNode).
  { subst nodes1. unfold includes in Hv. case_bool_decide; [congruence |].
    rewrite get_mutate in Hv. case_decide as Hk.
    - rewrite Ht in Hv. simpl in Hv. now injection Hv as <-.
    - congruence. }
  now rewrite Hdeps.
Qed.

Lemma adjacencyNodes_adjacencyOk contracts edges_ :
  Forall (fun kn => adjacencyOk (snd kn)) (adjacencyNodes contracts edges_).
Proof.
  unfold adjacencyNodes.
  apply (fold_left_invariant (Forall (fun kn => adjacencyOk (snd kn)))).
  - intros; now apply addAdjacency_adjacencyOk.
  - apply initialNodes_adjacencyOk.
Qed.

(** ** Graph assembler: what [calculateDepth] leaves unchanged *)

Lemma eraseDepth_mutate_setDepth k d m :
  eraseDepth (JsMap.mutate k (setDepth d) m) = eraseDepth m.
Proof.
  unfold eraseDepth. induction m as [| [k0 n0] m IH]; simpl; [reflexivity |].
  case_decide; simpl; [reflexivity | now rewrite IH].
Qed.

Lemma cons_pair_inv {A B : Type} (a a' : A) (b b' : B) l l' :
  (a, b) :: l = (a', b') :: l' -> a = a' ∧ b = b' ∧ l = l'.
Proof. now intros [= -> -> ->]. Qed.

Lemma eraseDepth_keys m m' : eraseDepth m = eraseDepth m' -> JsMap.keys m = JsMap.keys m'.
Proof.
  unfold eraseDepth, JsMap.keys. revert m'.
  induction m as [| [k n] m IH]; intros [| [k' n'] m']; simpl; try discriminate;
    [reflexivity |].
  intros Heq. apply cons_pair_inv in Heq as (-> & _ & H). f_equal. now apply IH.
Qed.

Lemma eraseDepth_get m m' k :
  eraseDepth m = eraseDepth m' ->
  setDepth 0 <$> JsMap.get k m = setDepth 0 <$> JsMap.get k m'.
Proof.
  unfold eraseDepth. revert m'.
  induction m as [| [k0 n] m IH]; intros [| [k' n'] m']; simpl; try discriminate;
    [reflexivity |].
  intros Heq. apply cons_pair_inv in Heq as (-> & Hn & H).
  case_decide; simpl; [congruence | now apply IH].
Qed.

Lemma eraseDepth_dependencies m m' k n :
  eraseDepth m = eraseDepth m' ->
  JsMap.get k m = Some n ->
  ∃ n', JsMap.get k m' = Some n' ∧ node_dependencies n' = node_dependencies n.
Proof.
  intros He Hn. pose proof (eraseDepth_get m m' k He) as Hg. rewrite Hn in Hg.
  destruct (JsMap.get k m') as [n' |]; [| discriminate].
  exists n'. split; [reflexivity |]. simpl in Hg. now injection Hg.
Qed.

Lemma eraseDepth_adjacencyOk m m' :
  eraseDepth m = eraseDepth m' ->
  Forall (fun kn => adjacencyOk (snd kn)) m ->
  Forall (fun kn => adjacencyOk (snd kn)) m'.
Proof.
  unfold eraseDepth. revert m'.
  induction m as [| [k n] m IH]; intros [| [k' n'] m']; simpl; try discriminate;
    [constructor |].
  intros Heq Hall. apply cons_pair_inv in Heq as (-> & Hn & H).
  apply Forall_cons in Hall as [Hn0 Hall].
  constructor; [| now apply IH]. simpl in *.
  change (adjacencyOk (setDepth 0 n')). rewrite <- Hn. exact Hn0.
Qed.

Lemma dependencies_in_depthNames m k n :
  JsMap.get k m = Some n -> ∀ d, d ∈ node_dependencies n -> d ∈ depthNames m.
Proof.
  intros Hn d Hd. unfold depthNames. apply elem_of_app. right.
  apply get_Some_elem_of in Hn.
  apply list_elem_of_In, in_concat. exists (node_dependencies n).
  split; [| now apply list_elem_of_In].
  apply in_map_iff. exists (k, n). split; [reflexivity | now apply list_elem_of_In].
Qed.

Lemma depthNames_eraseDepth m m' :
  eraseDepth m = eraseDepth m' -> depthNames m = depthNames m'.
Proof.
  intros He. unfold depthNames. rewrite (eraseDepth_keys _ _ He). f_equal. f_equal.
  revert m' He. unfold eraseDepth.
  induction m as [| [k n] m IH]; intros [| [k' n'] m']; simpl; try discriminate;
    [reflexivity |].
  intros Heq. apply cons_pair_inv in Heq as (_ & Hn & H).
  f_equal; [exact (f_equal node_dependencies Hn) | now apply IH].
Qed.

(** ** Graph assembler: [calculateDepth] terminates *)

Section Termination.
Variable nodes0 : list (string * DependencyNode).

Lemma reachable_visited_bound st :
  reachableFrom nodes0 st -> (length (ds_visited st) <= length (depthNames nodes0))%nat.
Proof.
  intros (_ & Hnd & Hsub). apply submseteq_length. now apply NoDup_submseteq.
Qed.

Lemma reachable_add x st :
  reachableFrom nodes0 st -> x ∈ depthNames nodes0 -> x ∉ ds_visited st ->
  reachableFrom nodes0 {| ds_nodes := ds_nodes st; ds_visited := JsSet.add x (ds_visited st) |} ∧
  length (JsSet.add x (ds_visited st)) = S (length (ds_visited st)).
Proof.
  intros (He & Hnd & Hsub) Hx Hnew. unfold JsSet.add, JsSet.has.
  rewrite bool_decide_eq_false_2 by assumption.
  split; [| rewrite length_app; simpl; lia].
  split; [assumption |]. simpl. split.
  - apply NoDup_app. split; [assumption |]. split; [| apply NoDup_singleton].
    intros y Hy Hy'. apply list_elem_of_singleton in Hy'. congruence.
  - intros y Hy. apply elem_of_app in Hy as [Hy | Hy]; [auto |].
    apply list_elem_of_singleton in Hy. congruence.
Qed.

Lemma mapState_total {A B : Type} (f : A -> DepthState -> option (B * DepthState))
    (I : DepthState -> Prop) (l : list A) :
  (∀ a st, a ∈ l -> I st -> ∃ r st', f a st = Some (r, st') ∧ I st') ->
  ∀ st, I st -> ∃ rs st', mapState f l st = Some (rs, st') ∧ I st'.
Proof.
  induction l as [| a l IH]; intros Hf st Hst; simpl.
  - eauto.
  - destruct (Hf a st) as (r & st1 & -> & H1); [left | assumption |].
    destruct IH with (st := st1) as (rs & st2 & -> & H2); [| assumption | eauto].
    intros a' st' Ha'. apply Hf. now right.
Qed.

Lemma calculateDepth_total fuel :
  ∀ x st,
    x ∈ depthNames nodes0 -> reachableFrom nodes0 st -> enoughFuel nodes0 fuel st ->
    ∃ r st', calculateDepth fuel x st = Some (r, st') ∧
             reachableFrom nodes0 st' ∧ enoughFuel nodes0 fuel st'.
Proof.
  induction fuel as [| fuel IH]; intros x st Hx Hst Hfuel.
  - exfalso. pose proof (reachable_visited_bound st Hst). unfold enoughFuel in Hfuel. lia.
  - simpl. unfold JsSet.has at 1. case_bool_decide as Hvis; [eauto |].
    destruct (reachable_add x st Hst Hx Hvis) as [Hst1 Hlen].
    set (st1 := {| ds_nodes := ds_nodes st;
                   ds_visited := JsSet.add x (ds_visited st) |}) in *.
    assert (Hfuel1 : enoughFuel nodes0 fuel st1).
    { unfold enoughFuel in *. subst st1. simpl. rewrite Hlen. lia. }
    assert (Hup : ∀ st', enoughFuel nodes0 fuel st' -> enoughFuel nodes0 (S fuel) st').
    { unfold enoughFuel. intros; lia. }
    destruct (JsMap.get x (ds_nodes st)) as [node |] eqn:Hnode; [| eauto 6].
    destruct (node_dependencies node) as [| dep deps] eqn:Hdeps.
    + eexists _, _. split; [reflexivity |]. split; [| apply Hup, Hfuel1].
      destruct Hst1 as (He & Hnd & Hsub). split; [| split; assumption].
      simpl. now rewrite eraseDepth_mutate_setDepth.
    + assert (Hin : ∀ d, d ∈ dep :: deps -> d ∈ depthNames nodes0).
      { intros d Hd. destruct Hst as (He & _).
        rewrite <- (depthNames_eraseDepth _ _ He).
        apply (dependencies_in_depthNames _ x node Hnode). now rewrite Hdeps. }
      destruct (IH dep st1) as (d & st2 & -> & Hst2 & Hfuel2);
        [apply Hin; left | assumption | assumption |].
      destruct (mapState_total (calculateDepth fuel)
                  (fun s => reachableFrom nodes0 s ∧ enoughFuel nodes0 fuel s) deps)
        with (st := st2) as (ds & st3 & -> & Hst3 & Hfuel3).
      * intros a s Ha [Hs Hf]. apply IH; [apply Hin; now right | assumption..].
      * now split.
      * eexists _, _. split; [reflexivity |]. split; [| apply Hup, Hfuel3].
        destruct Hst3 as (He & Hnd & Hsub). split; [| split; assumption].
        simpl. now rewrite eraseDepth_mutate_setDepth.
Qed.
End Termination.

Lemma mapState_mono {S A B : Type} (f g : A -> S -> option (B * S)) l :
  (∀ a s r, f a s = Some r -> g a s = Some r) ->
  ∀ s r, mapState f l s = Some r -> mapState g l s = Some r.
Proof.
  intros Hfg. induction l as [| a l IH]; intros s r; simpl; [auto |].
  destruct (f a s) as [[b s1] |] eqn:Hf; [| discriminate].
  rewrite (Hfg _ _ _ Hf).
  destruct (mapState f l s1) as [[bs s2] |] eqn:Hm; [| discriminate].
  now rewrite (IH _ _ Hm).
Qed.

(** More fuel does not change a result. *)
Lemma calculateDepth_fuel_mono fuel :
  ∀ fuel' x st r,
    (fuel <= fuel')%nat ->
    calculateDepth fuel x st = Some r -> calculateDepth fuel' x st = Some r.
Proof.
  induction fuel as [| fuel IH]; intros fuel' x st r Hle; [discriminate |].
  destruct fuel' as [| fuel']; [lia |]. simpl.
  destruct (JsSet.has x (ds_visited st)); [auto |].
  destruct (JsMap.get x (ds_nodes st)) as [node |]; [| auto].
  destruct (node_dependencies node) as [| dep deps]; [auto |].
  destruct (calculateDepth fuel dep _) as [[d st2] |] eqn:Hd; [| discriminate].
  rewrite (IH fuel' _ _ _ ltac:(lia) Hd).
  destruct (mapState (calculateDepth fuel) deps st2) as [[ds st3] |] eqn:Hm;
    [| discriminate].
  rewrite (mapState_mono (calculateDepth fuel) (calculateDepth fuel') deps
             ltac:(intros; eapply IH; [lia | eassumption]) _ _ Hm).
  auto.
Qed.

(** The loop of [calculateDepths] with the bound [depthFuel]. *)
Lemma calculateDepths_run (nodes_ : list (string * DependencyNode)) :
  ∃ depths st,
    mapState (calculateDepth (depthFuel nodes_)) (JsMap.keys nodes_)
             {| ds_nodes := nodes_; ds_visited := [] |} = Some (depths, st) ∧
    (∀ fuel, (depthFuel nodes_ <= fuel)%nat ->
             calculateDepths_fuel fuel nodes_ = Some (ds_nodes st)) ∧
    calculateDepths nodes_ = ds_nodes st ∧
    NoDup (ds_visited st) ∧
    eraseDepth (ds_nodes st) = eraseDepth nodes_.
Proof.
  destruct (mapState_total (calculateDepth (depthFuel nodes_))
              (fun s => reachableFrom nodes_ s ∧ enoughFuel nodes_ (depthFuel nodes_) s)
              (JsMap.keys nodes_))
    with (st := {| ds_nodes := nodes_; ds_visited := [] |})
    as (depths & st & Hrun & (He & Hnd & _) & _).
  - intros a s Ha [Hs Hf]. apply calculateDepth_total; try assumption.
    unfold depthNames. apply elem_of_app. now left.
  - split; [split; [reflexivity | split; [constructor |]] |].
    + intros x Hx. now apply elem_of_nil in Hx.
    + unfold enoughFuel, depthFuel. simpl. lia.
  - exists depths, st. split; [assumption |].
    assert (Hfuel : ∀ fuel, (depthFuel nodes_ <= fuel)%nat ->
                            calculateDepths_fuel fuel nodes_ = Some (ds_nodes st)).
    { intros fuel Hle. unfold calculateDepths_fuel.
      rewrite (mapState_mono (calculateDepth (depthFuel nodes_)) (calculateDepth fuel) _
                 ltac:(intros; eapply calculateDepth_fuel_mono; eassumption) _ _ Hrun).
      reflexivity. }
    split; [exact Hfuel |]. split; [| split; assumption].
    unfold calculateDepths. now rewrite Hfuel.
Qed.

Lemma calculateDepths_eraseDepth nodes_ :
  eraseDepth (calculateDepths nodes_) = eraseDepth nodes_.
Proof.
  destruct (calculateDepths_run nodes_) as (_ & st & _ & _ & -> & _ & He). exact He.
Qed.

(** C6.  [calculateDepths] terminates on every node map, cyclic or not:
    the nesting of [calculateDepth] stays below [depthFuel], so that the
    loop over the keys returns a node map, the same for every larger
    bound; the [visited] set ends without duplicates, each entry of a node
    having added its name to it; only depths differ from the input. *)
Theorem calculateDepths_terminates (nodes_ : list (string * DependencyNode)) :
  ∃ depths st,
    mapState (calculateDepth (depthFuel nodes_)) (JsMap.keys nodes_)
             {| ds_nodes := nodes_; ds_visited := [] |} = Some (depths, st) ∧
    (∀ fuel, (depthFuel nodes_ <= fuel)%nat ->
             calculateDepths_fuel fuel nodes_ = Some (ds_nodes st)) ∧
    calculateDepths nodes_ = ds_nodes st ∧
    NoDup (ds_visited st) ∧
    eraseDepth (ds_nodes st) = eraseDepth nodes_.
Proof. exact (calculateDepths_run nodes_). Qed.

(** ** Graph assembler: the frame of [calculateDepth] *)

Lemma depthFrame_refl st : depthFrame st st.
Proof. repeat split; auto. Qed.

Lemma depthFrame_trans st1 st2 st3 :
  depthFrame st1 st2 -> depthFrame st2 st3 -> depthFrame st1 st3.
Proof.
  intros (He1 & Hv1 & Hg1) (He2 & Hv2 & Hg2). split; [congruence |]. split; [auto |].
  intros v Hv. rewrite Hg2 by auto. auto.
Qed.

Lemma elem_of_JsSet_add x y s : y ∈ JsSet.add x s ↔ y ∈ s ∨ y = x.
Proof.
  unfold JsSet.add, JsSet.has. case_bool_decide as Hx.
  - split; [now left | intros [? | ->]; assumption].
  - rewrite elem_of_app, list_elem_of_singleton. reflexivity.
Qed.

Lemma mapState_frame {A : Type} (f : string -> DepthState -> option (A * DepthState)) l :
  (∀ a s r s', a ∈ l -> f a s = Some (r, s') -> depthFrame s s' ∧ a ∈ ds_visited s') ->
  ∀ st rs st',
    mapState f l st = Some (rs, st') ->
    depthFrame st st' ∧ (∀ a, a ∈ l -> a ∈ ds_visited st').
Proof.
  induction l as [| a l IH]; intros Hf st rs st'; simpl.
  - intros [= _ <-]. split; [apply depthFrame_refl |].
    intros a Ha. now apply elem_of_nil in Ha.
  - destruct (f a st) as [[b s1] |] eqn:Ha; [| discriminate].
    destruct (mapState f l s1) as [[bs s2] |] eqn:Hl; [| discriminate].
    intros [= _ <-].
    destruct (Hf a st b s1 ltac:(left) Ha) as [H1 Hin1].
    destruct (IH ltac:(intros; eapply Hf; [now right | eassumption]) _ _ _ Hl)
      as [H2 Hin2].
    split; [eapply depthFrame_trans; eassumption |].
    intros a' Ha'. apply elem_of_cons in Ha' as [-> | Ha']; [| auto].
    destruct H2 as (_ & Hv & _). auto.
Qed.

Lemma calculateDepth_frame fuel :
  ∀ x st r st',
    calculateDepth fuel x st = Some (r, st') ->
    depthFrame st st' ∧ x ∈ ds_visited st'.
Proof.
  induction fuel as [| fuel IH]; intros x st r st'; [discriminate |].
  simpl. unfold JsSet.has at 1. case_bool_decide as Hvis.
  { intros [= _ <-]. split; [apply depthFrame_refl | assumption]. }
  set (st1 := {| ds_nodes := ds_nodes st; ds_visited := JsSet.add x (ds_visited st) |}).
  assert (H01 : depthFrame st st1).
  { split; [reflexivity |]. split; [| reflexivity].
    intros v Hv. apply elem_of_JsSet_add. now left. }
  assert (Hx1 : x ∈ ds_visited st1) by (apply elem_of_JsSet_add; now right).
  assert (Hmut : ∀ d s, depthFrame st s -> x ∈ ds_visited s ->
            depthFrame st {| ds_nodes := JsMap.mutate x (setDepth d) (ds_nodes s);
                             ds_visited := ds_visited s |}
            ∧ x ∈ ds_visited s).
  { intros d s (He & Hv & Hg) Hxs. split; [| assumption]. split; [| split]; simpl.
    - now rewrite eraseDepth_mutate_setDepth.
    - assumption.
    - intros v Hin. rewrite get_mutate. case_decide; [congruence | auto]. }
  destruct (JsMap.get x (ds_nodes st)) as [node |] eqn:Hnode.
  2: { intros [= _ <-]. now split. }
  destruct (node_dependencies node) as [| dep deps] eqn:Hdeps.
  { intros [= _ <-]. now apply (Hmut 0 st1). }
  destruct (calculateDepth fuel dep st1) as [[d st2] |] eqn:Hd; [| discriminate].
  destruct (mapState (calculateDepth fuel) deps st2) as [[ds st3] |] eqn:Hm;
    [| discriminate].
  intros [= _ <-].
  destruct (IH _ _ _ _ Hd) as [H12 _].
  destruct (mapState_frame (calculateDepth fuel) deps
              ltac:(intros; eapply IH; eassumption) _ _ _ Hm) as [H23 _].
  pose proof (depthFrame_trans _ _ _ H01 (depthFrame_trans _ _ _ H12 H23)) as H03.
  apply (Hmut _ st3 H03).
  destruct H12 as (_ & Hv12 & _), H23 as (_ & Hv23 & _). auto.
Qed.

(** ** Graph assembler: depths on an acyclic node map *)

Lemma depthOf_get m m' v : JsMap.get v m' = JsMap.get v m -> depthOf m' v = depthOf m v.
Proof. unfold depthOf. now intros ->. Qed.

Lemma depthOf_mutate_same m x n d :
  JsMap.get x m = Some n -> depthOf (JsMap.mutate x (setDepth d) m) x = d.
Proof. intros Hn. unfold depthOf. now rewrite get_mutate, decide_True, Hn. Qed.

Lemma depthRecurrence_ext m m' n n' :
  node_dependencies n' = node_dependencies n ->
  (∀ d, d ∈ node_dependencies n -> depthOf m' d = depthOf m d) ->
  depthRecurrence m' n' = depthRecurrence m n.
Proof.
  unfold depthRecurrence. intros -> Hd.
  destruct (node_dependencies n) as [| d ds]; [reflexivity |].
  rewrite (Hd d) by left. f_equal. f_equal.
  apply map_ext_in. intros a Ha. apply Hd. right. now apply list_elem_of_In.
Qed.

Section DepthRecurrence.
Variable nodes0 : list (string * DependencyNode).
Hypothesis nodes0_acyclic : acyclic nodes0.

Lemma dependsOn_erased m x node d :
  eraseDepth m = eraseDepth nodes0 ->
  JsMap.get x m = Some node -> d ∈ node_dependencies node ->
  dependsOn nodes0 x d.
Proof.
  intros He Hnode Hd.
  destruct (eraseDepth_dependencies _ _ _ _ He Hnode) as (n' & Hn' & Hdeps).
  exists n'. split; [assumption | now rewrite Hdeps].
Qed.

Lemma mapState_settles fuel pending l :
  settles nodes0 fuel ->
  (∀ a s, a ∈ l -> s ∈ pending -> tc (dependsOn nodes0) s a) ->
  ∀ st rs st',
    mapState (calculateDepth fuel) l st = Some (rs, st') ->
    eraseDepth (ds_nodes st) = eraseDepth nodes0 ->
    settled pending st ->
    settled pending st' ∧ rs = map (depthOf (ds_nodes st')) l.
Proof.
  intros Hfuel. induction l as [| a l IH]; intros Hreach st rs st'; simpl.
  - intros [= <- <-]. auto.
  - destruct (calculateDepth fuel a st) as [[b s1] |] eqn:Ha; [| discriminate].
    destruct (mapState (calculateDepth fuel) l s1) as [[bs s2] |] eqn:Hl;
      [| discriminate].
    intros [= <- <-] He Hst.
    destruct (Hfuel a pending st b s1 Ha He Hst) as [Hs1 ->].
    { intros s Hs. apply Hreach; [left | assumption]. }
    destruct (calculateDepth_frame _ _ _ _ _ Ha) as [(He1 & _ & _) Hin1].
    destruct (IH ltac:(intros; apply Hreach; [now right | assumption]) _ _ _ Hl)
      as [Hs2 ->]; [congruence | assumption |].
    split; [assumption |]. f_equal.
    destruct (mapState_frame (calculateDepth fuel) l
                ltac:(intros; eapply calculateDepth_frame; eassumption) _ _ _ Hl)
      as [(_ & _ & Hg) _].
    symmetry. apply depthOf_get. auto.
Qed.

Lemma calculateDepth_settles fuel : settles nodes0 fuel.
Proof.
  induction fuel as [| fuel IH]; intros x pending st r st'; [discriminate |].
  simpl. unfold JsSet.has at 1. case_bool_decide as Hvis.
  { intros [= <- <-] _ Hst _. split; [assumption | reflexivity]. }
  set (st1 := {| ds_nodes := ds_nodes st; ds_visited := JsSet.add x (ds_visited st) |}).
  destruct (JsMap.get x (ds_nodes st)) as [node |] eqn:Hnode.
  2: { (* the name is not a key *)
    intros [= <- <-] He Hst Hreach. simpl.
    split; [| unfold depthOf; now rewrite Hnode].
    intros v n Hv Hpend Hn. simpl in *.
    apply elem_of_JsSet_add in Hv as [Hv | ->]; [| congruence].
    destruct (Hst v n Hv Hpend Hn) as [Hdeps Hdepth]. split; [| assumption].
    intros d Hd. destruct (Hdeps d Hd). split; [| assumption].
    apply elem_of_JsSet_add. now left. }
  destruct (node_dependencies node) as [| dep deps] eqn:Hdeps.
  { (* no dependencies *)
    intros [= <- <-] He Hst Hreach. simpl.
    split; [| symmetry; now apply depthOf_mutate_same with node].
    intros v n Hv Hpend Hn. simpl in *.
    rewrite get_mutate in Hn. case_decide as Hvx.
    - subst v. rewrite Hnode in Hn. injection Hn as <-.
      unfold depthRecurrence. simpl. rewrite Hdeps.
      split; [| reflexivity]. intros d Hd. now apply elem_of_nil in Hd.
    - apply elem_of_JsSet_add in Hv as [Hv | ->]; [| congruence].
      destruct (Hst v n Hv Hpend Hn) as [Hds Hdepth]. split.
      + intros d Hd. destruct (Hds d Hd). split; [| assumption].
        apply elem_of_JsSet_add. now left.
      + rewrite Hdepth. symmetry. apply depthRecurrence_ext; [reflexivity |].
        intros d Hd. apply depthOf_get. rewrite get_mutate.
        case_decide; [| reflexivity]. subst d. destruct (Hds x Hd). contradiction. }
  (* dependencies dep :: deps *)
  destruct (calculateDepth fuel dep st1) as [[d st2] |] eqn:Hd; [| discriminate].
  destruct (mapState (calculateDepth fuel) deps st2) as [[ds st3] |] eqn:Hm;
    [| discriminate].
  intros [= <- <-] He Hst Hreach.
  assert (Hedge : ∀ a, a ∈ dep :: deps -> dependsOn nodes0 x a).
  { intros a Ha. apply (dependsOn_erased _ _ node _ He Hnode). now rewrite Hdeps. }
  assert (Hreach' : ∀ a s, a ∈ dep :: deps -> s ∈ x :: pending ->
                           tc (dependsOn nodes0) s a).
  { intros a s Ha Hs. apply elem_of_cons in Hs as [-> | Hs].
    - apply tc_once. auto.
    - eapply tc_r; [apply Hreach, Hs | auto]. }
  assert (Hfresh : ∀ a, a ∈ dep :: deps -> a ≠ x ∧ a ∉ pending).
  { intros a Ha. split.
    - intros ->. apply (nodes0_acyclic x). apply tc_once. auto.
    - intros Hp. apply (nodes0_acyclic a). apply Hreach'; [assumption | now right]. }
  assert (Hst1 : settled (x :: pending) st1).
  { intros v n Hv Hpend Hn. simpl in *. apply not_elem_of_cons in Hpend as [Hvx Hpend].
    apply elem_of_JsSet_add in Hv as [Hv | ->]; [| congruence].
    destruct (Hst v n Hv Hpend Hn) as [Hds Hdepth]. split; [| assumption].
    intros a Ha. destruct (Hds a Ha) as [Hav Hap]. split.
    - apply elem_of_JsSet_add. now left.
    - apply not_elem_of_cons. split; [congruence | assumption]. }
  destruct (IH dep (x :: pending) st1 d st2 Hd He Hst1) as [Hst2 ->].
  { intros s Hs. apply Hreach'; [left | assumption]. }
  destruct (calculateDepth_frame _ _ _ _ _ Hd) as [H12 Hdep2].
  destruct (mapState_settles fuel (x :: pending) deps IH
              ltac:(intros; apply Hreach'; [now right | assumption]) _ _ _ Hm)
    as [Hst3 ->]; [destruct H12 as (-> & _); exact He | assumption |].
  destruct (mapState_frame (calculateDepth fuel) deps
              ltac:(intros; eapply calculateDepth_frame; eassumption) _ _ _ Hm)
    as [H23 Hdeps3].
  pose proof (depthFrame_trans _ _ _ H12 H23) as (He13 & Hv13 & Hg13).
  assert (Hx3 : JsMap.get x (ds_nodes st3) = Some node).
  { rewrite Hg13; [exact Hnode | apply elem_of_JsSet_add; now right]. }
  assert (Hvis3 : ∀ a, a ∈ dep :: deps -> a ∈ ds_visited st3).
  { intros a Ha. apply elem_of_cons in Ha as [-> | Ha]; [| auto].
    destruct H23 as (_ & Hv & _). auto. }
  assert (Hother : ∀ a, a ≠ x ->
            depthOf (JsMap.mutate x (setDepth (fold_left Z.max
                       (map (depthOf (ds_nodes st3)) deps) (depthOf (ds_nodes st2) dep) + 1))
                       (ds_nodes st3)) a
            = depthOf (ds_nodes st3) a).
  { intros a Ha. apply depthOf_get. rewrite get_mutate. now rewrite decide_False. }
  assert (Hdep23 : depthOf (ds_nodes st2) dep = depthOf (ds_nodes st3) dep).
  { symmetry. apply depthOf_get. destruct H23 as (_ & _ & Hg). auto. }
  simpl. split.
  2: { symmetry. now apply depthOf_mutate_same with node. }
  intros v n Hv Hpend Hn. simpl in *.
  rewrite get_mutate in Hn. case_decide as Hvx.
  - subst v. rewrite Hx3 in Hn. injection Hn as <-. split.
    + simpl. rewrite Hdeps. intros a Ha. split; [auto |]. now apply Hfresh.
    + unfold depthRecurrence. simpl. rewrite Hdeps.
      rewrite (Hother dep) by (apply Hfresh; left).
      rewrite (map_ext_in (depthOf (JsMap.mutate x _ (ds_nodes st3)))
                          (depthOf (ds_nodes st3))).
      * rewrite Hdep23. lia.
      * intros a Ha. apply Hother. apply Hfresh. right. now apply list_elem_of_In.
  - assert (Hpend' : v ∉ x :: pending)
      by (apply not_elem_of_cons; split; assumption).
    destruct (Hst3 v n Hv Hpend' Hn) as [Hds Hdepth]. split.
    + intros a Ha. destruct (Hds a Ha) as [Hav Hap].
      apply not_elem_of_cons in Hap as [_ Hap]. now split.
    + rewrite Hdepth. symmetry. apply depthRecurrence_ext; [reflexivity |].
      intros a Ha. apply Hother. destruct (Hds a Ha) as [_ Hap].
      apply not_elem_of_cons in Hap as [Hax _]. exact Hax.
Qed.
End DepthRecurrence.

(** On an acyclic node map, every node of the result of [calculateDepths]
    has depth [0] without dependencies and one more than the largest depth
    of its dependencies otherwise. *)
Lemma calculateDepths_recurrence nodes_ :
  acyclic nodes_ ->
  ∀ k n, JsMap.get k (calculateDepths nodes_) = Some n ->
         node_depth n = depthRecurrence (calculateDepths nodes_) n.
Proof.
  intros Hacyclic k n.
  destruct (calculateDepths_run nodes_) as (depths & st & Hrun & _ & -> & _ & He).
  intros Hn.
  destruct (mapState_settles nodes_ (depthFuel nodes_) [] (JsMap.keys nodes_)
              (calculateDepth_settles nodes_ Hacyclic _)
              ltac:(intros a s _ Hs; now apply elem_of_nil in Hs) _ _ _ Hrun)
    as [Hsettled _]; [reflexivity | |].
  { intros v n' Hv. now apply elem_of_nil in Hv. }
  destruct (mapState_frame (calculateDepth (depthFuel nodes_)) (JsMap.keys nodes_)
              ltac:(intros; eapply calculateDepth_frame; eassumption) _ _ _ Hrun)
    as [_ Hkeys].
  apply (Hsettled k n); [| apply not_elem_of_nil | assumption].
  apply Hkeys. rewrite <- (eraseDepth_keys _ _ He).
  destruct (decide (k ∈ JsMap.keys (ds_nodes st))) as [| Hk]; [assumption |].
  apply get_None in Hk. congruence.
Qed.

(** ** The built graph *)

Lemma buildDependencyGraph_Ok_graph P contracts opts now svc g svc' :
  buildDependencyGraph P contracts opts now svc = (Ok g, svc') ->
  ∃ resolution imports_,
    g = assembleGraph contracts resolution imports_.
Proof.
  unfold buildDependencyGraph.
  destruct (resolveDeploymentDependencies P contracts _) as [r | e]; [| discriminate].
  intros [= <- _]. eauto.
Qed.

Lemma rankedBy_acyclic rank nodes_ : rankedBy rank nodes_ = true -> acyclic nodes_.
Proof.
  intros Hranked.
  assert (Hstep : ∀ a b, dependsOn nodes_ a b -> (rank b < rank a)%nat).
  { intros a b (n & Hn & Hb). apply get_Some_elem_of, list_elem_of_In in Hn.
    unfold rankedBy in Hranked. rewrite forallb_forall in Hranked.
    specialize (Hranked _ Hn). simpl in Hranked. rewrite forallb_forall in Hranked.
    apply list_elem_of_In in Hb. specialize (Hranked _ Hb).
    now apply Nat.ltb_lt in Hranked. }
  assert (Htc : ∀ a b, tc (dependsOn nodes_) a b -> (rank b < rank a)%nat).
  { induction 1 as [a b Hab | a b c Hab _ IH]; [auto |].
    specialize (Hstep _ _ Hab). lia. }
  intros a Ha. specialize (Htc _ _ Ha). lia.
Qed.

Lemma addAdjacency_keys contracts m edge :
  JsMap.keys (addAdjacency contracts m edge) = JsMap.keys m.
Proof.
  unfold addAdjacency.
  destruct (findContractByPath contracts (edge_from edge)); [| reflexivity].
  destruct (findContractByPath contracts (edge_to edge)); [| reflexivity].
  destruct (JsMap.get _ m); [| reflexivity].
  destruct (JsMap.get _ m); [| reflexivity].
  repeat (destruct (includes _ _)); rewrite ?keys_mutate; reflexivity.
Qed.

(** The node map of a built graph has one entry per key. *)
Lemma buildNodes_keys_NoDup contracts edges_ :
  NoDup (JsMap.keys (buildNodes contracts edges_)).
Proof.
  unfold buildNodes.
  rewrite (eraseDepth_keys _ _ (calculateDepths_eraseDepth _)).
  unfold adjacencyNodes.
  apply (fold_left_invariant (fun m => NoDup (JsMap.keys m))).
  - intros m e Hm. now rewrite addAdjacency_keys.
  - unfold initialNodes.
    apply (NoDup_keys_fold_set contractName newNode). constructor.
Qed.

(** C5.  Depth recurrence on acyclic input.  In a graph returned by
    [buildDependencyGraph] whose nodes do not reach themselves along their
    dependencies, every node has depth [0] when its dependencies are empty
    and one more than the largest depth among its dependencies otherwise;
    for the chain where a depends on b and b on c the depths are 2, 1
    and 0. *)
Theorem depth_recurrence_acyclic :
  (∀ P contracts opts now svc g svc',
      buildDependencyGraph P contracts opts now svc = (Ok g, svc') ->
      acyclic (nodes g) ->
      ∀ k n, (k, n) ∈ nodes g ->
             node_depth n = depthRecurrence (nodes g) n) ∧
  (∃ svc',
      buildDependencyGraph (fixedResolver (Ok chainResolution)) chainContracts
        withoutImports 1000 newService = (Ok chainGraph, svc') ∧
      cycles chainGraph = [] ∧
      depthOf (nodes chainGraph) "contract-a" = 2 ∧
      depthOf (nodes chainGraph) "contract-b" = 1 ∧
      depthOf (nodes chainGraph) "contract-c" = 0).
Proof.
  split.
  - intros P contracts opts now svc g svc' Hbuild Hacyclic k n Hn.
    destruct (buildDependencyGraph_Ok_graph _ _ _ _ _ _ _ Hbuild) as (r & i & ->).
    simpl in *. apply elem_of_get in Hn; [| apply buildNodes_keys_NoDup].
    unfold buildNodes in *.
    apply calculateDepths_recurrence with k; [| assumption].
    intros a Ha. apply (Hacyclic a).
    eapply tc_congruence with (f := id); [| exact Ha].
    intros x y (m & Hm & Hy). unfold id.
    destruct (eraseDepth_dependencies _ (calculateDepths (adjacencyNodes contracts
                 (buildEnhancedEdges (res_edges r) i contracts))) x m
                ltac:(symmetry; apply calculateDepths_eraseDepth) Hm)
      as (m' & Hm' & Hdeps).
    exists m'. split; [assumption | now rewrite Hdeps].
  - eexists. split; [reflexivity |]. repeat split.
Qed.

Lemma depth_recurrence_acyclic_witness :
  acyclic (nodes chainGraph) ∧
  (∀ k n, (k, n) ∈ nodes chainGraph ->
          node_depth n = depthRecurrence (nodes chainGraph) n).
Proof.
  assert (Hacyclic : acyclic (nodes chainGraph)).
  { apply (rankedBy_acyclic (fun x => Z.to_nat (depthOf (nodes chainGraph) x))).
    vm_compute. reflexivity. }
  split; [exact Hacyclic |].
  exact (proj1 depth_recurrence_acyclic (fixedResolver (Ok chainResolution))
           chainContracts withoutImports 1000 newService chainGraph
           {| cachedGraph := Some chainGraph; lastScanTime := 1000 |} eq_refl Hacyclic).
Defined.

(** On the two contracts that depend on each other the computation
    returns as well; the depths it leaves are those of the order of
    traversal and obey no recurrence. *)
Example depths_on_cycle :
  depthOf (nodes (assembleGraph cycleContracts cycleResolution [])) "contract-a" = 2 ∧
  depthOf (nodes (assembleGraph cycleContracts cycleResolution [])) "contract-b" = 1.
Proof. split; vm_compute; reflexivity. Qed.

(** C9.  Edge and adjacency uniqueness.  In a graph returned by
    [buildDependencyGraph] no two edges have the same ordered pair
    [(from, to)]; every import that names two workspace contracts is among
    the supporting imports of the one edge under the key of their pair;
    the dependencies and the dependents of a node have no duplicates, and
    [dependencyCount] and [dependentCount] are their lengths. *)
Theorem edge_and_adjacency_uniqueness (P : Platform)
    (contracts : list ContractMetadata) (opts : DependencyDetectionOptions)
    (now : Z) (svc svc' : DetectionService) (g : DependencyGraph) :
  buildDependencyGraph P contracts opts now svc = (Ok g, svc') ->
  NoDup (map edgePair (edges g)) ∧
  (∀ imp key,
      imp ∈ imports g -> resolvesTo contracts imp key ->
      ∃ e, e ∈ edges g ∧ edgeKey (edge_from e) (edge_to e) = key ∧
           imp ∈ default [] (edge_imports e)) ∧
  (∀ k n,
      (k, n) ∈ nodes g ->
      NoDup (node_dependencies n) ∧ NoDup (node_dependents n) ∧
      node_dependencyCount n = Z.of_nat (length (node_dependencies n)) ∧
      node_dependentCount n = Z.of_nat (length (node_dependents n))).
Proof.
  intros Hbuild.
  destruct (buildDependencyGraph_Ok_graph _ _ _ _ _ _ _ Hbuild) as (r & i & ->).
  simpl. split; [apply buildEnhancedEdges_one_edge_per_pair |]. split.
  - intros imp key Himp Hres.
    destruct (enhancedEdgeMap_records (res_edges r) i contracts imp key Himp Hres)
      as (e & He & Hin).
    exists e. apply get_Some_elem_of in He.
    pose proof (enhancedEdgeMap_keyed (res_edges r) i contracts) as Hkeyed.
    rewrite Forall_forall in Hkeyed. specialize (Hkeyed _ He).
    unfold keyedByPair in Hkeyed. simpl in Hkeyed.
    split; [| split; [now symmetry | assumption]].
    unfold buildEnhancedEdges, JsMap.values.
    exact (list_elem_of_fmap_2 snd _ (key, e) He).
  - intros k n Hn. unfold buildNodes in Hn.
    pose proof (eraseDepth_adjacencyOk _ _
                  (eq_sym (calculateDepths_eraseDepth
                             (adjacencyNodes contracts
                                (buildEnhancedEdges (res_edges r) i contracts))))
                  (adjacencyNodes_adjacencyOk _ _)) as Hall.
    rewrite Forall_forall in Hall. exact (Hall _ Hn).
Qed.

Lemma edge_and_adjacency_uniqueness_witness :
  NoDup (map edgePair (edges chainGraph)) ∧
  (∀ imp key,
      imp ∈ imports chainGraph -> resolvesTo chainContracts imp key ->
      ∃ e, e ∈ edges chainGraph ∧ edgeKey (edge_from e) (edge_to e) = key ∧
           imp ∈ default [] (edge_imports e)) ∧
  (∀ k n,
      (k, n) ∈ nodes chainGraph ->
      NoDup (node_dependencies n) ∧ NoDup (node_dependents n) ∧
      node_dependencyCount n = Z.of_nat (length (node_dependencies n)) ∧
      node_dependentCount n = Z.of_nat (length (node_dependents n))).
Proof.
  exact (edge_and_adjacency_uniqueness (fixedResolver (Ok chainResolution))
           chainContracts withoutImports 1000 newService
           {| cachedGraph := Some chainGraph; lastScanTime := 1000 |} chainGraph eq_refl).
Defined.

(** ** Import scanner *)

Example sample_scan :
  findSourceFiles sampleFs "/ws/alpha" [".rs"] 3 0
  = ["/ws/alpha/src/secret.rs"; "/ws/alpha/src/lib.rs";
     "/ws/alpha/src/util/helpers.rs"] ∧
  detectImportDependencies sampleFs [alpha] noOptions
  = [sampleImport "/ws/alpha/src/lib.rs" use "beta" 1 "use beta::Client;";
     sampleImport "/ws/alpha/src/lib.rs" extern_crate "gamma" 2 "extern crate gamma;";
     sampleImport "/ws/alpha/src/lib.rs" mod_ "tests" 4 "mod tests;";
     sampleImport "/ws/alpha/src/util/helpers.rs" use "soroban_sdk" 1
                  "use soroban_sdk::Env;"].
Proof. split; vm_compute; reflexivity. Qed.

Lemma findSourceFiles_unfold P dir extensions maxDepth_ currentDepth :
  findSourceFiles P dir extensions maxDepth_ currentDepth
  = if currentDepth >? maxDepth_ then []
    else match readdirSync P dir with
         | Throw _ => []
         | Ok entries =>
             flat_map
               (entryFiles P
                  (fun d => findSourceFiles P d extensions maxDepth_ (currentDepth + 1))
                  dir extensions)
               entries
         end.
Proof.
  unfold findSourceFiles. destruct (Z.gtb_spec currentDepth maxDepth_) as [Hgt | Hle].
  - replace (Z.to_nat (maxDepth_ - currentDepth + 1)) with O by lia. reflexivity.
  - replace (Z.to_nat (maxDepth_ - currentDepth + 1))
      with (S (Z.to_nat (maxDepth_ - (currentDepth + 1) + 1))) by lia.
    reflexivity.
Qed.

Lemma findSourceFiles_from_found P extensions remaining :
  ∀ dir f,
    f ∈ findSourceFiles_from P remaining dir extensions
    ↔ foundFile P extensions remaining dir f.
Proof.
  induction remaining as [| r IH]; intros dir f; simpl.
  - split; [intros H; now apply elem_of_nil in H | inversion 1].
  - destruct (readdirSync P dir) as [entries | e] eqn:Hdir.
    2: { split; [intros H; now apply elem_of_nil in H |].
         inversion 1; congruence. }
    rewrite list_elem_of_In, in_flat_map. split.
    + intros (entry & Hentry & Hf). apply list_elem_of_In in Hentry, Hf.
      unfold entryFiles in Hf. destruct (dirent_kind entry) eqn:Hkind.
      * unfold includes in Hf. case_bool_decide as Hext; [| now apply elem_of_nil in Hf].
        apply list_elem_of_singleton in Hf as ->.
        now apply found_here with entries.
      * unfold includes in Hf. case_bool_decide as Hskip; [now apply elem_of_nil in Hf |].
        apply found_below with entries entry; try assumption. now apply IH.
      * now apply elem_of_nil in Hf.
    + inversion 1 as [r' d es entry Hes Hentry Hkind Hext
                     | r' d es entry f' Hes Hentry Hkind Hskip Hsub]; subst;
        rewrite Hdir in Hes; injection Hes as <-;
        exists entry; (split; [now apply list_elem_of_In |]);
        apply list_elem_of_In; unfold entryFiles, includes; rewrite Hkind.
      * rewrite bool_decide_eq_true_2 by assumption. left.
      * rewrite bool_decide_eq_false_2 by assumption. now apply IH.
Qed.

Lemma parseLine_sourceFile f c i l imp :
  parseLine f c i l = Some imp -> sourceFile imp = f.
Proof.
  unfold parseLine.
  destruct (match_use _); [now intros [= <-] |].
  destruct (match_extern_crate _); [now intros [= <-] |].
  destruct (match_mod _); [now intros [= <-] | discriminate].
Qed.

Lemma parseLines_sourceFile f c lines :
  ∀ i, Forall (fun imp => sourceFile imp = f) (parseLines f c i lines).
Proof.
  induction lines as [| l lines IH]; intros i; simpl; [constructor |].
  destruct (parseLine f c (i + 1) l) as [imp |] eqn:Hl; [| apply IH].
  constructor; [now apply parseLine_sourceFile in Hl | apply IH].
Qed.

Lemma parseImportsFromFile_sourceFile P f c t :
  Forall (fun imp => sourceFile imp = f) (parseImportsFromFile P f c t).
Proof.
  unfold parseImportsFromFile. destruct (readFileSync P f); [| constructor].
  apply parseLines_sourceFile.
Qed.

Lemma findSourceFiles_from_withUnreadable P bad extensions remaining :
  ∀ dir,
    findSourceFiles_from (withUnreadable P bad) remaining dir extensions
    = findSourceFiles_from P remaining dir extensions.
Proof. reflexivity. Qed.

Lemma filter_flat_map {A B : Type} (p : B -> bool) (f : A -> list B) l :
  List.filter p (flat_map f l) = flat_map (fun a => List.filter p (f a)) l.
Proof.
  induction l as [| a l IH]; simpl; [reflexivity |].
  now rewrite List.filter_app, IH.
Qed.

Lemma filter_all {A : Type} (p : A -> bool) l (b : bool) :
  Forall (fun a => p a = b) l -> List.filter p l = if b then l else [].
Proof.
  induction 1 as [| a l Ha _ IH]; simpl; [now destruct b |].
  rewrite Ha, IH. now destruct b.
Qed.

Lemma parseImportsFromFile_withUnreadable P bad f c t :
  parseImportsFromFile (withUnreadable P bad) f c t
  = List.filter (fun imp => negb (bad (sourceFile imp))) (parseImportsFromFile P f c t).
Proof.
  rewrite (filter_all _ _ (negb (bad f))).
  - unfold parseImportsFromFile at 1. simpl. destruct (bad f); reflexivity.
  - eapply Forall_impl; [apply parseImportsFromFile_sourceFile |].
    intros imp Himp. simpl in Himp. now rewrite Himp.
Qed.

Lemma detectImportDependencies_withUnreadable P bad contracts opts :
  detectImportDependencies (withUnreadable P bad) contracts opts
  = List.filter (fun imp => negb (bad (sourceFile imp)))
                (detectImportDependencies P contracts opts).
Proof.
  unfold detectImportDependencies. rewrite filter_flat_map.
  apply flat_map_ext. intros c. unfold contractImports, findSourceFiles.
  rewrite findSourceFiles_from_withUnreadable, filter_flat_map.
  apply flat_map_ext. intros f. apply parseImportsFromFile_withUnreadable.
Qed.

Lemma elem_of_detectImportDependencies P contracts opts imp :
  imp ∈ detectImportDependencies P contracts opts
  ↔ ∃ c f content,
      c ∈ contracts ∧
      foundFile P (default [".rs"] (sourceExtensions opts))
                (Z.to_nat (default 3 (maxSourceDepth opts) + 1)) (contractDir c) f ∧
      readFileSync P f = Ok content ∧
      imp ∈ parseLines f (contractName c) 0 (split_lines content).
Proof.
  unfold detectImportDependencies, contractImports, findSourceFiles.
  rewrite list_elem_of_In, in_flat_map. split.
  - intros (c & Hc & Himp). apply in_flat_map in Himp as (f & Hf & Himp).
    unfold parseImportsFromFile in Himp.
    destruct (readFileSync P f) as [content |] eqn:Hread; [| contradiction].
    exists c, f, content. rewrite Z.sub_0_r in Hf.
    split; [now apply list_elem_of_In |].
    split; [now apply findSourceFiles_from_found, list_elem_of_In |].
    split; [exact Hread | now apply list_elem_of_In].
  - intros (c & f & content & Hc & Hf & Hread & Himp).
    exists c. split; [now apply list_elem_of_In |].
    apply in_flat_map. exists f. rewrite Z.sub_0_r. split.
    + now apply list_elem_of_In, findSourceFiles_from_found.
    + unfold parseImportsFromFile. rewrite Hread. now apply list_elem_of_In.
Qed.

(** C8.  Fault isolation in the import scanner.
    [detectImportDependencies] returns a list on every file system.  Its
    records are those of the files that a chain of listed directories
    reaches and that can be read: a directory whose listing fails yields
    no file, a file whose read fails yields no record, and neither takes
    anything away from the other files.  Making more files unreadable
    removes the records of those files and leaves the others, in their
    order. *)
Theorem import_scanner_fault_isolation (P : Platform)
    (contracts : list ContractMetadata) (opts : DependencyDetectionOptions) :
  (∀ imp,
      imp ∈ detectImportDependencies P contracts opts
      ↔ ∃ c f content,
          c ∈ contracts ∧
          foundFile P (default [".rs"] (sourceExtensions opts))
                    (Z.to_nat (default 3 (maxSourceDepth opts) + 1)) (contractDir c) f ∧
          readFileSync P f = Ok content ∧
          imp ∈ parseLines f (contractName c) 0 (split_lines content)) ∧
  (∀ bad,
      detectImportDependencies (withUnreadable P bad) contracts opts
      = List.filter (fun imp => negb (bad (sourceFile imp)))
                    (detectImportDependencies P contracts opts)) ∧
  (∀ dir extensions maxDepth_ currentDepth e,
      readdirSync P dir = Throw e ->
      findSourceFiles P dir extensions maxDepth_ currentDepth = []) ∧
  (∀ dir extensions maxDepth_ currentDepth before sub after e,
      currentDepth <= maxDepth_ ->
      readdirSync P dir = Ok (before ++ sub :: after)%list ->
      dirent_kind sub = DirentDirectory ->
      readdirSync P (path_join P dir (dirent_name sub)) = Throw e ->
      findSourceFiles P dir extensions maxDepth_ currentDepth
      = flat_map (entryFiles P
                    (fun d => findSourceFiles P d extensions maxDepth_ (currentDepth + 1))
                    dir extensions)
                 (before ++ after)%list) ∧
  (∀ f c t e,
      readFileSync P f = Throw e -> parseImportsFromFile P f c t = []).
Proof.
  split; [intros imp; apply elem_of_detectImportDependencies |].
  split; [intros bad; apply detectImportDependencies_withUnreadable |].
  split; [| split].
  - intros dir extensions maxDepth_ currentDepth e Hdir.
    rewrite findSourceFiles_unfold, Hdir. now destruct (_ >? _).
  - intros dir extensions maxDepth_ currentDepth before sub after e Hle Hdir Hkind Hsub.
    rewrite findSourceFiles_unfold, Hdir.
    destruct (Z.gtb_spec currentDepth maxDepth_); [lia |].
    rewrite !flat_map_app. simpl. f_equal.
    replace (entryFiles P _ dir extensions sub) with (@nil string); [reflexivity |].
    unfold entryFiles. rewrite Hkind. destruct (includes _ _); [reflexivity |].
    rewrite findSourceFiles_unfold, Hsub. now destruct (_ >? _).
  - intros f c t e Hread. unfold parseImportsFromFile. now rewrite Hread.
Qed.

Lemma import_scanner_fault_isolation_witness :
  findSourceFiles sampleFs "/ws/alpha/src" [".rs"] 3 1
  = flat_map (entryFiles sampleFs
                (fun d => findSourceFiles sampleFs d [".rs"] 3 (1 + 1))
                "/ws/alpha/src" [".rs"])
             ([file "secret.rs"]
              ++ [file "lib.rs"; directory "util"; file "notes.txt"])%list ∧
  parseImportsFromFile sampleFs "/ws/alpha/src/secret.rs" "alpha" "/ws/alpha/Cargo.toml"
  = [].
Proof.
  pose proof (import_scanner_fault_isolation sampleFs [alpha] noOptions)
    as (_ & _ & _ & Hdir & Hfile).
  split.
  - apply (Hdir "/ws/alpha/src" [".rs"] 3 1 [file "secret.rs"] (directory "locked")
             [file "lib.rs"; directory "util"; file "notes.txt"] "EACCES");
      [lia | reflexivity | reflexivity | reflexivity].
  - apply (Hfile _ _ _ "EACCES"). reflexivity.
Defined.

(** ** Graph assembler: adjacency and edges *)

Lemma dependsOn_mutate_same m k f a b :
  (∀ n, node_dependencies (f n) = node_dependencies n) ->
  dependsOn (JsMap.mutate k f m) a b ↔ dependsOn m a b.
Proof.
  intros Hf. unfold dependsOn. rewrite get_mutate. case_decide as Hk; [| reflexivity].
  split.
  - intros (n & Hn & Hb). destruct (JsMap.get a m) as [n0 |]; [| discriminate].
    injection Hn as <-. exists n0. rewrite Hf in Hb. auto.
  - intros (n & Hn & Hb). rewrite Hn. exists (f n). rewrite Hf. auto.
Qed.

Lemma dependentOf_mutate_same m k f b a :
  (∀ n, node_dependents (f n) = node_dependents n) ->
  dependentOf (JsMap.mutate k f m) b a ↔ dependentOf m b a.
Proof.
  intros Hf. unfold dependentOf. rewrite get_mutate. case_decide as Hk; [| reflexivity].
  split.
  - intros (n & Hn & Hb). destruct (JsMap.get b m) as [n0 |]; [| discriminate].
    injection Hn as <-. exists n0. rewrite Hf in Hb. auto.
  - intros (n & Hn & Hb). rewrite Hn. exists (f n). rewrite Hf. auto.
Qed.

Lemma dependsOn_pushDependency m k t n0 a b :
  JsMap.get k m = Some n0 ->
  dependsOn (JsMap.mutate k (pushDependency t) m) a b
  ↔ dependsOn m a b ∨ (a = k ∧ b = t).
Proof.
  intros Hk. unfold dependsOn. rewrite get_mutate. case_decide as Hak.
  - subst a. rewrite Hk. simpl. split.
    + intros (n & [= <-] & Hb). simpl in Hb. apply elem_of_app in Hb as [Hb | Hb].
      * left. eauto.
      * right. apply list_elem_of_singleton in Hb. auto.
    + intros [(n & [= <-] & Hb) | [_ ->]]; eexists; (split; [reflexivity |]); simpl;
        apply elem_of_app; [now left | right; left].
  - split; [now left | intros [H | [? _]]; [exact H | congruence]].
Qed.

Lemma dependentOf_pushDependent m k t n0 b a :
  JsMap.get k m = Some n0 ->
  dependentOf (JsMap.mutate k (pushDependent t) m) b a
  ↔ dependentOf m b a ∨ (b = k ∧ a = t).
Proof.
  intros Hk. unfold dependentOf. rewrite get_mutate. case_decide as Hak.
  - subst b. rewrite Hk. simpl. split.
    + intros (n & [= <-] & Hb). simpl in Hb. apply elem_of_app in Hb as [Hb | Hb].
      * left. eauto.
      * right. apply list_elem_of_singleton in Hb. auto.
    + intros [(n & [= <-] & Hb) | [_ ->]]; eexists; (split; [reflexivity |]); simpl;
        apply elem_of_app; [now left | right; left].
  - split; [now left | intros [H | [? _]]; [exact H | congruence]].
Qed.

Lemma namedByKey_get m k n :
  Forall namedByKey m -> JsMap.get k m = Some n -> node_name n = k.
Proof.
  intros Hall Hn. apply get_Some_elem_of in Hn.
  rewrite Forall_forall in Hall. exact (Hall _ Hn).
Qed.

Lemma addAdjacency_namedByKey contracts m edge :
  Forall namedByKey m -> Forall namedByKey (addAdjacency contracts m edge).
Proof.
  intros Hm. unfold addAdjacency.
  destruct (findContractByPath contracts (edge_from edge)); [| assumption].
  destruct (findContractByPath contracts (edge_to edge)); [| assumption].
  destruct (JsMap.get _ m); [| assumption].
  destruct (JsMap.get _ m); [| assumption].
  set (nodes1 := if includes _ _ then m else _).
  assert (H1 : Forall namedByKey nodes1).
  { subst nodes1. unfold includes. case_bool_decide; [assumption |].
    apply Forall_mutate; [assumption |]. intros v _ Hv. exact Hv. }
  unfold includes. case_bool_decide; [assumption |].
  apply Forall_mutate; [assumption |]. intros v _ Hv. exact Hv.
Qed.

Lemma initialNodes_namedByKey contracts : Forall namedByKey (initialNodes contracts).
Proof.
  unfold initialNodes. apply (fold_left_invariant (Forall namedByKey)); [| constructor].
  intros m c Hm. apply Forall_set; [assumption | reflexivity].
Qed.

Lemma adjacencyNodes_namedByKey contracts edges_ :
  Forall namedByKey (adjacencyNodes contracts edges_).
Proof.
  unfold adjacencyNodes. apply (fold_left_invariant (Forall namedByKey)).
  - intros; now apply addAdjacency_namedByKey.
  - apply initialNodes_namedByKey.
Qed.

Lemma findContractByPath_elem_of contracts p c :
  findContractByPath contracts p = Some c -> c ∈ contracts.
Proof.
  unfold findContractByPath. intros H. apply find_some in H as [H _].
  now apply list_elem_of_In.
Qed.

Lemma initialNodes_keys contracts :
  JsMap.keys (initialNodes contracts) = workspaceContractsOf contracts.
Proof.
  unfold initialNodes, workspaceContractsOf.
  change (@nil string) with (JsMap.keys (@nil (string * DependencyNode))) at 1.
  generalize (@nil (string * DependencyNode)).
  induction contracts as [| c cs IH]; intros m; simpl; [reflexivity |].
  rewrite IH. f_equal. rewrite keys_set. unfold JsSet.add, JsSet.has.
  case_decide as Hk.
  - now rewrite bool_decide_eq_true_2.
  - now rewrite bool_decide_eq_false_2.
Qed.

Lemma elem_of_workspaceContractsOf contracts x :
  x ∈ workspaceContractsOf contracts ↔ ∃ c, c ∈ contracts ∧ contractName c = x.
Proof.
  unfold workspaceContractsOf.
  assert (H : ∀ s, x ∈ fold_left (fun s c => JsSet.add (contractName c) s) contracts s
                   ↔ x ∈ s ∨ ∃ c, c ∈ contracts ∧ contractName c = x).
  { induction contracts as [| c cs IH]; intros s; simpl.
    - split; [now left | intros [H | (c & Hc & _)]; [exact H | now apply elem_of_nil in Hc]].
    - rewrite IH, elem_of_JsSet_add. split.
      + intros [[H | ->] | (c' & Hc' & Hx)]; [now left | right | right].
        * exists c. split; [left | reflexivity].
        * exists c'. split; [now right | assumption].
      + intros [H | (c' & Hc' & Hx)]; [now left; left |].
        apply elem_of_cons in Hc' as [-> | Hc']; [left; now right | right; eauto]. }
  rewrite H. split; [intros [Hx | Hx]; [now apply elem_of_nil in Hx | exact Hx] | now right].
Qed.

Lemma adjacencyNodes_keys contracts edges_ :
  JsMap.keys (adjacencyNodes contracts edges_) = workspaceContractsOf contracts.
Proof.
  unfold adjacencyNodes. rewrite <- initialNodes_keys.
  generalize (initialNodes contracts).
  induction edges_ as [| e es IH]; intros m; simpl; [reflexivity |].
  now rewrite IH, addAdjacency_keys.
Qed.

Lemma get_is_Some_keys {V : Type} k (m : list (string * V)) :
  k ∈ JsMap.keys m -> ∃ v, JsMap.get k m = Some v.
Proof.
  intros Hk. destruct (JsMap.get k m) as [v |] eqn:Hg; [eauto |].
  now apply get_None in Hg.
Qed.

(** One step of the loop of [buildNodes], on the two relations. *)
Lemma addAdjacency_dependsOn contracts m edge a b :
  Forall namedByKey m ->
  (∀ c, c ∈ contracts -> contractName c ∈ JsMap.keys m) ->
  dependsOn (addAdjacency contracts m edge) a b
  ↔ dependsOn m a b ∨ edgeLinks contracts edge a b.
Proof.
  intros Hnamed Hkeys. unfold addAdjacency, edgeLinks.
  destruct (findContractByPath contracts (edge_from edge)) as [fc |] eqn:Hfc.
  2: { split; [now left | intros [H | (f & t & [=] & _)]; exact H]. }
  destruct (findContractByPath contracts (edge_to edge)) as [tc_ |] eqn:Htc.
  2: { split; [now left | intros [H | (f & t & _ & [=] & _)]; exact H]. }
  destruct (get_is_Some_keys _ m (Hkeys _ (findContractByPath_elem_of _ _ _ Hfc)))
    as [fromNode Hf].
  destruct (get_is_Some_keys _ m (Hkeys _ (findContractByPath_elem_of _ _ _ Htc)))
    as [toNode Ht].
  rewrite Hf, Ht.
  rewrite (namedByKey_get _ _ _ Hnamed Ht), (namedByKey_get _ _ _ Hnamed Hf).
  assert (Hlink : (∃ f t, Some fc = Some f ∧ Some tc_ = Some t ∧
                          a = contractName f ∧ b = contractName t)
                  ↔ a = contractName fc ∧ b = contractName tc_).
  { split; [intros (f & t & [= <-] & [= <-] & H); exact H | intros H; eauto 6]. }
  rewrite Hlink. clear Hlink.
  set (nodes1 := if includes _ _ then m else _).
  assert (H1 : dependsOn nodes1 a b
               ↔ dependsOn m a b ∨ (a = contractName fc ∧ b = contractName tc_)).
  { subst nodes1. unfold includes. case_bool_decide as Hin.
    - split; [now left | intros [H | [-> ->]]; [exact H |]]. exists fromNode. auto.
    - now apply dependsOn_pushDependency with fromNode. }
  unfold includes. case_bool_decide; [exact H1 |].
  rewrite dependsOn_mutate_same by reflexivity. exact H1.
Qed.

Lemma addAdjacency_dependentOf contracts m edge a b :
  Forall namedByKey m ->
  (∀ c, c ∈ contracts -> contractName c ∈ JsMap.keys m) ->
  dependentOf (addAdjacency contracts m edge) b a
  ↔ dependentOf m b a ∨ edgeLinks contracts edge a b.
Proof.
  intros Hnamed Hkeys. unfold addAdjacency, edgeLinks.
  destruct (findContractByPath contracts (edge_from edge)) as [fc |] eqn:Hfc.
  2: { split; [now left | intros [H | (f & t & [=] & _)]; exact H]. }
  destruct (findContractByPath contracts (edge_to edge)) as [tc_ |] eqn:Htc.
  2: { split; [now left | intros [H | (f & t & _ & [=] & _)]; exact H]. }
  destruct (get_is_Some_keys _ m (Hkeys _ (findContractByPath_elem_of _ _ _ Hfc)))
    as [fromNode Hf].
  destruct (get_is_Some_keys _ m (Hkeys _ (findContractByPath_elem_of _ _ _ Htc)))
    as [toNode Ht].
  rewrite Hf, Ht.
  rewrite (namedByKey_get _ _ _ Hnamed Ht), (namedByKey_get _ _ _ Hnamed Hf).
  assert (Hlink : (∃ f t, Some fc = Some f ∧ Some tc_ = Some t ∧
                          a = contractName f ∧ b = contractName t)
                  ↔ a = contractName fc ∧ b = contractName tc_).
  { split; [intros (f & t & [= <-] & [= <-] & H); exact H | intros H; eauto 6]. }
  rewrite Hlink. clear Hlink.
  set (nodes1 := if includes _ _ then m else _).
  assert (Ht1 : ∃ toNode1, JsMap.get (contractName tc_) nodes1 = Some toNode1).
  { subst nodes1. unfold includes. case_bool_decide; [eauto |].
    rewrite get_mutate, Ht. case_decide; simpl; eauto. }
  assert (H1 : dependentOf nodes1 b a ↔ dependentOf m b a).
  { subst nodes1. unfold includes. case_bool_decide; [reflexivity |].
    now apply dependentOf_mutate_same. }
  destruct Ht1 as [toNode1 Ht1]. unfold includes. case_bool_decide as Hin.
  - rewrite H1. split; [now left | intros [H | [-> ->]]; [exact H |]]. exists toNode. auto.
  - rewrite (dependentOf_pushDependent _ _ _ _ _ _ Ht1), H1. tauto.
Qed.

Lemma initialNodes_no_adjacency contracts k n :
  JsMap.get k (initialNodes contracts) = Some n ->
  node_dependencies n = [] ∧ node_dependents n = [].
Proof.
  intros Hn. apply get_Some_elem_of in Hn. revert Hn. unfold initialNodes.
  assert (H : Forall (fun kn : string * DependencyNode =>
                        node_dependencies (snd kn) = [] ∧ node_dependents (snd kn) = [])
                     (fold_left (fun m c => JsMap.set (contractName c) (newNode c) m)
                                contracts [])).
  { apply (fold_left_invariant (Forall _)); [| constructor].
    intros m c Hm. apply Forall_set; [assumption | now split]. }
  rewrite Forall_forall in H. intros Hn. exact (H _ Hn).
Qed.

(** The adjacency of the node map is that of the edges whose two paths
    belong to contracts. *)
Lemma adjacencyNodes_relations contracts edges_ a b :
  (dependsOn (adjacencyNodes contracts edges_) a b
   ↔ ∃ e, e ∈ edges_ ∧ edgeLinks contracts e a b) ∧
  (dependentOf (adjacencyNodes contracts edges_) b a
   ↔ ∃ e, e ∈ edges_ ∧ edgeLinks contracts e a b).
Proof.
  unfold adjacencyNodes.
  assert (Hgen : ∀ es m,
    Forall namedByKey m ->
    (∀ c, c ∈ contracts -> contractName c ∈ JsMap.keys m) ->
    (dependsOn (fold_left (addAdjacency contracts) es m) a b
     ↔ dependsOn m a b ∨ ∃ e, e ∈ es ∧ edgeLinks contracts e a b) ∧
    (dependentOf (fold_left (addAdjacency contracts) es m) b a
     ↔ dependentOf m b a ∨ ∃ e, e ∈ es ∧ edgeLinks contracts e a b)).
  { induction es as [| e es IH]; intros m Hnamed Hkeys; simpl.
    - split; (split; [now left | intros [H | (e & He & _)];
                                   [exact H | now apply elem_of_nil in He]]).
    - destruct (IH (addAdjacency contracts m e)) as [IHd IHr].
      + now apply addAdjacency_namedByKey.
      + intros c Hc. rewrite addAdjacency_keys. auto.
      + rewrite IHd, IHr, addAdjacency_dependsOn, addAdjacency_dependentOf by assumption.
        split; (split;
          [ intros [[H | H] | (e' & He' & H)];
              [now left | right; exists e; split; [left | exact H]
               | right; exists e'; split; [now right | exact H]]
          | intros [H | (e' & He' & H)]; [now left; left |];
              apply elem_of_cons in He' as [-> | He']; [left; now right | right; eauto] ]). }
  destruct (Hgen edges_ (initialNodes contracts)) as [Hd Hr].
  - apply initialNodes_namedByKey.
  - intros c Hc. rewrite initialNodes_keys. apply elem_of_workspaceContractsOf. eauto.
  - rewrite Hd, Hr. split; (split; [| now right]).
    + intros [(n & Hn & Hb) | H]; [| exact H].
      apply initialNodes_no_adjacency in Hn as [Hn _]. rewrite Hn in Hb.
      now apply elem_of_nil in Hb.
    + intros [(n & Hn & Hb) | H]; [| exact H].
      apply initialNodes_no_adjacency in Hn as [_ Hn]. rewrite Hn in Hb.
      now apply elem_of_nil in Hb.
Qed.

(** ** The built graph: nodes and adjacency *)

Lemma eraseDepth_node m m' k n :
  eraseDepth m = eraseDepth m' ->
  JsMap.get k m = Some n ->
  ∃ n', JsMap.get k m' = Some n' ∧ setDepth 0 n' = setDepth 0 n.
Proof.
  intros He Hn. pose proof (eraseDepth_get m m' k He) as Hg. rewrite Hn in Hg.
  destruct (JsMap.get k m') as [n' |]; [| discriminate].
  exists n'. split; [reflexivity |]. symmetry. exact (inj Some _ _ Hg).
Qed.

Lemma eraseDepth_relations m m' a b :
  eraseDepth m = eraseDepth m' ->
  (dependsOn m a b ↔ dependsOn m' a b) ∧ (dependentOf m b a ↔ dependentOf m' b a).
Proof.
  intros He. unfold dependsOn, dependentOf. split; split; intros (n & Hn & Hin).
  - destruct (eraseDepth_node _ _ _ _ He Hn) as (n' & Hn' & Heq).
    exists n'. split; [assumption |].
    now rewrite (f_equal node_dependencies Heq : node_dependencies n' = _).
  - destruct (eraseDepth_node _ _ _ _ (eq_sym He) Hn) as (n' & Hn' & Heq).
    exists n'. split; [assumption |].
    now rewrite (f_equal node_dependencies Heq : node_dependencies n' = _).
  - destruct (eraseDepth_node _ _ _ _ He Hn) as (n' & Hn' & Heq).
    exists n'. split; [assumption |].
    now rewrite (f_equal node_dependents Heq : node_dependents n' = _).
  - destruct (eraseDepth_node _ _ _ _ (eq_sym He) Hn) as (n' & Hn' & Heq).
    exists n'. split; [assumption |].
    now rewrite (f_equal node_dependents Heq : node_dependents n' = _).
Qed.

Lemma eraseDepth_namedByKey m m' :
  eraseDepth m = eraseDepth m' -> Forall namedByKey m -> Forall namedByKey m'.
Proof.
  unfold eraseDepth. revert m'.
  induction m as [| [k n] m IH]; intros [| [k' n'] m']; simpl; try discriminate;
    [constructor |].
  intros Heq Hall. apply cons_pair_inv in Heq as (-> & Hn & H).
  apply Forall_cons in Hall as [Hn0 Hall].
  constructor; [| now apply IH]. unfold namedByKey in *. simpl in *.
  rewrite <- Hn0. exact (eq_sym (f_equal node_name Hn)).
Qed.

Lemma buildNodes_namedByKey contracts edges_ :
  Forall namedByKey (buildNodes contracts edges_).
Proof.
  unfold buildNodes.
  apply (eraseDepth_namedByKey _ _ (eq_sym (calculateDepths_eraseDepth _))).
  apply adjacencyNodes_namedByKey.
Qed.

Lemma buildNodes_keys contracts edges_ :
  JsMap.keys (buildNodes contracts edges_) = workspaceContractsOf contracts.
Proof.
  unfold buildNodes.
  rewrite (eraseDepth_keys _ _ (calculateDepths_eraseDepth _)).
  apply adjacencyNodes_keys.
Qed.

Lemma buildNodes_relations contracts edges_ a b :
  (dependsOn (buildNodes contracts edges_) a b
   ↔ ∃ e, e ∈ edges_ ∧ edgeLinks contracts e a b) ∧
  (dependentOf (buildNodes contracts edges_) b a
   ↔ ∃ e, e ∈ edges_ ∧ edgeLinks contracts e a b).
Proof.
  unfold buildNodes.
  destruct (eraseDepth_relations _ _ a b
              (calculateDepths_eraseDepth (adjacencyNodes contracts edges_))) as [Hd Hr].
  destruct (adjacencyNodes_relations contracts edges_ a b) as [Hd' Hr'].
  rewrite Hd, Hr. now split.
Qed.

Lemma edgeLinks_names contracts e a b :
  edgeLinks contracts e a b ->
  a ∈ workspaceContractsOf contracts ∧ b ∈ workspaceContractsOf contracts.
Proof.
  intros (fc & tc_ & Hf & Ht & -> & ->).
  split; apply elem_of_workspaceContractsOf.
  - exists fc. split; [exact (findContractByPath_elem_of _ _ _ Hf) | reflexivity].
  - exists tc_. split; [exact (findContractByPath_elem_of _ _ _ Ht) | reflexivity].
Qed.

Lemma identifyExternalDependencies_workspace contracts edges_ :
  snd (identifyExternalDependencies contracts edges_) = workspaceContractsOf contracts.
Proof. reflexivity. Qed.

(** X1.  The nodes of a built graph are the contracts by name:
    [workspaceContracts] lists the keys of [nodes] in their order, without
    duplicates; a name is a key exactly when a contract carries it;
    [statistics.totalContracts] is their number; and every node is stored
    under its own [name]. *)
Theorem nodes_are_workspace_contracts (P : Platform)
    (contracts : list ContractMetadata) (opts : DependencyDetectionOptions)
    (now : Z) (svc svc' : DetectionService) (g : DependencyGraph) :
  buildDependencyGraph P contracts opts now svc = (Ok g, svc') ->
  JsMap.keys (nodes g) = workspaceContracts g ∧
  NoDup (workspaceContracts g) ∧
  (∀ x, x ∈ JsMap.keys (nodes g) ↔ ∃ c, c ∈ contracts ∧ contractName c = x) ∧
  totalContracts (statistics g) = Z.of_nat (length (workspaceContracts g)) ∧
  (∀ k n, JsMap.get k (nodes g) = Some n -> node_name n = k).
Proof.
  intros Hbuild.
  destruct (buildDependencyGraph_Ok_graph _ _ _ _ _ _ _ Hbuild) as (r & i & ->).
  simpl. change (snd (identifyExternalDependencies contracts
                        (buildEnhancedEdges (res_edges r) i contracts)))
    with (workspaceContractsOf contracts).
  pose proof (buildNodes_keys contracts (buildEnhancedEdges (res_edges r) i contracts))
    as Hkeys.
  split; [exact Hkeys |]. split; [rewrite <- Hkeys; apply buildNodes_keys_NoDup |].
  split; [intros x; rewrite Hkeys; apply elem_of_workspaceContractsOf |]. split.
  - unfold JsMap.size. rewrite <- Hkeys. unfold JsMap.keys. now rewrite length_map.
  - intros k n Hn. exact (namedByKey_get _ _ _ (buildNodes_namedByKey _ _) Hn).
Qed.

Lemma nodes_are_workspace_contracts_witness :
  JsMap.keys (nodes chainGraph) = workspaceContracts chainGraph ∧
  NoDup (workspaceContracts chainGraph) ∧
  (∀ x, x ∈ JsMap.keys (nodes chainGraph)
        ↔ ∃ c, c ∈ chainContracts ∧ contractName c = x) ∧
  totalContracts (statistics chainGraph)
  = Z.of_nat (length (workspaceContracts chainGraph)) ∧
  (∀ k n, JsMap.get k (nodes chainGraph) = Some n -> node_name n = k).
Proof.
  exact (nodes_are_workspace_contracts (fixedResolver (Ok chainResolution))
           chainContracts withoutImports 1000 newService
           {| cachedGraph := Some chainGraph; lastScanTime := 1000 |} chainGraph eq_refl).
Defined.

(** X2.  In a built graph the dependents are the inverse of the
    dependencies: [b] is among the dependencies of the node [a] exactly
    when [a] is among the dependents of the node [b]; and every name in
    either array is the key of a node. *)
Theorem dependents_mirror_dependencies (P : Platform)
    (contracts : list ContractMetadata) (opts : DependencyDetectionOptions)
    (now : Z) (svc svc' : DetectionService) (g : DependencyGraph) :
  buildDependencyGraph P contracts opts now svc = (Ok g, svc') ->
  (∀ a b, dependsOn (nodes g) a b ↔ dependentOf (nodes g) b a) ∧
  (∀ k n x, JsMap.get k (nodes g) = Some n ->
            x ∈ node_dependencies n ∨ x ∈ node_dependents n ->
            x ∈ JsMap.keys (nodes g)).
Proof.
  intros Hbuild.
  destruct (buildDependencyGraph_Ok_graph _ _ _ _ _ _ _ Hbuild) as (r & i & ->).
  simpl. set (es := buildEnhancedEdges (res_edges r) i contracts). split.
  - intros a b. destruct (buildNodes_relations contracts es a b) as [Hd Hr].
    now rewrite Hd, Hr.
  - intros k n x Hn Hx. rewrite buildNodes_keys. destruct Hx as [Hx | Hx].
    + destruct (buildNodes_relations contracts es k x) as [Hd _].
      destruct (proj1 Hd (ex_intro _ n (conj Hn Hx))) as (e & _ & Hlink).
      exact (proj2 (edgeLinks_names _ _ _ _ Hlink)).
    + destruct (buildNodes_relations contracts es x k) as [_ Hr].
      destruct (proj1 Hr (ex_intro _ n (conj Hn Hx))) as (e & _ & Hlink).
      exact (proj1 (edgeLinks_names _ _ _ _ Hlink)).
Qed.

Lemma dependents_mirror_dependencies_witness :
  (∀ a b, dependsOn (nodes chainGraph) a b ↔ dependentOf (nodes chainGraph) b a) ∧
  (∀ k n x, JsMap.get k (nodes chainGraph) = Some n ->
            x ∈ node_dependencies n ∨ x ∈ node_dependents n ->
            x ∈ JsMap.keys (nodes chainGraph)).
Proof.
  exact (dependents_mirror_dependencies (fixedResolver (Ok chainResolution))
           chainContracts withoutImports 1000 newService
           {| cachedGraph := Some chainGraph; lastScanTime := 1000 |} chainGraph eq_refl).
Defined.

(** X3.  The adjacency of a built graph is that of its edges: [b] is
    among the dependencies of the node [a] exactly when some edge of the
    graph has a [from] path and a [to] path that, normalized, are the
    paths of contracts named [a] and [b]. *)
Theorem dependencies_follow_edges (P : Platform)
    (contracts : list ContractMetadata) (opts : DependencyDetectionOptions)
    (now : Z) (svc svc' : DetectionService) (g : DependencyGraph) :
  buildDependencyGraph P contracts opts now svc = (Ok g, svc') ->
  ∀ a b, dependsOn (nodes g) a b ↔ ∃ e, e ∈ edges g ∧ edgeLinks contracts e a b.
Proof.
  intros Hbuild.
  destruct (buildDependencyGraph_Ok_graph _ _ _ _ _ _ _ Hbuild) as (r & i & ->).
  simpl. intros a b. apply buildNodes_relations.
Qed.

Lemma dependencies_follow_edges_witness :
  dependsOn (nodes chainGraph) "contract-a" "contract-b"
  ↔ ∃ e, e ∈ edges chainGraph ∧ edgeLinks chainContracts e "contract-a" "contract-b".
Proof.
  exact (dependencies_follow_edges (fixedResolver (Ok chainResolution))
           chainContracts withoutImports 1000 newService
           {| cachedGraph := Some chainGraph; lastScanTime := 1000 |} chainGraph eq_refl
           "contract-a" "contract-b").
Defined.

(** ** External dependencies *)

Lemma NoDup_JsSet_add x s : NoDup s -> NoDup (JsSet.add x s).
Proof.
  intros Hs. unfold JsSet.add, JsSet.has. case_bool_decide as Hx; [assumption |].
  apply NoDup_app. split; [assumption |]. split; [| apply NoDup_singleton].
  intros y Hy Hy'. apply list_elem_of_singleton in Hy'. congruence.
Qed.

Lemma fold_left_flat_map {A B C : Type} (f : A -> C -> A) (g : B -> list C) l a :
  fold_left (fun a b => fold_left f (g b) a) l a = fold_left f (flat_map g l) a.
Proof.
  revert a. induction l as [| b l IH]; intros a; simpl; [reflexivity |].
  now rewrite fold_left_app, IH.
Qed.

Lemma fold_add_elem_of {A : Type} (p : A -> bool) (key : A -> string) l s x :
  x ∈ fold_left (fun s a => if p a then JsSet.add (key a) s else s) l s
  ↔ x ∈ s ∨ ∃ a, a ∈ l ∧ p a = true ∧ key a = x.
Proof.
  revert s. induction l as [| a l IH]; intros s; simpl.
  - split; [now left | intros [H | (a & Ha & _)]; [exact H | now apply elem_of_nil in Ha]].
  - rewrite IH. split.
    + intros [H | (a' & Ha' & H)].
      * destruct (p a) eqn:Hp; [| now left].
        apply elem_of_JsSet_add in H as [H | ->]; [now left | right].
        exists a. split; [left | auto].
      * right. exists a'. split; [now right | exact H].
    + intros [H | (a' & Ha' & Hp & Hk)].
      * left. destruct (p a); [apply elem_of_JsSet_add; now left | exact H].
      * apply elem_of_cons in Ha' as [-> | Ha']; [| right; eauto].
        left. rewrite Hp. apply elem_of_JsSet_add. now right.
Qed.

Lemma fold_add_NoDup {A : Type} (p : A -> bool) (key : A -> string) l s :
  NoDup s -> NoDup (fold_left (fun s a => if p a then JsSet.add (key a) s else s) l s).
Proof.
  revert s. induction l as [| a l IH]; intros s Hs; simpl; [assumption |].
  apply IH. destruct (p a); [now apply NoDup_JsSet_add | assumption].
Qed.

Lemma workspaceContractsOf_NoDup contracts : NoDup (workspaceContractsOf contracts).
Proof.
  unfold workspaceContractsOf.
  apply (fold_left_invariant (fun s => NoDup s)); [| constructor].
  intros s c Hs. now apply NoDup_JsSet_add.
Qed.

(** X4.  [identifyExternalDependencies] separates two sets without
    duplicates: the workspace set holds the contract names, and a name is
    external exactly when it is not a contract name and the merged
    dependency table of some contract has it with no path (a missing or an
    empty one).  No name is in both sets. *)
Theorem external_dependencies_characterized (contracts : list ContractMetadata)
    (edges_ : list EnhancedDependencyEdge) :
  let external := fst (identifyExternalDependencies contracts edges_) in
  let workspace := snd (identifyExternalDependencies contracts edges_) in
  NoDup external ∧ NoDup workspace ∧
  (∀ x, x ∈ workspace ↔ ∃ c, c ∈ contracts ∧ contractName c = x) ∧
  (∀ x, x ∈ external
        ↔ (x ∉ workspace) ∧
          (∃ c dep, c ∈ contracts ∧ (x, dep) ∈ allDeps c ∧ noPath dep = true)) ∧
  (∀ x, x ∈ external -> x ∉ workspace).
Proof.
  simpl. unfold identifyExternalDependencies. simpl.
  set (ws := workspaceContractsOf contracts).
  set (p := fun kv : string * CargoDependency =>
              (noPath (snd kv) && negb (JsSet.has (fst kv) ws))%bool).
  rewrite (fold_left_flat_map
             (fun ext kv => if p kv then JsSet.add (fst kv) ext else ext) allDeps).
  assert (Hchar : ∀ x,
    x ∈ fold_left (fun ext kv => if p kv then JsSet.add (fst kv) ext else ext)
                  (flat_map allDeps contracts) []
    ↔ (x ∉ ws) ∧ (∃ c dep, c ∈ contracts ∧ (x, dep) ∈ allDeps c ∧ noPath dep = true)).
  { intros x. rewrite fold_add_elem_of. split.
    - intros [H | ([k dep] & Hin & Hp & Hk)]; [now apply elem_of_nil in H |].
      simpl in Hk. subst k. subst p. simpl in Hp.
      apply andb_true_iff in Hp as [Hpath Hws]. apply negb_true_iff in Hws.
      unfold JsSet.has in Hws. apply bool_decide_eq_false in Hws.
      split; [assumption |].
      apply list_elem_of_In, in_flat_map in Hin as (c & Hc & Hin).
      exists c, dep. split; [now apply list_elem_of_In |].
      split; [now apply list_elem_of_In | assumption].
    - intros (Hws & c & dep & Hc & Hin & Hpath). right. exists (x, dep).
      split; [| split; [| reflexivity]].
      + apply list_elem_of_In, in_flat_map. exists c.
        split; now apply list_elem_of_In.
      + subst p. simpl. rewrite Hpath. simpl. apply negb_true_iff.
        unfold JsSet.has. now apply bool_decide_eq_false. }
  split; [apply fold_add_NoDup; constructor |].
  split; [apply workspaceContractsOf_NoDup |].
  split; [intros x; apply elem_of_workspaceContractsOf |].
  split; [exact Hchar |].
  intros x Hx. now apply Hchar in Hx as [Hx _].
Qed.

(** ** Depths on every node map *)

Lemma fold_left_Zmax_ge ds d : d <= fold_left Z.max ds d.
Proof.
  revert d. induction ds as [| a ds IH]; intros d; simpl; [lia |].
  specialize (IH (Z.max d a)). lia.
Qed.

Lemma mapState_finishes fuel pending l :
  (∀ x pending st r st',
      calculateDepth fuel x st = Some (r, st') ->
      finished pending st -> finished pending st' ∧ 0 <= r) ->
  ∀ st rs st',
    mapState (calculateDepth fuel) l st = Some (rs, st') ->
    finished pending st -> finished pending st'.
Proof.
  intros Hfuel. induction l as [| a l IH]; intros st rs st'; simpl.
  - now intros [= _ <-].
  - destruct (calculateDepth fuel a st) as [[b s1] |] eqn:Ha; [| discriminate].
    destruct (mapState (calculateDepth fuel) l s1) as [[bs s2] |] eqn:Hl; [| discriminate].
    intros [= _ <-] Hst. apply (IH _ _ _ Hl).
    now apply (Hfuel _ _ _ _ _ Ha).
Qed.

Lemma calculateDepth_finishes fuel :
  ∀ x pending st r st',
    calculateDepth fuel x st = Some (r, st') ->
    finished pending st -> finished pending st' ∧ 0 <= r.
Proof.
  induction fuel as [| fuel IH]; intros x pending st r st'; [discriminate |].
  simpl. unfold JsSet.has at 1. case_bool_decide as Hvis.
  { intros [= <- <-] Hst. split; [assumption |].
    destruct (JsMap.get x (ds_nodes st)) as [n |] eqn:Hn; [| lia].
    exact (proj1 Hst _ _ Hn). }
  set (st1 := {| ds_nodes := ds_nodes st; ds_visited := JsSet.add x (ds_visited st) |}).
  destruct (JsMap.get x (ds_nodes st)) as [node |] eqn:Hnode.
  2: { intros [= <- <-] [Hpos Hfin]. split; [| lia]. split; [exact Hpos |].
       intros v n Hv Hp Hn. simpl in *.
       apply elem_of_JsSet_add in Hv as [Hv | ->]; [eauto | congruence]. }
  assert (Hset : ∀ d (s : DepthState),
            0 <= d ->
            (node_dependencies node = [] -> d = 0) ->
            (node_dependencies node ≠ [] -> 1 <= d) ->
            JsMap.get x (ds_nodes s) = Some node ->
            (∀ k n, JsMap.get k (ds_nodes s) = Some n -> 0 <= node_depth n) ->
            (∀ v n, v ∈ ds_visited s -> v ≠ x -> v ∉ pending ->
                    JsMap.get v (ds_nodes s) = Some n -> depthSound n) ->
            finished pending {| ds_nodes := JsMap.mutate x (setDepth d) (ds_nodes s);
                                ds_visited := ds_visited s |}).
  { intros d s Hd Hleaf Hinner Hx Hpos Hfin. split; simpl.
    - intros k n. rewrite get_mutate. case_decide as Hk; [| apply Hpos].
      subst k. rewrite Hx. intros [= <-]. exact Hd.
    - intros v n Hv Hp. rewrite get_mutate. case_decide as Hk; [| now apply Hfin].
      subst v. rewrite Hx. intros [= <-]. split; simpl; assumption. }
  destruct (node_dependencies node) as [| dep deps] eqn:Hdeps.
  { intros [= <- <-] [Hpos Hfin]. split; [| lia].
    apply (Hset 0 st1); simpl; try assumption; try reflexivity; try congruence.
    intros v n Hv Hvx Hp Hn. apply elem_of_JsSet_add in Hv as [Hv | ->]; [eauto | congruence]. }
  destruct (calculateDepth fuel dep st1) as [[d st2] |] eqn:Hd; [| discriminate].
  destruct (mapState (calculateDepth fuel) deps st2) as [[ds st3] |] eqn:Hm;
    [| discriminate].
  intros [= <- <-] [Hpos Hfin].
  assert (Hst1 : finished (x :: pending) st1).
  { split; [exact Hpos |]. intros v n Hv Hp Hn. simpl in *.
    apply not_elem_of_cons in Hp as [Hvx Hp].
    apply elem_of_JsSet_add in Hv as [Hv | ->]; [eauto | congruence]. }
  destruct (IH _ _ _ _ _ Hd Hst1) as [Hst2 Hd0].
  pose proof (mapState_finishes fuel (x :: pending) deps IH _ _ _ Hm Hst2) as [Hpos3 Hfin3].
  destruct (calculateDepth_frame _ _ _ _ _ Hd) as [H12 _].
  destruct (mapState_frame (calculateDepth fuel) deps
              ltac:(intros; eapply calculateDepth_frame; eassumption) _ _ _ Hm)
    as [H23 _].
  pose proof (depthFrame_trans _ _ _ H12 H23) as (_ & _ & Hg13).
  pose proof (fold_left_Zmax_ge ds d) as Hmax.
  split; [| lia].
  apply (Hset _ st3); try assumption; try lia; try congruence.
  - rewrite Hg13; [exact Hnode | apply elem_of_JsSet_add; now right].
  - intros v n Hv Hvx Hp Hn. apply (Hfin3 v n Hv); [| assumption].
    apply not_elem_of_cons. now split.
Qed.

Lemma calculateDepths_depthSound nodes_ :
  (∀ k n, JsMap.get k nodes_ = Some n -> 0 <= node_depth n) ->
  ∀ k n, JsMap.get k (calculateDepths nodes_) = Some n ->
         0 <= node_depth n ∧ depthSound n.
Proof.
  intros Hpos k n.
  destruct (calculateDepths_run nodes_) as (depths & st & Hrun & _ & -> & _ & He).
  intros Hn.
  destruct (mapState_finishes (depthFuel nodes_) [] (JsMap.keys nodes_)
              (calculateDepth_finishes _) _ _ _ Hrun) as [Hpos' Hfin].
  { split; [exact Hpos |]. intros v n' Hv. now apply elem_of_nil in Hv. }
  split; [exact (Hpos' _ _ Hn) |].
  destruct (mapState_frame (calculateDepth (depthFuel nodes_)) (JsMap.keys nodes_)
              ltac:(intros; eapply calculateDepth_frame; eassumption) _ _ _ Hrun)
    as [_ Hkeys].
  apply (Hfin k n); [| apply not_elem_of_nil | assumption].
  apply Hkeys. rewrite <- (eraseDepth_keys _ _ He).
  destruct (decide (k ∈ JsMap.keys (ds_nodes st))) as [| Hk]; [assumption |].
  apply get_None in Hk. congruence.
Qed.

Lemma adjacencyNodes_depth_zero contracts edges_ :
  Forall (fun kn : string * DependencyNode => node_depth (snd kn) = 0)
         (adjacencyNodes contracts edges_).
Proof.
  unfold adjacencyNodes. apply (fold_left_invariant (Forall _)).
  - intros m e Hm. unfold addAdjacency.
    destruct (findContractByPath contracts (edge_from e)); [| assumption].
    destruct (findContractByPath contracts (edge_to e)); [| assumption].
    destruct (JsMap.get _ m); [| assumption].
    destruct (JsMap.get _ m); [| assumption].
    set (nodes1 := if includes _ _ then m else _).
    assert (H1 : Forall (fun kn : string * DependencyNode => node_depth (snd kn) = 0) nodes1).
    { subst nodes1. unfold includes. case_bool_decide; [assumption |].
      apply Forall_mutate; [assumption |]. intros v _ Hv. exact Hv. }
    unfold includes. case_bool_decide; [assumption |].
    apply Forall_mutate; [assumption |]. intros v _ Hv. exact Hv.
  - unfold initialNodes. apply (fold_left_invariant (Forall _)); [| constructor].
    intros m c Hm. apply Forall_set; [assumption | reflexivity].
Qed.

Lemma buildNodes_depthSound contracts edges_ k n :
  JsMap.get k (buildNodes contracts edges_) = Some n ->
  0 <= node_depth n ∧ depthSound n.
Proof.
  apply calculateDepths_depthSound. intros k' n' Hn'.
  apply get_Some_elem_of in Hn'.
  pose proof (adjacencyNodes_depth_zero contracts edges_) as H0.
  rewrite Forall_forall in H0. specialize (H0 _ Hn'). simpl in H0. lia.
Qed.

(** X5.  In every built graph, cyclic or not, no depth is negative and a
    node has depth [0] exactly when it has no dependencies. *)
Theorem depth_zero_iff_leaf (P : Platform)
    (contracts : list ContractMetadata) (opts : DependencyDetectionOptions)
    (now : Z) (svc svc' : DetectionService) (g : DependencyGraph) :
  buildDependencyGraph P contracts opts now svc = (Ok g, svc') ->
  ∀ k n, (k, n) ∈ nodes g ->
         0 <= node_depth n ∧ (node_depth n = 0 ↔ node_dependencies n = []).
Proof.
  intros Hbuild k n Hn.
  destruct (buildDependencyGraph_Ok_graph _ _ _ _ _ _ _ Hbuild) as (r & i & ->).
  simpl in Hn. apply elem_of_get in Hn; [| apply buildNodes_keys_NoDup].
  destruct (buildNodes_depthSound _ _ _ _ Hn) as [Hpos [Hleaf Hinner]].
  split; [assumption |]. split; [| assumption].
  intros Hz. destruct (node_dependencies n) as [| d ds] eqn:Hdeps; [reflexivity |].
  assert (1 <= node_depth n) by (apply Hinner; discriminate). lia.
Qed.

Lemma depth_zero_iff_leaf_witness :
  ∃ n, ("contract-a", n) ∈ nodes (assembleGraph cycleContracts cycleResolution []) ∧
       0 <= node_depth n ∧ (node_depth n = 0 ↔ node_dependencies n = []).
Proof.
  eexists. split; [left |].
  refine (depth_zero_iff_leaf (fixedResolver (Ok cycleResolution)) cycleContracts
            withoutImports 1000 newService _ _ eq_refl "contract-a" _ _).
  left.
Defined.

(** ** Statistics *)

Lemma count_if_ext {A : Type} (p q : A -> bool) l :
  (∀ a, a ∈ l -> p a = q a) -> count_if p l = count_if q l.
Proof.
  unfold count_if. intros H. f_equal. f_equal.
  induction l as [| a l IH]; simpl; [reflexivity |].
  rewrite (H a) by left. rewrite IH; [reflexivity |]. intros b Hb. apply H. now right.
Qed.

Lemma Math_max0_bounds xs :
  0 <= Math_max0 xs ∧ (∀ x, x ∈ xs -> x <= Math_max0 xs) ∧
  (Math_max0 xs = 0 ∨ Math_max0 xs ∈ xs).
Proof.
  unfold Math_max0. induction xs as [| a xs (Hpos & Hub & Hin)]; simpl.
  - split; [lia |]. split; [| now left]. intros x Hx. now apply elem_of_nil in Hx.
  - split; [lia |]. split.
    + intros x Hx. apply elem_of_cons in Hx as [-> | Hx]; [lia |].
      specialize (Hub _ Hx). lia.
    + destruct (Z.max_spec a (fold_right Z.max 0 xs)) as [[_ ->] | [_ ->]].
      * destruct Hin as [-> | Hin]; [now left | right; now right].
      * right. left.
Qed.

Lemma values_elem_of {V : Type} (m : list (string * V)) v :
  v ∈ JsMap.values m ↔ ∃ k, (k, v) ∈ m.
Proof.
  unfold JsMap.values. change (map snd m) with (snd <$> m).
  rewrite list_elem_of_fmap. split.
  - intros ([k v'] & -> & H). eauto.
  - intros (k & H). exists (k, v). auto.
Qed.

(** X6.  The statistics of a built graph count what the graph holds:
    [totalDependencies] the edges and [externalDependencies] the external
    names; [leafContracts] the nodes without dependencies, which are the
    nodes of depth [0], and [rootContracts] the nodes without dependents;
    [maxDepth] is not negative, bounds every depth and, when there is a
    node, is the depth of one. *)
Theorem statistics_count_the_graph (P : Platform)
    (contracts : list ContractMetadata) (opts : DependencyDetectionOptions)
    (now : Z) (svc svc' : DetectionService) (g : DependencyGraph) :
  buildDependencyGraph P contracts opts now svc = (Ok g, svc') ->
  let ns := JsMap.values (nodes g) in
  totalDependencies (statistics g) = Z.of_nat (length (edges g)) ∧
  stat_externalDependencies (statistics g)
  = Z.of_nat (length (externalDependencies g)) ∧
  leafContracts (statistics g)
  = count_if (fun n => bool_decide (node_dependencies n = [])) ns ∧
  leafContracts (statistics g) = count_if (fun n => node_depth n =? 0) ns ∧
  rootContracts (statistics g)
  = count_if (fun n => bool_decide (node_dependents n = [])) ns ∧
  0 <= maxDepth (statistics g) ∧
  (∀ n, n ∈ ns -> node_depth n <= maxDepth (statistics g)) ∧
  (ns ≠ [] -> ∃ n, n ∈ ns ∧ node_depth n = maxDepth (statistics g)).
Proof.
  intros Hbuild.
  destruct (buildDependencyGraph_Ok_graph _ _ _ _ _ _ _ Hbuild) as (r & i & ->).
  simpl. set (es := buildEnhancedEdges (res_edges r) i contracts).
  set (ns := JsMap.values (buildNodes contracts es)).
  assert (Hok : ∀ n, n ∈ ns -> adjacencyOk n).
  { intros n Hn. apply values_elem_of in Hn as [k Hn].
    pose proof (eraseDepth_adjacencyOk _ _
                  (eq_sym (calculateDepths_eraseDepth (adjacencyNodes contracts es)))
                  (adjacencyNodes_adjacencyOk _ _)) as Hall.
    rewrite Forall_forall in Hall. exact (Hall _ Hn). }
  assert (Hsound : ∀ n, n ∈ ns -> 0 <= node_depth n ∧ depthSound n).
  { intros n Hn. apply values_elem_of in Hn as [k Hn].
    apply elem_of_get in Hn; [| apply buildNodes_keys_NoDup].
    exact (buildNodes_depthSound _ _ _ _ Hn). }
  assert (Hleaf : ∀ n, n ∈ ns ->
            (node_dependencyCount n =? 0) = bool_decide (node_dependencies n = [])).
  { intros n Hn. destruct (Hok n Hn) as (_ & _ & Hc & _). rewrite Hc.
    destruct (node_dependencies n) as [| d ds]; [reflexivity |].
    rewrite bool_decide_eq_false_2 by discriminate. apply Z.eqb_neq.
    rewrite length_cons. lia. }
  split; [reflexivity |]. split; [reflexivity |].
  split; [now apply count_if_ext |]. split.
  { rewrite (count_if_ext _ _ _ Hleaf). apply count_if_ext. intros n Hn.
    destruct (Hsound n Hn) as [Hpos [Hl Hi]].
    destruct (node_dependencies n) as [| d ds] eqn:Hd.
    - rewrite bool_decide_eq_true_2 by reflexivity. symmetry. apply Z.eqb_eq. auto.
    - rewrite bool_decide_eq_false_2 by discriminate. symmetry. apply Z.eqb_neq.
      assert (1 <= node_depth n) by (apply Hi; discriminate). lia. }
  split.
  { apply count_if_ext. intros n Hn. destruct (Hok n Hn) as (_ & _ & _ & Hc). rewrite Hc.
    destruct (node_dependents n) as [| d ds]; [reflexivity |].
    rewrite bool_decide_eq_false_2 by discriminate. apply Z.eqb_neq.
    rewrite length_cons. lia. }
  destruct (Math_max0_bounds (map node_depth ns)) as (Hpos & Hub & Hin).
  split; [exact Hpos |]. split.
  { intros n Hn. apply Hub. exact (list_elem_of_fmap_2 node_depth ns n Hn). }
  intros Hne. destruct Hin as [Hz | Hin].
  - destruct ns as [| n0 ns0]; [congruence |]. exists n0. split; [left |].
    destruct (Hsound n0 ltac:(left)) as [Hp _].
    assert (node_depth n0 <= Math_max0 (map node_depth (n0 :: ns0)))
      by (apply Hub; simpl; left).
    lia.
  - change (map node_depth ns) with (node_depth <$> ns) in Hin at 2.
    apply list_elem_of_fmap in Hin as (n & Heq & Hn). eauto.
Qed.

Lemma statistics_count_the_graph_witness :
  let ns := JsMap.values (nodes chainGraph) in
  totalDependencies (statistics chainGraph) = Z.of_nat (length (edges chainGraph)) ∧
  stat_externalDependencies (statistics chainGraph)
  = Z.of_nat (length (externalDependencies chainGraph)) ∧
  leafContracts (statistics chainGraph)
  = count_if (fun n => bool_decide (node_dependencies n = [])) ns ∧
  leafContracts (statistics chainGraph) = count_if (fun n => node_depth n =? 0) ns ∧
  rootContracts (statistics chainGraph)
  = count_if (fun n => bool_decide (node_dependents n = [])) ns ∧
  0 <= maxDepth (statistics chainGraph) ∧
  (∀ n, n ∈ ns -> node_depth n <= maxDepth (statistics chainGraph)) ∧
  (ns ≠ [] -> ∃ n, n ∈ ns ∧ node_depth n = maxDepth (statistics chainGraph)).
Proof.
  exact (statistics_count_the_graph (fixedResolver (Ok chainResolution))
           chainContracts withoutImports 1000 newService
           {| cachedGraph := Some chainGraph; lastScanTime := 1000 |} chainGraph eq_refl).
Defined.

(** ** Queries: the traversal *)

Lemma forEachState_total {S A : Type} (f : A -> S -> option S) (I : S -> Prop) l :
  (∀ a s, a ∈ l -> I s -> ∃ s', f a s = Some s' ∧ I s') ->
  ∀ s, I s -> ∃ s', forEachState f l s = Some s' ∧ I s'.
Proof.
  induction l as [| a l IH]; intros Hf s Hs; simpl; [eauto |].
  destruct (Hf a s) as (s1 & -> & H1); [left | assumption |].
  apply IH; [| assumption]. intros a' s' Ha'. apply Hf. now right.
Qed.

Lemma forEachState_preserves {S A : Type} (f : A -> S -> option S) (I : S -> Prop) l :
  (∀ a s s', a ∈ l -> f a s = Some s' -> I s -> I s') ->
  ∀ s s', forEachState f l s = Some s' -> I s -> I s'.
Proof.
  induction l as [| a l IH]; intros Hf s s'; simpl; [now intros [= <-] |].
  destruct (f a s) as [s1 |] eqn:Ha; [| discriminate]. intros Hl Hs.
  apply (IH (fun a' s0 s0' Ha' => Hf a' s0 s0' (list_elem_of_further _ _ _ Ha')) _ _ Hl).
  exact (Hf a s s1 (list_elem_of_here _ _) Ha Hs).
Qed.

Lemma forEachState_mono {S A : Type} (f g : A -> S -> option S) l :
  (∀ a s r, f a s = Some r -> g a s = Some r) ->
  ∀ s r, forEachState f l s = Some r -> forEachState g l s = Some r.
Proof.
  intros Hfg. induction l as [| a l IH]; intros s r; simpl; [auto |].
  destruct (f a s) as [s1 |] eqn:Hf; [| discriminate].
  rewrite (Hfg _ _ _ Hf). apply IH.
Qed.

Lemma findNodeByName_elem_of graph name n :
  findNodeByName graph name = Some n ->
  n ∈ JsMap.values (nodes graph) ∧ node_name n = name.
Proof.
  unfold findNodeByName. intros H. apply find_some in H as [Hin Hname].
  split; [now apply list_elem_of_In | now apply bool_decide_eq_true in Hname].
Qed.

Lemma adjacent_in_traverseNames adj graph name n d :
  findNodeByName graph name = Some n -> d ∈ adj n -> d ∈ traverseNames adj graph.
Proof.
  intros Hn Hd. apply findNodeByName_elem_of in Hn as [Hn _].
  unfold traverseNames. apply list_elem_of_In, in_concat. exists (adj n).
  split; [| now apply list_elem_of_In].
  apply in_map. now apply list_elem_of_In.
Qed.

Lemma lookupNodes_app graph l d :
  lookupNodes graph (l ++ [d])
  = (lookupNodes graph l
     ++ match JsMap.get d (nodes graph) with Some n => [n] | None => [] end)%list.
Proof.
  unfold lookupNodes. rewrite omap_app. simpl.
  now destruct (JsMap.get d (nodes graph)).
Qed.

Section Traversal.
Variable adj : DependencyNode -> list string.
Variable graph : DependencyGraph.

Lemma traversalState_bound st :
  traversalState adj graph st ->
  (length (fst st) <= length (traverseNames adj graph))%nat.
Proof.
  intros (Hnd & Hsub & _). apply submseteq_length. now apply NoDup_submseteq.
Qed.

Lemma traversalState_add st d :
  traversalState adj graph st -> d ∈ traverseNames adj graph -> d ∉ fst st ->
  traversalState adj graph
    (JsSet.add d (fst st),
     (snd st ++ match JsMap.get d (nodes graph) with Some n => [n] | None => [] end)%list)
  ∧ length (JsSet.add d (fst st)) = S (length (fst st)).
Proof.
  intros (Hnd & Hsub & Hlook) Hd Hnew. unfold JsSet.add, JsSet.has.
  rewrite bool_decide_eq_false_2 by assumption.
  split; [| rewrite length_app; simpl; lia].
  split; [| split]; simpl.
  - apply NoDup_app. split; [assumption |]. split; [| apply NoDup_singleton].
    intros y Hy Hy'. apply list_elem_of_singleton in Hy'. congruence.
  - intros y Hy. apply elem_of_app in Hy as [Hy | Hy]; [auto |].
    apply list_elem_of_singleton in Hy. congruence.
  - now rewrite lookupNodes_app, Hlook.
Qed.

Lemma traverse_total fuel :
  ∀ name st,
    traversalState adj graph st ->
    (length (traverseNames adj graph) < fuel + length (fst st))%nat ->
    ∃ st', traverse fuel adj graph name st = Some st' ∧
           traversalState adj graph st' ∧
           (length (traverseNames adj graph) < fuel + length (fst st'))%nat.
Proof.
  induction fuel as [| fuel IH]; intros name st Hst Hfuel.
  - exfalso. pose proof (traversalState_bound st Hst). lia.
  - simpl. destruct (findNodeByName graph name) as [node |] eqn:Hnode; [| eauto].
    apply (forEachState_total _
             (fun s => traversalState adj graph s ∧
                       (length (traverseNames adj graph) < S fuel + length (fst s))%nat));
      [| now split].
    intros d s Hd [Hs Hf]. unfold JsSet.has. case_bool_decide as Hvis; [eauto |].
    destruct (traversalState_add s d Hs
                (adjacent_in_traverseNames _ _ _ _ _ Hnode Hd) Hvis) as [Hs1 Hlen].
    destruct (JsMap.get d (nodes graph)) as [depNode |].
    + destruct (IH d _ Hs1) as (s' & -> & Hs' & Hf'); [simpl; lia |].
      exists s'. repeat split; try apply Hs'. lia.
    + rewrite app_nil_r in Hs1. eexists. split; [reflexivity |].
      split; [exact Hs1 | simpl; lia].
Qed.

Lemma traverse_fuel_mono fuel :
  ∀ fuel' name st r,
    (fuel <= fuel')%nat ->
    traverse fuel adj graph name st = Some r -> traverse fuel' adj graph name st = Some r.
Proof.
  induction fuel as [| fuel IH]; intros fuel' name st r Hle; [discriminate |].
  destruct fuel' as [| fuel']; [lia |]. simpl.
  destruct (findNodeByName graph name) as [node |]; [| auto].
  apply forEachState_mono. intros d s r'.
  destruct (JsSet.has d (fst s)); [auto |].
  destruct (JsMap.get d (nodes graph)); [| auto].
  apply IH. lia.
Qed.

(** Every visited name is reached from [root]. *)
Lemma traverse_sound root fuel :
  ∀ name st st',
    traverse fuel adj graph name st = Some st' ->
    rtc (follows adj graph) root name ->
    (∀ d, d ∈ fst st -> tc (follows adj graph) root d) ->
    ∀ d, d ∈ fst st' -> tc (follows adj graph) root d.
Proof.
  induction fuel as [| fuel IH]; intros name st st'; [discriminate |].
  simpl. destruct (findNodeByName graph name) as [node |] eqn:Hnode;
    [| now intros [= <-]].
  intros Hloop Hroot Hst.
  eapply (forEachState_preserves _
            (fun s => ∀ d, d ∈ fst s -> tc (follows adj graph) root d));
    [| exact Hloop | exact Hst].
  intros a s s' Ha Hbody Hs. cbv beta in Hbody.
  assert (Hreach : tc (follows adj graph) root a).
  { eapply tc_rtc_l; [exact Hroot |]. apply tc_once. exists node. auto. }
  destruct (JsSet.has a (fst s)); [now injection Hbody as <- |].
  assert (Hadd : ∀ d, d ∈ JsSet.add a (fst s) -> tc (follows adj graph) root d).
  { intros d Hd. apply elem_of_JsSet_add in Hd as [Hd | ->]; auto. }
  destruct (JsMap.get a (nodes graph)).
  - apply (IH _ _ _ Hbody); [now apply tc_rtc | exact Hadd].
  - now injection Hbody as <-.
Qed.

Lemma forEachState_visits (f : string -> list string * list DependencyNode ->
                               option (list string * list DependencyNode))
    (I : list string -> Prop) l :
  (∀ a s s', a ∈ l -> f a s = Some s' -> I (fst s) ->
             I (fst s') ∧ a ∈ fst s' ∧ (∀ d, d ∈ fst s -> d ∈ fst s')) ->
  ∀ s s', forEachState f l s = Some s' -> I (fst s) ->
          I (fst s') ∧ (∀ a, a ∈ l -> a ∈ fst s') ∧ (∀ d, d ∈ fst s -> d ∈ fst s').
Proof.
  induction l as [| a l IH]; intros Hf s s'; simpl.
  - intros [= <-] Hs. split; [assumption |]. split; [| auto].
    intros a Ha. now apply elem_of_nil in Ha.
  - destruct (f a s) as [s1 |] eqn:Ha; [| discriminate]. intros Hl Hs.
    destruct (Hf a s s1 (list_elem_of_here _ _) Ha Hs) as (H1 & Ha1 & Hmono1).
    destruct (IH (fun a' s0 s0' Ha' => Hf a' s0 s0' (list_elem_of_further _ _ _ Ha'))
                 _ _ Hl H1) as (H2 & Hl2 & Hmono2).
    split; [assumption |]. split; [| auto].
    intros a' Ha'. apply elem_of_cons in Ha' as [-> | Ha']; auto.
Qed.

(** When a call returns, the names visited since are closed under the
    adjacency, and so is the name of the call. *)
Lemma traverse_closed fuel :
  coherent graph ->
  ∀ name pending st st',
    traverse fuel adj graph name st = Some st' ->
    closedUnder adj graph (name :: pending) (fst st) ->
    closedUnder adj graph pending (fst st') ∧
    (∀ n b, findNodeByName graph name = Some n -> b ∈ adj n -> b ∈ fst st') ∧
    (∀ d, d ∈ fst st -> d ∈ fst st').
Proof.
  intros Hco. induction fuel as [| fuel IH]; intros name pending st st';
    [discriminate |].
  simpl. destruct (findNodeByName graph name) as [node |] eqn:Hnode.
  2: { intros [= <-] Hcl. split; [| split; [discriminate | auto]].
       intros d n Hd Hp Hn b Hb. apply (Hcl d n); try assumption.
       apply not_elem_of_cons. split; [| assumption].
       intros ->. rewrite <- Hco, Hnode in Hn. discriminate. }
  intros Hloop Hcl.
  match type of Hloop with
  | forEachState ?f _ _ = _ =>
      destruct (forEachState_visits f (closedUnder adj graph (name :: pending))
                  (adj node)) with (s := st) (s' := st') as (Hcl' & Hall & Hmono);
        [| exact Hloop | exact Hcl |]
  end.
  - intros a s s' Ha Hbody Hs. cbv beta in Hbody. unfold JsSet.has in Hbody.
    case_bool_decide as Hvis; [injection Hbody as <-; auto |].
    assert (Hin : a ∈ JsSet.add a (fst s)) by (apply elem_of_JsSet_add; now right).
    assert (Hsub : ∀ d, d ∈ fst s -> d ∈ JsSet.add a (fst s))
      by (intros d Hd; apply elem_of_JsSet_add; now left).
    destruct (JsMap.get a (nodes graph)) as [depNode |] eqn:Hdep.
    + destruct (IH a (name :: pending) _ _ Hbody) as (Hc & _ & Hm).
      * intros d n Hd Hp Hn b Hb. simpl in *.
        apply not_elem_of_cons in Hp as [Hda Hp].
        apply elem_of_JsSet_add in Hd as [Hd | ->]; [| congruence].
        apply Hsub. exact (Hs d n Hd Hp Hn b Hb).
      * simpl in Hm. split; [exact Hc |]. split; auto.
    + injection Hbody as <-. simpl. split; [| auto].
      intros d n Hd Hp Hn b Hb.
      apply elem_of_JsSet_add in Hd as [Hd | ->]; [| congruence].
      apply Hsub. exact (Hs d n Hd Hp Hn b Hb).
  - split; [| split; [| exact Hmono]].
    + intros d n Hd Hp Hn b Hb. destruct (decide (d = name)) as [-> | Hne].
      * rewrite <- Hco, Hnode in Hn. injection Hn as <-. auto.
      * apply (Hcl' d n Hd); [| assumption..].
        apply not_elem_of_cons. now split.
    + intros n b [= <-] Hb. auto.
Qed.
End Traversal.

(** ** Queries on every graph *)

Lemma traverse_from_start adj graph name :
  ∃ visited transitive_,
    traverse (traverseFuel adj graph) adj graph name ([], []) = Some (visited, transitive_) ∧
    (∀ fuel, (traverseFuel adj graph <= fuel)%nat ->
             traverse fuel adj graph name ([], []) = Some (visited, transitive_)) ∧
    NoDup visited ∧
    transitive_ = lookupNodes graph visited ∧
    (∀ d, d ∈ visited -> tc (follows adj graph) name d).
Proof.
  destruct (traverse_total adj graph (traverseFuel adj graph) name ([], []))
    as ([visited transitive_] & Hrun & (Hnd & _ & Hlook) & _).
  - split; [constructor |]. split; [| reflexivity].
    intros d Hd. now apply elem_of_nil in Hd.
  - unfold traverseFuel. simpl. lia.
  - exists visited, transitive_. split; [exact Hrun |].
    split; [intros fuel Hle; exact (traverse_fuel_mono _ _ _ _ _ _ _ Hle Hrun) |].
    split; [exact Hnd |]. split; [exact Hlook |].
    apply (traverse_sound adj graph name _ _ _ _ Hrun); [constructor |].
    intros d Hd. now apply elem_of_nil in Hd.
Qed.

(** X7.  On every graph and for every name, cyclic adjacency included,
    [getContractDependencies] and [getContractDependents] return: the
    nesting of [traverse] stays below [traverseFuel] and a larger bound
    gives the same result.  The transitive result holds the nodes stored
    under a duplicate-free list of names, in the order they were reached,
    and each of these names is reached from the queried name along the
    adjacency arrays. *)
Theorem transitive_queries_return (graph : DependencyGraph) (name : string) :
  (∃ r names,
      getContractDependencies (traverseFuel node_dependencies graph) graph name = Some r ∧
      (∀ fuel, (traverseFuel node_dependencies graph <= fuel)%nat ->
               getContractDependencies fuel graph name = Some r) ∧
      NoDup names ∧ transitive r = lookupNodes graph names ∧
      (∀ d, d ∈ names -> tc (follows node_dependencies graph) name d)) ∧
  (∃ r names,
      getContractDependents (traverseFuel node_dependents graph) graph name = Some r ∧
      (∀ fuel, (traverseFuel node_dependents graph <= fuel)%nat ->
               getContractDependents fuel graph name = Some r) ∧
      NoDup names ∧ transitive r = lookupNodes graph names ∧
      (∀ d, d ∈ names -> tc (follows node_dependents graph) name d)).
Proof.
  split.
  - unfold getContractDependencies, getTransitiveDependencies.
    destruct (findNodeByName graph name) as [node |].
    + destruct (traverse_from_start node_dependencies graph name)
        as (visited & tr & Hrun & Hmono & Hnd & Hlook & Hreach).
      exists {| direct := lookupNodes graph (node_dependencies node); transitive := tr |},
             visited.
      rewrite Hrun. split; [reflexivity |].
      split; [intros fuel Hle; now rewrite (Hmono fuel Hle) |].
      split; [exact Hnd |]. split; [exact Hlook | exact Hreach].
    + exists {| direct := []; transitive := [] |}, [].
      split; [reflexivity |]. split; [reflexivity |]. split; [constructor |].
      split; [reflexivity |]. intros d Hd. now apply elem_of_nil in Hd.
  - unfold getContractDependents, getTransitiveDependents.
    destruct (findNodeByName graph name) as [node |].
    + destruct (traverse_from_start node_dependents graph name)
        as (visited & tr & Hrun & Hmono & Hnd & Hlook & Hreach).
      exists {| direct := lookupNodes graph (node_dependents node); transitive := tr |},
             visited.
      rewrite Hrun. split; [reflexivity |].
      split; [intros fuel Hle; now rewrite (Hmono fuel Hle) |].
      split; [exact Hnd |]. split; [exact Hlook | exact Hreach].
    + exists {| direct := []; transitive := [] |}, [].
      split; [reflexivity |]. split; [reflexivity |]. split; [constructor |].
      split; [reflexivity |]. intros d Hd. now apply elem_of_nil in Hd.
Qed.

(** ** Queries on a built graph *)

Lemma namedByKey_coherent graph : Forall namedByKey (nodes graph) -> coherent graph.
Proof.
  intros Hall d. unfold findNodeByName, JsMap.values.
  induction Hall as [| [k n] m Hk _ IH]; simpl; [reflexivity |].
  unfold namedByKey in Hk. simpl in Hk. rewrite Hk.
  case_bool_decide as Hkd; case_decide as Hdk; first [congruence | exact IH].
Qed.

Lemma tc_closed {A : Type} (R : relation A) (Q : A -> Prop) x :
  (∀ y, R x y -> Q y) -> (∀ y z, Q y -> R y z -> Q z) -> ∀ z, tc R x z -> Q z.
Proof.
  intros Hfirst Hstep z Htc. eapply tc_ind_r; [| | exact Htc]; simpl; eauto.
Qed.

Lemma tc_equiv {A : Type} (R R' : relation A) x y :
  (∀ a b, R a b -> R' a b) -> tc R x y -> tc R' x y.
Proof.
  intros H. induction 1 as [a b Hab | a b c Hab _ IH].
  - apply tc_once. auto.
  - eapply tc_l; [apply H, Hab | exact IH].
Qed.

Lemma tc_inverse {A : Type} (R R' : relation A) x y :
  (∀ a b, R a b -> R' b a) -> tc R x y -> tc R' y x.
Proof.
  intros H. induction 1 as [a b Hab | a b c Hab _ IH].
  - apply tc_once. auto.
  - eapply tc_r; [exact IH | apply H, Hab].
Qed.

Lemma lookupNodes_elem_of graph l n :
  n ∈ lookupNodes graph l ↔ ∃ d, d ∈ l ∧ JsMap.get d (nodes graph) = Some n.
Proof. unfold lookupNodes. apply list_elem_of_omap. Qed.

Lemma lookupNodes_names graph l :
  Forall namedByKey (nodes graph) ->
  (∀ d, d ∈ l -> d ∈ JsMap.keys (nodes graph)) ->
  map node_name (lookupNodes graph l) = l.
Proof.
  intros Hnamed. unfold lookupNodes. induction l as [| d l IH]; intros Hl; [reflexivity |].
  simpl. destruct (get_is_Some_keys d (nodes graph) (Hl d ltac:(left))) as [n Hn].
  rewrite Hn. simpl. rewrite (namedByKey_get _ _ _ Hnamed Hn). f_equal.
  apply IH. intros d' Hd'. apply Hl. now right.
Qed.

(** The traversal of a coherent graph visits the names reached along
    the adjacency, and no other. *)
Lemma traverse_exact adj graph name visited transitive_ fuel :
  coherent graph ->
  traverse fuel adj graph name ([], []) = Some (visited, transitive_) ->
  ∀ d, d ∈ visited ↔ tc (follows adj graph) name d.
Proof.
  intros Hco Hrun d. split.
  - apply (traverse_sound adj graph name _ _ _ _ Hrun); [constructor |].
    intros x Hx. now apply elem_of_nil in Hx.
  - destruct (traverse_closed adj graph fuel Hco name [] _ _ Hrun)
      as (Hclosed & Hfirst & _).
    { intros x n Hx. now apply elem_of_nil in Hx. }
    simpl in *.
    assert (Hstep : ∀ a b, a ∈ visited -> follows adj graph a b -> b ∈ visited).
    { intros a b Ha (n & Hn & Hb). rewrite Hco in Hn.
      exact (Hclosed a n Ha (not_elem_of_nil _) Hn b Hb). }
    intros Htc.
    apply (tc_closed (follows adj graph) (fun z => z ∈ visited) name); [| | exact Htc].
    + intros y (n & Hn & Hb). exact (Hfirst n _ Hn Hb).
    + intros y z Hy Hyz. exact (Hstep y z Hy Hyz).
Qed.

Lemma coherent_follows adj graph a b :
  coherent graph ->
  (follows adj graph a b ↔ ∃ n, JsMap.get a (nodes graph) = Some n ∧ b ∈ adj n).
Proof. intros Hco. unfold follows. now rewrite Hco. Qed.

(** X8.  In a built graph the transitive dependencies of a contract are
    the nodes that it reaches along one or more dependencies, each once;
    its direct dependencies are the nodes of its [dependencies] array,
    name for name, and they are among the transitive ones. *)
Theorem transitive_dependencies_exact (P : Platform)
    (contracts : list ContractMetadata) (opts : DependencyDetectionOptions)
    (now : Z) (svc svc' : DetectionService) (g : DependencyGraph) (name : string) :
  buildDependencyGraph P contracts opts now svc = (Ok g, svc') ->
  ∃ r,
    getContractDependencies (traverseFuel node_dependencies g) g name = Some r ∧
    NoDup (transitive r) ∧
    (∀ n, n ∈ transitive r
          ↔ ∃ d, tc (dependsOn (nodes g)) name d ∧ JsMap.get d (nodes g) = Some n) ∧
    (∀ node, JsMap.get name (nodes g) = Some node ->
             map node_name (direct r) = node_dependencies node) ∧
    (∀ n, n ∈ direct r -> n ∈ transitive r).
Proof.
  intros Hbuild.
  destruct (buildDependencyGraph_Ok_graph _ _ _ _ _ _ _ Hbuild) as (res & i & Hg).
  assert (Hnamed : Forall namedByKey (nodes g)).
  { subst g. apply buildNodes_namedByKey. }
  pose proof (namedByKey_coherent g Hnamed) as Hco.
  assert (Hkeys : ∀ k n x, JsMap.get k (nodes g) = Some n ->
                           x ∈ node_dependencies n -> x ∈ JsMap.keys (nodes g)).
  { subst g. simpl. intros k n x Hn Hx. rewrite buildNodes_keys.
    destruct (buildNodes_relations contracts
                (buildEnhancedEdges (res_edges res) i contracts) k x) as [Hd _].
    destruct (proj1 Hd (ex_intro _ n (conj Hn Hx))) as (e & _ & Hlink).
    exact (proj2 (edgeLinks_names _ _ _ _ Hlink)). }
  assert (Hrel : ∀ a b, follows node_dependencies g a b ↔ dependsOn (nodes g) a b).
  { intros a b. now apply coherent_follows. }
  unfold getContractDependencies, getTransitiveDependencies. rewrite Hco.
  destruct (JsMap.get name (nodes g)) as [node |] eqn:Hnode.
  - destruct (traverse_from_start node_dependencies g name)
      as (visited & tr & Hrun & _ & Hnd & Hlook & _).
    pose proof (traverse_exact _ _ _ _ _ _ Hco Hrun) as Hexact.
    rewrite Hrun. simpl. eexists. split; [reflexivity |]. simpl.
    assert (Hvis : ∀ d, d ∈ visited -> d ∈ JsMap.keys (nodes g)).
    { intros d Hd. apply Hexact in Hd.
      apply (tc_closed (follows node_dependencies g)
               (fun z => z ∈ JsMap.keys (nodes g)) name); [| | exact Hd].
      - intros y Hy. apply Hrel in Hy as (n & Hn & Hx). eauto.
      - intros y z _ Hy. apply Hrel in Hy as (n & Hn & Hx). eauto. }
    assert (Htrans : ∀ n, n ∈ tr ↔ ∃ d, tc (dependsOn (nodes g)) name d ∧
                                        JsMap.get d (nodes g) = Some n).
    { intros n. rewrite Hlook, lookupNodes_elem_of. split.
      - intros (d & Hd & Hn). exists d. split; [| assumption].
        apply Hexact in Hd. exact (tc_equiv _ _ _ _ (fun a b => proj1 (Hrel a b)) Hd).
      - intros (d & Hd & Hn). exists d. split; [| assumption].
        apply Hexact. exact (tc_equiv _ _ _ _ (fun a b => proj2 (Hrel a b)) Hd). }
    split; [| split; [exact Htrans | split]].
    + apply (NoDup_fmap_1 node_name).
      change (node_name <$> tr) with (map node_name tr).
      rewrite Hlook, lookupNodes_names; assumption.
    + intros node' [= <-]. apply lookupNodes_names; [assumption |].
      intros d Hd. exact (Hkeys _ _ _ Hnode Hd).
    + intros n Hn. apply lookupNodes_elem_of in Hn as (d & Hd & Hn).
      apply Htrans. exists d. split; [| assumption].
      apply tc_once. exists node. auto.
  - exists {| direct := []; transitive := [] |}. split; [reflexivity |]. simpl.
    split; [constructor |]. split; [| split; [discriminate |]].
    + intros n. split; [intros Hn; now apply elem_of_nil in Hn |].
      intros (d & Hd & _). exfalso.
      apply (tc_closed (dependsOn (nodes g)) (fun _ => False) name) with d;
        [| | exact Hd].
      * intros y (n' & Hn' & _). congruence.
      * intros y z Hf _. exact Hf.
    + intros n Hn. now apply elem_of_nil in Hn.
Qed.

Lemma transitive_dependencies_exact_witness :
  ∃ r,
    getContractDependencies (traverseFuel node_dependencies chainGraph) chainGraph
      "contract-a" = Some r ∧
    NoDup (transitive r) ∧
    (∀ n, n ∈ transitive r
          ↔ ∃ d, tc (dependsOn (nodes chainGraph)) "contract-a" d ∧
                 JsMap.get d (nodes chainGraph) = Some n) ∧
    (∀ node, JsMap.get "contract-a" (nodes chainGraph) = Some node ->
             map node_name (direct r) = node_dependencies node) ∧
    (∀ n, n ∈ direct r -> n ∈ transitive r).
Proof.
  exact (transitive_dependencies_exact (fixedResolver (Ok chainResolution))
           chainContracts withoutImports 1000 newService
           {| cachedGraph := Some chainGraph; lastScanTime := 1000 |} chainGraph
           "contract-a" eq_refl).
Defined.

(** X9.  In a built graph the transitive dependents of a contract are the
    nodes that reach it along one or more dependencies, each once; its
    direct dependents are the nodes of its [dependents] array, name for
    name, and they are among the transitive ones. *)
Theorem transitive_dependents_exact (P : Platform)
    (contracts : list ContractMetadata) (opts : DependencyDetectionOptions)
    (now : Z) (svc svc' : DetectionService) (g : DependencyGraph) (name : string) :
  buildDependencyGraph P contracts opts now svc = (Ok g, svc') ->
  ∃ r,
    getContractDependents (traverseFuel node_dependents g) g name = Some r ∧
    NoDup (transitive r) ∧
    (∀ n, n ∈ transitive r
          ↔ ∃ d, tc (dependsOn (nodes g)) d name ∧ JsMap.get d (nodes g) = Some n) ∧
    (∀ node, JsMap.get name (nodes g) = Some node ->
             map node_name (direct r) = node_dependents node) ∧
    (∀ n, n ∈ direct r -> n ∈ transitive r).
Proof.
  intros Hbuild.
  destruct (buildDependencyGraph_Ok_graph _ _ _ _ _ _ _ Hbuild) as (res & i & Hg).
  assert (Hnamed : Forall namedByKey (nodes g)).
  { subst g. apply buildNodes_namedByKey. }
  pose proof (namedByKey_coherent g Hnamed) as Hco.
  assert (Hmirror : ∀ a b, dependentOf (nodes g) b a ↔ dependsOn (nodes g) a b).
  { subst g. simpl. intros a b.
    destruct (buildNodes_relations contracts
                (buildEnhancedEdges (res_edges res) i contracts) a b) as [Hd Hr].
    now rewrite Hd, Hr. }
  assert (Hkeys : ∀ k n x, JsMap.get k (nodes g) = Some n ->
                           x ∈ node_dependents n -> x ∈ JsMap.keys (nodes g)).
  { subst g. simpl. intros k n x Hn Hx. rewrite buildNodes_keys.
    destruct (buildNodes_relations contracts
                (buildEnhancedEdges (res_edges res) i contracts) x k) as [_ Hr].
    destruct (proj1 Hr (ex_intro _ n (conj Hn Hx))) as (e & _ & Hlink).
    exact (proj1 (edgeLinks_names _ _ _ _ Hlink)). }
  assert (Hrel : ∀ a b, follows node_dependents g a b ↔ dependsOn (nodes g) b a).
  { intros a b. rewrite <- Hmirror. now apply coherent_follows. }
  unfold getContractDependents, getTransitiveDependents. rewrite Hco.
  destruct (JsMap.get name (nodes g)) as [node |] eqn:Hnode.
  - destruct (traverse_from_start node_dependents g name)
      as (visited & tr & Hrun & _ & Hnd & Hlook & _).
    pose proof (traverse_exact _ _ _ _ _ _ Hco Hrun) as Hexact.
    rewrite Hrun. simpl. eexists. split; [reflexivity |]. simpl.
    assert (Hvis : ∀ d, d ∈ visited -> d ∈ JsMap.keys (nodes g)).
    { intros d Hd. apply Hexact in Hd.
      apply (tc_closed (follows node_dependents g)
               (fun z => z ∈ JsMap.keys (nodes g)) name); [| | exact Hd].
      - intros y (n & Hn & Hx). rewrite Hco in Hn. eauto.
      - intros y z _ (n & Hn & Hx). rewrite Hco in Hn. eauto. }
    assert (Htrans : ∀ n, n ∈ tr ↔ ∃ d, tc (dependsOn (nodes g)) d name ∧
                                        JsMap.get d (nodes g) = Some n).
    { intros n. rewrite Hlook, lookupNodes_elem_of. split.
      - intros (d & Hd & Hn). exists d. split; [| assumption].
        apply Hexact in Hd. exact (tc_inverse _ _ _ _ (fun a b => proj1 (Hrel a b)) Hd).
      - intros (d & Hd & Hn). exists d. split; [| assumption].
        apply Hexact. exact (tc_inverse _ _ _ _ (fun a b => proj2 (Hrel b a)) Hd). }
    split; [| split; [exact Htrans | split]].
    + apply (NoDup_fmap_1 node_name).
      change (node_name <$> tr) with (map node_name tr).
      rewrite Hlook, lookupNodes_names; assumption.
    + intros node' [= <-]. apply lookupNodes_names; [assumption |].
      intros d Hd. exact (Hkeys _ _ _ Hnode Hd).
    + intros n Hn. apply lookupNodes_elem_of in Hn as (d & Hd & Hn).
      apply Htrans. exists d. split; [| assumption].
      apply tc_once. apply Hmirror. exists node. auto.
  - exists {| direct := []; transitive := [] |}. split; [reflexivity |]. simpl.
    split; [constructor |]. split; [| split; [discriminate |]].
    + intros n. split; [intros Hn; now apply elem_of_nil in Hn |].
      intros (d & Hd & _).
      apply (tc_inverse _ (dependentOf (nodes g))) in Hd;
        [| intros a b; apply Hmirror].
      exfalso.
      apply (tc_closed (dependentOf (nodes g)) (fun _ => False) name) with d;
        [| | exact Hd].
      * intros y (n' & Hn' & _). congruence.
      * intros y z Hf _. exact Hf.
    + intros n Hn. now apply elem_of_nil in Hn.
Qed.

Lemma transitive_dependents_exact_witness :
  ∃ r,
    getContractDependents (traverseFuel node_dependents chainGraph) chainGraph
      "contract-c" = Some r ∧
    NoDup (transitive r) ∧
    (∀ n, n ∈ transitive r
          ↔ ∃ d, tc (dependsOn (nodes chainGraph)) d "contract-c" ∧
                 JsMap.get d (nodes chainGraph) = Some n) ∧
    (∀ node, JsMap.get "contract-c" (nodes chainGraph) = Some node ->
             map node_name (direct r) = node_dependents node) ∧
    (∀ n, n ∈ direct r -> n ∈ transitive r).
Proof.
  exact (transitive_dependents_exact (fixedResolver (Ok chainResolution))
           chainContracts withoutImports 1000 newService
           {| cachedGraph := Some chainGraph; lastScanTime := 1000 |} chainGraph
           "contract-c" eq_refl).
Defined.

(** On the two contracts that depend on each other, each is among its
    own transitive dependencies. *)
Example transitive_dependencies_on_cycle :
  option_map (fun r => map node_name (transitive r))
    (getContractDependencies 3 (assembleGraph cycleContracts cycleResolution [])
       "contract-a")
  = Some ["contract-b"; "contract-a"].
Proof. vm_compute. reflexivity. Qed.

(** ** Edge merger: what every edge carries *)

Lemma edgeWellFormed_more contracts imports_ imp ke :
  edgeWellFormed contracts imports_ ke ->
  edgeWellFormed contracts (imports_ ++ [imp]) ke.
Proof.
  intros (Hext & Hsrc & Himps & Himp). split; [assumption |]. split; [assumption |].
  split; [| assumption]. intros imps Hi. destruct (Himps imps Hi) as [Hne Hall].
  split; [assumption |]. intros i Hin. destruct (Hall i Hin).
  split; [apply elem_of_app; now left | assumption].
Qed.

Lemma addCargoEdge_wellFormed contracts imports_ byPath m edge :
  Forall (edgeWellFormed contracts imports_) m ->
  Forall (edgeWellFormed contracts imports_) (addCargoEdge byPath m edge).
Proof.
  intros Hm. apply Forall_set; [assumption |].
  split; [reflexivity |]. split; [split; reflexivity |]. split; discriminate.
Qed.

Lemma addImport_wellFormed contracts imports_ m imp :
  Forall (edgeWellFormed contracts imports_) m ->
  Forall (edgeWellFormed contracts (imports_ ++ [imp]))
         (addImport (contractByName contracts) m imp).
Proof.
  intros Hm.
  assert (Hm' : Forall (edgeWellFormed contracts (imports_ ++ [imp])) m).
  { eapply Forall_impl; [exact Hm |]. intros ke. apply edgeWellFormed_more. }
  unfold addImport.
  destruct (JsMap.get (toLowerCase (sourceContract imp)) _) as [src |] eqn:Hs;
    [| assumption].
  destruct (JsMap.get (toLowerCase (importedModule imp)) _) as [tgt |] eqn:Ht;
    [| assumption].
  assert (Hres : resolvesTo contracts imp (edgeKey (cargoTomlPath src) (cargoTomlPath tgt)))
    by (exists src, tgt; auto).
  assert (Hlast : imp ∈ (imports_ ++ [imp])%list) by (apply elem_of_app; right; left).
  destruct (JsMap.get _ m) as [existing |] eqn:Hget.
  - apply Forall_mutate; [assumption |].
    intros v _ (Hext & Hsrc & Himps & Himp). simpl in *.
    split; [assumption |]. split; [split; discriminate |]. split; [| discriminate].
    intros imps [= <-]. split; [now destruct (default [] (edge_imports v)) |].
    intros i Hi. apply elem_of_app in Hi as [Hi | Hi].
    + destruct (edge_imports v) as [old |] eqn:Hold; [| now apply elem_of_nil in Hi].
      exact (proj2 (Himps old eq_refl) i Hi).
    + apply list_elem_of_singleton in Hi as ->. auto.
  - apply Forall_set; [assumption |].
    split; [reflexivity |]. split; [split; discriminate |]. split; [| now split].
    simpl. intros imps [= <-]. split; [discriminate |].
    intros i Hi. apply list_elem_of_singleton in Hi as ->. auto.
Qed.

Lemma enhancedEdgeMap_wellFormed cargoEdges imports_ contracts :
  Forall (edgeWellFormed contracts imports_) (enhancedEdgeMap cargoEdges imports_ contracts).
Proof.
  unfold enhancedEdgeMap.
  assert (Hcargo : Forall (edgeWellFormed contracts [])
                     (fold_left (addCargoEdge (contractByPath contracts)) cargoEdges [])).
  { apply (fold_left_invariant (Forall _)); [| constructor].
    intros; now apply addCargoEdge_wellFormed. }
  revert Hcargo. generalize (fold_left (addCargoEdge (contractByPath contracts)) cargoEdges []).
  induction imports_ as [| imp imports_ IH] using rev_ind; intros m Hm; [exact Hm |].
  rewrite fold_left_app. simpl. apply addImport_wellFormed. now apply IH.
Qed.

(** X10.  Every edge returned by [buildEnhancedEdges] is marked as not
    external.  It has no supporting imports exactly when its source is
    [cargo]; otherwise its supporting imports are a non-empty list of
    records of the input, each naming two contracts whose pair has the key
    of the edge.  An edge of source [import] has the reason ["workspace"]
    and no Cargo metadata. *)
Theorem edges_carry_their_evidence (cargoEdges : list DependencyEdge)
    (imports_ : list ImportDependency) (contracts : list ContractMetadata)
    (e : EnhancedDependencyEdge) :
  e ∈ buildEnhancedEdges cargoEdges imports_ contracts ->
  edge_isExternal e = false ∧
  (edge_source e = cargo ↔ edge_imports e = None) ∧
  (∀ imps, edge_imports e = Some imps ->
           imps ≠ [] ∧
           ∀ imp, imp ∈ imps ->
                  imp ∈ imports_ ∧
                  resolvesTo contracts imp (edgeKey (edge_from e) (edge_to e))) ∧
  (edge_source e = import ->
   edge_reason e = "workspace" ∧ edge_cargoMetadata e = None).
Proof.
  intros He. apply values_elem_of in He as [k He].
  pose proof (enhancedEdgeMap_wellFormed cargoEdges imports_ contracts) as Hwf.
  pose proof (enhancedEdgeMap_keyed cargoEdges imports_ contracts) as Hkeyed.
  rewrite Forall_forall in Hwf, Hkeyed.
  destruct (Hwf _ He) as (Hext & Hsrc & Himps & Himp).
  specialize (Hkeyed _ He). unfold keyedByPair in Hkeyed. simpl in *.
  rewrite <- Hkeyed. auto.
Qed.

Lemma edges_carry_their_evidence_witness :
  edge_isExternal (confirmEdge secondImport (importEdge alpha beta firstImport)) = false ∧
  (edge_source (confirmEdge secondImport (importEdge alpha beta firstImport)) = cargo
   ↔ edge_imports (confirmEdge secondImport (importEdge alpha beta firstImport)) = None) ∧
  (∀ imps,
      edge_imports (confirmEdge secondImport (importEdge alpha beta firstImport))
      = Some imps ->
      imps ≠ [] ∧
      ∀ imp, imp ∈ imps ->
             imp ∈ [firstImport; secondImport] ∧
             resolvesTo [alpha; beta] imp
               (edgeKey (edge_from (confirmEdge secondImport
                                      (importEdge alpha beta firstImport)))
                        (edge_to (confirmEdge secondImport
                                    (importEdge alpha beta firstImport))))) ∧
  (edge_source (confirmEdge secondImport (importEdge alpha beta firstImport)) = import ->
   edge_reason (confirmEdge secondImport (importEdge alpha beta firstImport))
   = "workspace" ∧
   edge_cargoMetadata (confirmEdge secondImport (importEdge alpha beta firstImport))
   = None).
Proof.
  apply (edges_carry_their_evidence [] [firstImport; secondImport] [alpha; beta]).
  vm_compute. left.
Defined.

(** ** Edge merger: declared edges and unresolved imports *)







(** ** The import patterns *)

Lemma string_app_cons (x : ascii) (a b : string) :
  (String x a ++ b)%string = String x (a ++ b)%string.
Proof. reflexivity. Qed.























(** ** The records of one file *)

Lemma parseLine_lineNumber f c i l imp :
  parseLine f c i l = Some imp -> lineNumber imp = i.
Proof.
  unfold parseLine.
  destruct (match_use _); [now intros [= <-] |].
  destruct (match_extern_crate _); [now intros [= <-] |].
  destruct (match_mod _); [now intros [= <-] | discriminate].
Qed.

Lemma parseLines_elem_of f c lines imp :
  ∀ i, imp ∈ parseLines f c i lines
       ↔ ∃ (k : nat) raw, lines !! k = Some raw ∧
                          parseLine f c (i + Z.of_nat k + 1) raw = Some imp.
Proof.
  induction lines as [| l lines IH]; intros i; simpl.
  - split; [intros H; now apply elem_of_nil in H | now intros (k & raw & [=] & _)].
  - assert (Hrest : imp ∈ parseLines f c (i + 1) lines
                    ↔ ∃ (k : nat) raw, lines !! k = Some raw ∧
                        parseLine f c (i + Z.of_nat (S k) + 1) raw = Some imp).
    { rewrite IH. split; intros (k & raw & Hk & Hp); exists k, raw; split; auto.
      - now replace (i + Z.of_nat (S k) + 1) with (i + 1 + Z.of_nat k + 1) by lia.
      - now replace (i + 1 + Z.of_nat k + 1) with (i + Z.of_nat (S k) + 1) by lia. }
    split.
    + intros Hin.
      destruct (parseLine f c (i + 1) l) as [imp' |] eqn:Hl.
      * apply elem_of_cons in Hin as [-> | Hin].
        -- exists 0%nat, l. split; [reflexivity |]. now rewrite Z.add_0_r.
        -- apply Hrest in Hin as (k & raw & Hk & Hp). now exists (S k), raw.
      * apply Hrest in Hin as (k & raw & Hk & Hp). now exists (S k), raw.
    + intros (k & raw & Hk & Hp). destruct k as [| k].
      * simpl in Hk. injection Hk as ->. rewrite Z.add_0_r in Hp. rewrite Hp. left.
      * assert (Hin : imp ∈ parseLines f c (i + 1) lines) by (apply Hrest; eauto).
        destruct (parseLine f c (i + 1) l); [now right | assumption].
Qed.

Lemma parseLines_sorted f c lines :
  ∀ i, StronglySorted Z.lt (map lineNumber (parseLines f c i lines)) ∧
       Forall (fun imp => i < lineNumber imp) (parseLines f c i lines) ∧
       (length (parseLines f c i lines) <= length lines)%nat.
Proof.
  induction lines as [| l lines IH]; intros i; simpl.
  - repeat split; constructor.
  - destruct (IH (i + 1)) as (Hs & Hlt & Hlen).
    assert (Hlt' : Forall (fun imp => i < lineNumber imp) (parseLines f c (i + 1) lines)).
    { eapply Forall_impl; [exact Hlt |]. simpl. intros; lia. }
    destruct (parseLine f c (i + 1) l) as [imp |] eqn:Hl.
    + apply parseLine_lineNumber in Hl. simpl. split; [| split; [| lia]].
      * constructor; [assumption |]. rewrite Hl.
        clear -Hlt. induction Hlt as [| imp' rest Himp' _ IHrest]; simpl;
          constructor; [lia | assumption].
      * constructor; [lia | assumption].
    + split; [assumption |]. split; [assumption | lia].
Qed.

(** X13.  [parseImportsFromFile] returns, in the order of the lines, the
    records of the lines of the file that read as an import: the line
    numbers count from 1 and increase strictly along the result, so no line
    gives two records, and a file that cannot be read gives none. *)
Theorem file_imports_in_line_order (P : Platform)
    (filePath contractName_ cargoTomlPath_ : string) :
  StronglySorted Z.lt
    (map lineNumber (parseImportsFromFile P filePath contractName_ cargoTomlPath_)) ∧
  (∀ imp,
      imp ∈ parseImportsFromFile P filePath contractName_ cargoTomlPath_
      ↔ ∃ content (k : nat) raw,
          readFileSync P filePath = Ok content ∧
          split_lines content !! k = Some raw ∧
          parseLine filePath contractName_ (Z.of_nat k + 1) raw = Some imp) ∧
  (∀ content,
      readFileSync P filePath = Ok content ->
      (length (parseImportsFromFile P filePath contractName_ cargoTomlPath_)
       <= length (split_lines content))%nat).
Proof.
  unfold parseImportsFromFile.
  destruct (readFileSync P filePath) as [content | err] eqn:Hread.
  - destruct (parseLines_sorted filePath contractName_ (split_lines content) 0)
      as (Hs & _ & Hlen).
    split; [assumption |]. split.
    + intros imp. rewrite parseLines_elem_of. simpl. split.
      * intros (k & raw & Hk & Hp). now exists content, k, raw.
      * intros (content' & k & raw & [= <-] & Hk & Hp). now exists k, raw.
    + now intros content' [= <-].
  - split; [constructor |]. split; [| discriminate].
    intros imp. split; [intros H; now apply elem_of_nil in H |].
    now intros (content & k & raw & [=] & _).
Qed.

(** ** Import scanner: depth and skipped directories *)

Lemma sublist_flat_map {A B : Type} (f g : A -> list B) (l : list A) :
  (∀ a, a ∈ l -> f a `sublist_of` g a) ->
  flat_map f l `sublist_of` flat_map g l.
Proof.
  induction l as [| a l IH]; intros Hfg; simpl; [constructor |].
  apply sublist_app; [apply Hfg; left |].
  apply IH. intros b Hb. apply Hfg. now right.
Qed.

Lemma findSourceFiles_from_deeper P extensions remaining :
  ∀ dir, findSourceFiles_from P remaining dir extensions
         `sublist_of` findSourceFiles_from P (S remaining) dir extensions.
Proof.
  induction remaining as [| r IH]; intros dir; [apply sublist_nil_l |].
  change (findSourceFiles_from P (S (S r)) dir extensions)
    with (match readdirSync P dir with
          | Throw _ => []
          | Ok entries =>
              flat_map (entryFiles P (fun d => findSourceFiles_from P (S r) d extensions)
                          dir extensions) entries
          end).
  simpl. destruct (readdirSync P dir) as [entries | e]; [| constructor].
  apply sublist_flat_map. intros entry _. unfold entryFiles.
  destruct (dirent_kind entry); [reflexivity | | reflexivity].
  destruct (includes _ _); [reflexivity | apply IH].
Qed.

Lemma findSourceFiles_from_mono P extensions dir (r r' : nat) :
  (r <= r')%nat ->
  findSourceFiles_from P r dir extensions
  `sublist_of` findSourceFiles_from P r' dir extensions.
Proof.
  induction 1 as [| r' _ IH]; [reflexivity |].
  etransitivity; [exact IH | apply findSourceFiles_from_deeper].
Qed.

(** X14.  Raising [maxDepth] only adds files: the files that
    [findSourceFiles] returns for a depth limit are, in the same order,
    among those it returns for any larger limit; and a call whose current
    depth exceeds the limit returns nothing. *)
Theorem deeper_scan_finds_more (P : Platform) (dir : string) (extensions : list string)
    (maxDepth_ maxDepth' currentDepth : Z) :
  maxDepth_ <= maxDepth' ->
  findSourceFiles P dir extensions maxDepth_ currentDepth
  `sublist_of` findSourceFiles P dir extensions maxDepth' currentDepth ∧
  (maxDepth' < currentDepth ->
   findSourceFiles P dir extensions maxDepth' currentDepth = []).
Proof.
  intros Hle. split.
  - unfold findSourceFiles. apply findSourceFiles_from_mono. lia.
  - intros Hlt. unfold findSourceFiles.
    now replace (Z.to_nat (maxDepth' - currentDepth + 1)) with O by lia.
Qed.

Lemma deeper_scan_finds_more_witness :
  findSourceFiles sampleFs "/ws/alpha" [".rs"] 1 0
  `sublist_of` findSourceFiles sampleFs "/ws/alpha" [".rs"] 3 0 ∧
  (3 < 0 -> findSourceFiles sampleFs "/ws/alpha" [".rs"] 3 0 = []).
Proof. apply (deeper_scan_finds_more sampleFs "/ws/alpha" [".rs"] 1 3 0). lia. Defined.

Lemma flat_map_filter_nil {A B : Type} (p : A -> bool) (f : A -> list B) (l : list A) :
  (∀ a, p a = false -> f a = []) ->
  flat_map f (List.filter p l) = flat_map f l.
Proof.
  intros Hf. induction l as [| a l IH]; simpl; [reflexivity |].
  destruct (p a) eqn:Hp; simpl; [now rewrite IH |].
  now rewrite (Hf a Hp), IH.
Qed.

Lemma flat_map_ext_all {A B : Type} (f g : A -> list B) (l : list A) :
  (∀ a, f a = g a) -> flat_map f l = flat_map g l.
Proof.
  intros Hfg. induction l as [| a l IH]; simpl; [reflexivity |].
  now rewrite Hfg, IH.
Qed.

(** X15.  [findSourceFiles] never enters a directory named [target],
    [node_modules], [.git] or [out], and passes over entries that are
    neither files nor directories: hiding them from every listing changes
    no result, whatever those directories hold, and with no extension to
    look for nothing is found. *)
Theorem skipped_directories_ignored (P : Platform) (dir : string)
    (extensions : list string) (maxDepth_ currentDepth : Z) :
  findSourceFiles (withoutSkipped P) dir extensions maxDepth_ currentDepth
  = findSourceFiles P dir extensions maxDepth_ currentDepth ∧
  findSourceFiles P dir [] maxDepth_ currentDepth = [].
Proof.
  unfold findSourceFiles.
  generalize (Z.to_nat (maxDepth_ - currentDepth + 1)). intros remaining. split.
  - revert dir. induction remaining as [| r IH]; intros dir; [reflexivity |].
    simpl. destruct (readdirSync P dir) as [entries | e]; [| reflexivity].
    rewrite flat_map_filter_nil.
    + apply flat_map_ext_all. intros entry. unfold entryFiles. simpl.
      destruct (dirent_kind entry); [reflexivity | | reflexivity].
      destruct (includes _ _); [reflexivity | apply IH].
    + intros entry. unfold entered, entryFiles.
      destruct (dirent_kind entry); [discriminate | | reflexivity].
      now destruct (includes _ _).
  - revert dir. induction remaining as [| r IH]; intros dir; [reflexivity |].
    simpl. destruct (readdirSync P dir) as [entries | e]; [| reflexivity].
    induction entries as [| entry entries IHe]; [reflexivity |].
    simpl. rewrite IHe, app_nil_r. unfold entryFiles.
    destruct (dirent_kind entry); [reflexivity | | reflexivity].
    destruct (includes _ _); [reflexivity | apply IH].
Qed.

(** ** The watcher: events *)

Lemma sameRegistration_refl w : sameRegistration w w.
Proof. now repeat split. Qed.

Lemma sameRegistration_trans w1 w2 w3 :
  sameRegistration w1 w2 -> sameRegistration w2 w3 -> sameRegistration w1 w3.
Proof.
  unfold sameRegistration. intros (? & ? & ? & ? & ? & ?) (? & ? & ? & ? & ? & ?).
  repeat split; congruence.
Qed.

Lemma callListener_fields event w l :
  delivered (callListener event w l) = (delivered w ++ callsOf event [l])%list ∧
  outputChannel (callListener event w l)
  = (outputChannel w ++ listenerErrors event [l])%list ∧
  sameRegistration w (callListener event w l) ∧
  debounceTimer (callListener event w l) = debounceTimer w ∧
  pendingChanges (callListener event w l) = pendingChanges w ∧
  dependencyService (callListener event w l) = dependencyService w.
Proof.
  unfold callListener, listenerErrors. simpl.
  destruct (listener_throws l event); simpl; rewrite ?app_nil_r; now repeat split.
Qed.

Lemma callListeners_fields event ls :
  ∀ w,
    delivered (fold_left (callListener event) ls w)
    = (delivered w ++ callsOf event ls)%list ∧
    outputChannel (fold_left (callListener event) ls w)
    = (outputChannel w ++ listenerErrors event ls)%list ∧
    sameRegistration w (fold_left (callListener event) ls w) ∧
    debounceTimer (fold_left (callListener event) ls w) = debounceTimer w ∧
    pendingChanges (fold_left (callListener event) ls w) = pendingChanges w ∧
    dependencyService (fold_left (callListener event) ls w) = dependencyService w.
Proof.
  induction ls as [| l ls IH]; intros w.
  - simpl. rewrite !app_nil_r. auto 10 using sameRegistration_refl.
  - destruct (IH (callListener event w l)) as (Hd & Ho & Hr & Ht & Hp & Hs).
    destruct (callListener_fields event w l) as (Hd1 & Ho1 & Hr1 & Ht1 & Hp1 & Hs1).
    change (fold_left (callListener event) (l :: ls) w)
      with (fold_left (callListener event) ls (callListener event w l)).
    split; [rewrite Hd, Hd1, <- app_assoc; reflexivity |].
    split; [rewrite Ho, Ho1, <- app_assoc; unfold listenerErrors; simpl;
            now rewrite app_nil_r |].
    split; [exact (sameRegistration_trans _ _ _ Hr1 Hr) |].
    split; [congruence |]. split; congruence.
Qed.

Lemma emitChange_fields event w :
  delivered (emitChange event w) = (delivered w ++ callsOf event (changeListeners w))%list ∧
  outputChannel (emitChange event w)
  = (outputChannel w ++ listenerErrors event (changeListeners w))%list ∧
  sameRegistration w (emitChange event w) ∧
  debounceTimer (emitChange event w) = debounceTimer w ∧
  pendingChanges (emitChange event w) = pendingChanges w ∧
  dependencyService (emitChange event w) = dependencyService w.
Proof. apply callListeners_fields. Qed.

Lemma refresh_Ok_build P ct c cs tBuild tEvent w graph svc :
  buildDependencyGraph P (c :: cs) (refreshOptions w) tBuild
    (invalidateCache (dependencyService w)) = (Ok graph, svc) ->
  refresh P ct (Ok (c :: cs)) tBuild tEvent w
  = (Ok tt,
     log "[DependencyWatcher] Dependency graph refreshed successfully"
       (withPending []
          (emitChange
             {| event_type := ct; affectedContracts := pendingChanges w;
                timestamp := tEvent; event_graph := graph |}
             (withService svc
                (withService (invalidateCache (dependencyService w))
                   (log "[DependencyWatcher] Refreshing dependency graph..." w)))))).
Proof.
  intros Hbuild. unfold refresh. cbv zeta.
  change (buildDependencyGraph P (c :: cs) _ tBuild _)
    with (buildDependencyGraph P (c :: cs) (refreshOptions w) tBuild
            (invalidateCache (dependencyService w))).
  rewrite Hbuild. reflexivity.
Qed.

Lemma refresh_Throw_build P ct c cs tBuild tEvent w e svc :
  buildDependencyGraph P (c :: cs) (refreshOptions w) tBuild
    (invalidateCache (dependencyService w)) = (Throw e, svc) ->
  refresh P ct (Ok (c :: cs)) tBuild tEvent w
  = (Throw e,
     log ("[DependencyWatcher] Failed to refresh: " ++ e)
       (withService svc
          (withService (invalidateCache (dependencyService w))
             (log "[DependencyWatcher] Refreshing dependency graph..." w)))).
Proof.
  intros Hbuild. unfold refresh. cbv zeta.
  change (buildDependencyGraph P (c :: cs) _ tBuild _)
    with (buildDependencyGraph P (c :: cs) (refreshOptions w) tBuild
            (invalidateCache (dependencyService w))).
  rewrite Hbuild. reflexivity.
Qed.

(** What a refresh leaves of the watcher, whatever its outcome: the
    registration and the timer; the calls made are none, or one call of
    each listener with one event of the given type that carries the pending
    paths. *)
Lemma refresh_fields P ct scan tBuild tEvent w :
  sameRegistration w (snd (refresh P ct scan tBuild tEvent w)) ∧
  debounceTimer (snd (refresh P ct scan tBuild tEvent w)) = debounceTimer w ∧
  (delivered (snd (refresh P ct scan tBuild tEvent w)) = delivered w ∨
   ∃ event,
     event_type event = ct ∧ affectedContracts event = pendingChanges w ∧
     delivered (snd (refresh P ct scan tBuild tEvent w))
     = (delivered w ++ callsOf event (changeListeners w))%list).
Proof.
  destruct scan as [[| c cs] | err];
    [repeat split; now left | | repeat split; now left].
  destruct (buildDependencyGraph P (c :: cs) (refreshOptions w) tBuild
              (invalidateCache (dependencyService w))) as [[graph | e] svc] eqn:Hbuild.
  - rewrite (refresh_Ok_build _ _ _ _ _ _ _ _ _ Hbuild).
    match goal with |- context [emitChange ?ev ?w0] =>
      destruct (emitChange_fields ev w0) as (Hd & _ & Hr & Ht & _ & _) end.
    simpl. split; [exact Hr |]. split; [exact Ht |]. right.
    eexists. split; [| split; [| exact Hd]]; reflexivity.
  - rewrite (refresh_Throw_build _ _ _ _ _ _ _ _ _ Hbuild).
    repeat split; now left.
Qed.

(** X16.  A refresh that finds contracts and builds their graph returns
    normally after calling every listener once, in the order of
    registration, with one event: its type is the one given, its affected
    contracts are the pending paths, its graph is the one built.  A
    listener that throws is logged and the later ones are still called.
    The pending paths are then cleared, and the graph is the cached one
    while it is fresh. *)
Theorem refresh_publishes_once (P : Platform) (ct : ChangeType)
    (contracts : list ContractMetadata) (tBuild tEvent : Z) (w : Watcher)
    (graph : DependencyGraph) (svc : DetectionService) :
  contracts ≠ [] ->
  buildDependencyGraph P contracts (refreshOptions w) tBuild
    (invalidateCache (dependencyService w)) = (Ok graph, svc) ->
  let event :=
    {| event_type := ct; affectedContracts := pendingChanges w;
       timestamp := tEvent; event_graph := graph |} in
  let r := refresh P ct (Ok contracts) tBuild tEvent w in
  fst r = Ok tt ∧
  delivered (snd r) = (delivered w ++ callsOf event (changeListeners w))%list ∧
  outputChannel (snd r)
  = (outputChannel w
     ++ ["[DependencyWatcher] Refreshing dependency graph..."]
     ++ listenerErrors event (changeListeners w)
     ++ ["[DependencyWatcher] Dependency graph refreshed successfully"])%list ∧
  pendingChanges (snd r) = [] ∧
  sameRegistration w (snd r) ∧
  debounceTimer (snd r) = debounceTimer w ∧
  (∀ maxAge now,
      now - tBuild <= maxAge ->
      getCachedGraph maxAge now (dependencyService (snd r)) = Some graph).
Proof.
  intros Hne Hbuild event r. subst r.
  destruct contracts as [| c cs]; [contradiction |].
  rewrite (refresh_Ok_build _ _ _ _ _ _ _ _ _ Hbuild). fold event.
  match goal with |- context [emitChange event ?w0] =>
    destruct (emitChange_fields event w0) as (Hd & Ho & Hr & Ht & _ & Hs) end.
  simpl in *. split; [reflexivity |]. split; [exact Hd |].
  split; [rewrite Ho, <- !app_assoc; reflexivity |]. split; [reflexivity |].
  split; [exact Hr |]. split; [exact Ht |].
  intros maxAge now Hage. rewrite Hs.
  rewrite (buildDependencyGraph_Ok_service _ _ _ _ _ _ _ Hbuild).
  now apply getCachedGraph_fresh.
Qed.

Lemma refresh_publishes_once_witness :
  let event :=
    {| event_type := modified; affectedContracts := pendingChanges sampleWatcher;
       timestamp := 2001; event_graph := chainGraph |} in
  let r := refresh (fixedResolver (Ok chainResolution)) modified (Ok chainContracts)
             2000 2001 sampleWatcher in
  fst r = Ok tt ∧
  delivered (snd r)
  = (delivered sampleWatcher ++ callsOf event (changeListeners sampleWatcher))%list ∧
  outputChannel (snd r)
  = (outputChannel sampleWatcher
     ++ ["[DependencyWatcher] Refreshing dependency graph..."]
     ++ listenerErrors event (changeListeners sampleWatcher)
     ++ ["[DependencyWatcher] Dependency graph refreshed successfully"])%list ∧
  pendingChanges (snd r) = [] ∧
  sameRegistration sampleWatcher (snd r) ∧
  debounceTimer (snd r) = debounceTimer sampleWatcher ∧
  (∀ maxAge now,
      now - 2000 <= maxAge ->
      getCachedGraph maxAge now (dependencyService (snd r)) = Some chainGraph).
Proof.
  apply (refresh_publishes_once (fixedResolver (Ok chainResolution)) modified
           chainContracts 2000 2001 sampleWatcher chainGraph
           {| cachedGraph := Some chainGraph; lastScanTime := 2000 |}).
  - discriminate.
  - vm_compute. reflexivity.
Defined.

(** ** The watcher: debounce *)

Lemma scheduleRefresh_fields ct path w :
  sameRegistration w (scheduleRefresh ct path w) ∧
  dependencyService (scheduleRefresh ct path w) = dependencyService w ∧
  delivered (scheduleRefresh ct path w) = delivered w ∧
  outputChannel (scheduleRefresh ct path w) = outputChannel w.
Proof. now repeat split. Qed.

Lemma scheduleAll_fields events :
  ∀ w,
    sameRegistration w (scheduleAll events w) ∧
    dependencyService (scheduleAll events w) = dependencyService w ∧
    delivered (scheduleAll events w) = delivered w ∧
    outputChannel (scheduleAll events w) = outputChannel w ∧
    pendingChanges (scheduleAll events w)
    = fold_left (fun s p => JsSet.add p s) (map snd events) (pendingChanges w).
Proof.
  unfold scheduleAll. induction events as [| [ct path] events IH]; intros w; simpl.
  - auto using sameRegistration_refl.
  - destruct (IH (scheduleRefresh ct path w)) as (Hr & Hs & Hd & Ho & Hp).
    split; [| now rewrite Hs, Hd, Ho, Hp].
    eapply sameRegistration_trans; [| exact Hr]. now repeat split.
Qed.

Lemma debounceCallback_fields P ct scan tBuild tEvent w :
  sameRegistration w (debounceCallback P ct scan tBuild tEvent w) ∧
  debounceTimer (debounceCallback P ct scan tBuild tEvent w) = debounceTimer w ∧
  (delivered (debounceCallback P ct scan tBuild tEvent w) = delivered w ∨
   ∃ event,
     event_type event = ct ∧ affectedContracts event = pendingChanges w ∧
     delivered (debounceCallback P ct scan tBuild tEvent w)
     = (delivered w ++ callsOf event (changeListeners w))%list).
Proof.
  unfold debounceCallback. destruct (autoRefresh (options w));
    [| split; [apply sameRegistration_refl | split; [reflexivity | now left]]].
  pose proof (refresh_fields P ct scan tBuild tEvent w) as Hf.
  destruct (refresh P ct scan tBuild tEvent w) as [[[] | e] w']; exact Hf.
Qed.

(** X17.  However many file events arrive before the debounce timer
    expires, one callback runs, for the change type of the last event: its
    refresh makes no call, or calls each listener once with one event of
    that type whose affected contracts are all the paths recorded, each
    once.  A timer that has fired does nothing when it is fired again, and
    scheduling alone calls no listener and leaves the cache alone. *)
Theorem debounce_coalesces (P : Platform) (events : list (ChangeType * string))
    (ct : ChangeType) (path : string) (scan : Result (list ContractMetadata))
    (tBuild tEvent : Z) (w : Watcher) :
  let w1 := scheduleAll (events ++ [(ct, path)]) w in
  let w2 := debounceTimerFires P scan tBuild tEvent w1 in
  debounceTimer w1 = Some {| timer_changeType := ct; timer_armed := true |} ∧
  pendingChanges w1
  = fold_left (fun s p => JsSet.add p s) (map snd events ++ [path]) (pendingChanges w) ∧
  delivered w1 = delivered w ∧
  dependencyService w1 = dependencyService w ∧
  (delivered w2 = delivered w ∨
   ∃ event,
     event_type event = ct ∧ affectedContracts event = pendingChanges w1 ∧
     delivered w2 = (delivered w ++ callsOf event (changeListeners w))%list) ∧
  (∀ scan' tBuild' tEvent', debounceTimerFires P scan' tBuild' tEvent' w2 = w2).
Proof.
  intros w1 w2.
  destruct (scheduleAll_fields (events ++ [(ct, path)]) w) as (Hr & Hs & Hd & _ & Hp).
  fold w1 in Hr, Hs, Hd, Hp.
  assert (Htimer : debounceTimer w1
                   = Some {| timer_changeType := ct; timer_armed := true |}).
  { subst w1. unfold scheduleAll. rewrite fold_left_app. reflexivity. }
  split; [exact Htimer |]. split; [now rewrite Hp, map_app |].
  split; [exact Hd |]. split; [exact Hs |].
  assert (Hw2 : w2 = debounceCallback P ct scan tBuild tEvent
                       (withTimer (Some {| timer_changeType := ct;
                                           timer_armed := false |}) w1)).
  { subst w2. unfold debounceTimerFires. now rewrite Htimer. }
  destruct (debounceCallback_fields P ct scan tBuild tEvent
              (withTimer (Some {| timer_changeType := ct; timer_armed := false |}) w1))
    as (_ & Ht & Hdel).
  rewrite <- Hw2 in Ht, Hdel. simpl in Ht, Hdel. split.
  - rewrite Hd in Hdel. destruct Hr as (_ & _ & _ & _ & Hl & _). now rewrite Hl in Hdel.
  - intros scan' tBuild' tEvent'. unfold debounceTimerFires. now rewrite Ht.
Qed.

(** ** The watcher: start and stop *)

(** X18.  [stop] on a running watcher clears the timer and the pending
    paths and marks it stopped, so that a timer expiring afterwards does
    nothing; it keeps the listeners, the cache, the calls made and the
    [disposables], and a second [stop] changes nothing. *)
Theorem stop_cancels_pending_refresh (P : Platform) (w : Watcher)
    (scan : Result (list ContractMetadata)) (tBuild tEvent : Z) :
  isRunning w = true ->
  isRunning (stop w) = false ∧
  cargoWatcher (stop w) = false ∧ sourceWatcher (stop w) = false ∧
  debounceTimer (stop w) = None ∧
  pendingChanges (stop w) = [] ∧
  debounceTimerFires P scan tBuild tEvent (stop w) = stop w ∧
  stop (stop w) = stop w ∧
  changeListeners (stop w) = changeListeners w ∧
  dependencyService (stop w) = dependencyService w ∧
  delivered (stop w) = delivered w ∧
  disposables (stop w) = disposables w.
Proof.
  intros Hrun. unfold debounceTimerFires, stop at 13 14. unfold stop.
  rewrite Hrun. simpl. now repeat split.
Qed.

Lemma stop_cancels_pending_refresh_witness :
  isRunning (stop sampleWatcher) = false ∧
  cargoWatcher (stop sampleWatcher) = false ∧ sourceWatcher (stop sampleWatcher) = false ∧
  debounceTimer (stop sampleWatcher) = None ∧
  pendingChanges (stop sampleWatcher) = [] ∧
  debounceTimerFires (fixedResolver (Ok chainResolution)) (Ok chainContracts) 2000 2001
    (stop sampleWatcher) = stop sampleWatcher ∧
  stop (stop sampleWatcher) = stop sampleWatcher ∧
  changeListeners (stop sampleWatcher) = changeListeners sampleWatcher ∧
  dependencyService (stop sampleWatcher) = dependencyService sampleWatcher ∧
  delivered (stop sampleWatcher) = delivered sampleWatcher ∧
  disposables (stop sampleWatcher) = disposables sampleWatcher.
Proof.
  apply (stop_cancels_pending_refresh (fixedResolver (Ok chainResolution)) sampleWatcher
           (Ok chainContracts) 2000 2001).
  reflexivity.
Defined.

Lemma log_fields message w :
  sameRegistration w (log message w) ∧
  debounceTimer (log message w) = debounceTimer w ∧
  delivered (log message w) = delivered w ∧
  dependencyService (log message w) = dependencyService w.
Proof. now repeat split. Qed.

(** X19.  [start] on a stopped watcher registers the Cargo watcher, and
    the source watcher when [watchSourceFiles] is set, and marks the
    watcher running before the first refresh: it is running afterwards
    even when that refresh throws, and [start] then returns what the
    refresh returned.  Each such start adds its watchers to [disposables],
    which [stop] does not shrink, and a [start] on the running watcher
    only logs. *)
Theorem start_registers_before_refresh (P : Platform)
    (scan : Result (list ContractMetadata)) (tBuild tEvent : Z) (w : Watcher) :
  isRunning w = false ->
  let r := start P scan tBuild tEvent w in
  isRunning (snd r) = true ∧
  cargoWatcher (snd r) = true ∧
  sourceWatcher (snd r) = (watchSourceFiles (options w) || sourceWatcher w)%bool ∧
  disposables (snd r)
  = (disposables w + (if watchSourceFiles (options w) then 2 else 1))%nat ∧
  disposables (stop (snd r)) = disposables (snd r) ∧
  changeListeners (snd r) = changeListeners w ∧
  fst r
  = (if autoRefresh (options w)
     then fst (refresh P full_refresh scan tBuild tEvent w) else Ok tt) ∧
  (∀ scan' tBuild' tEvent',
      start P scan' tBuild' tEvent' (snd r)
      = (Ok tt, log "[DependencyWatcher] Already running" (snd r))).
Proof.
  intros Hstopped r.
  assert (Hfields : isRunning (snd r) = true ∧ cargoWatcher (snd r) = true ∧
                    sourceWatcher (snd r)
                    = (watchSourceFiles (options w) || sourceWatcher w)%bool ∧
                    disposables (snd r)
                    = (disposables w
                       + (if watchSourceFiles (options w) then 2 else 1))%nat ∧
                    changeListeners (snd r) = changeListeners w).
  { subst r. unfold start. rewrite Hstopped. cbv zeta.
    match goal with |- context [if autoRefresh (options ?w0) then _ else _] =>
      set (w1 := w0) end.
    assert (H1 : isRunning w1 = true ∧ cargoWatcher w1 = true ∧
                 sourceWatcher w1
                 = (watchSourceFiles (options w) || sourceWatcher w)%bool ∧
                 disposables w1
                 = (disposables w
                    + (if watchSourceFiles (options w) then 2 else 1))%nat ∧
                 changeListeners w1 = changeListeners w).
    { subst w1. simpl. destruct (watchSourceFiles (options w)); now repeat split. }
    destruct (autoRefresh (options w1)); [| exact H1].
    destruct (refresh_fields P full_refresh scan tBuild tEvent w1)
      as ((Hc & Hs & Hd & Hi & Hl & _) & _).
    rewrite Hc, Hs, Hd, Hi, Hl. exact H1. }
  destruct Hfields as (Hrun & Hcargo & Hsource & Hdisp & Hl).
  split; [exact Hrun |]. split; [exact Hcargo |]. split; [exact Hsource |].
  split; [exact Hdisp |].
  split; [unfold stop; rewrite Hrun; reflexivity |]. split; [exact Hl |]. split.
  - subst r. unfold start. rewrite Hstopped. cbv zeta. simpl.
    destruct (autoRefresh (options w)); [| reflexivity].
    unfold refresh. cbv zeta. simpl.
    destruct scan as [[| c cs] | err]; try reflexivity.
    destruct (buildDependencyGraph P (c :: cs) _ tBuild _) as [[g | e] svc];
      reflexivity.
  - intros scan' tBuild' tEvent'. unfold start at 1. now rewrite Hrun.
Qed.

Lemma start_registers_before_refresh_witness :
  let r := start (fixedResolver (Throw "Error: unresolved")) (Ok chainContracts) 2000 2001
             (newWatcher newService defaultWatcherOptions) in
  isRunning (snd r) = true ∧
  cargoWatcher (snd r) = true ∧
  sourceWatcher (snd r) = true ∧
  disposables (snd r) = 2%nat ∧
  disposables (stop (snd r)) = disposables (snd r) ∧
  changeListeners (snd r) = [] ∧
  fst r = Throw "Error: unresolved" ∧
  (∀ scan' tBuild' tEvent',
      start (fixedResolver (Throw "Error: unresolved")) scan' tBuild' tEvent' (snd r)
      = (Ok tt, log "[DependencyWatcher] Already running" (snd r))).
Proof.
  apply (start_registers_before_refresh (fixedResolver (Throw "Error: unresolved"))
           (Ok chainContracts) 2000 2001 (newWatcher newService defaultWatcherOptions)).
  reflexivity.
Defined.

(** X20.  [refresh] throws exactly when the workspace scan throws or,
    contracts being found, the dependency resolver throws, and it throws
    that error; a listener that throws never makes it throw.  When it
    throws no listener has been called. *)
Theorem refresh_throws_iff (P : Platform) (ct : ChangeType)
    (scan : Result (list ContractMetadata)) (tBuild tEvent : Z) (w : Watcher)
    (e : string) :
  (fst (refresh P ct scan tBuild tEvent w) = Throw e
   ↔ scan = Throw e ∨
     ∃ contracts,
       scan = Ok contracts ∧ contracts ≠ [] ∧
       resolveDeploymentDependencies P contracts false = Throw e) ∧
  (fst (refresh P ct scan tBuild tEvent w) = Throw e ->
   delivered (snd (refresh P ct scan tBuild tEvent w)) = delivered w).
Proof.
  assert (Hbuild : ∀ c cs,
             fst (refresh P ct (Ok (c :: cs)) tBuild tEvent w) = Throw e
             ↔ resolveDeploymentDependencies P (c :: cs) false = Throw e).
  { intros c cs.
    destruct (buildDependencyGraph P (c :: cs) (refreshOptions w) tBuild
                (invalidateCache (dependencyService w))) as [[g | e'] svc] eqn:Hb.
    - rewrite (refresh_Ok_build _ _ _ _ _ _ _ _ _ Hb). simpl.
      unfold buildDependencyGraph in Hb. simpl in Hb.
      destruct (resolveDeploymentDependencies P (c :: cs) false); [| discriminate].
      split; discriminate.
    - rewrite (refresh_Throw_build _ _ _ _ _ _ _ _ _ Hb). simpl.
      unfold buildDependencyGraph in Hb. simpl in Hb.
      destruct (resolveDeploymentDependencies P (c :: cs) false) as [res | err];
        [discriminate |].
      injection Hb as <- _. split; intros [= ->]; reflexivity. }
  split.
  - destruct scan as [[| c cs] | err].
    + simpl. split; [discriminate |].
      intros [[=] | (contracts & [= <-] & Hne & _)]. contradiction.
    + rewrite Hbuild. split.
      * intros Hres. right. exists (c :: cs). now repeat split.
      * intros [[=] | (contracts & [= <-] & _ & Hres)]. exact Hres.
    + simpl. split.
      * intros [= ->]. now left.
      * intros [[= ->] | (contracts & [=] & _)]. reflexivity.
  - intros Hthrow.
    destruct (refresh P ct scan tBuild tEvent w) as [r w'] eqn:Hr. simpl in Hthrow.
    subst r. now apply refresh_invalidates in Hr.
Qed.

(** ** The watcher: listeners *)





(** ** [dispose] *)

(** X22.  After [dispose] the watcher is stopped and has no listener and
    no disposable: an event emitted or a refresh run afterwards calls
    nobody.  The cache and the record of the calls made are kept, and a
    second [dispose] changes nothing. *)
Theorem dispose_silences (P : Platform) (w : Watcher) (event : DependencyChangeEvent)
    (ct : ChangeType) (scan : Result (list ContractMetadata)) (tBuild tEvent : Z) :
  isRunning (dispose w) = false ∧
  changeListeners (dispose w) = [] ∧
  disposables (dispose w) = 0%nat ∧
  dependencyService (dispose w) = dependencyService w ∧
  delivered (dispose w) = delivered w ∧
  emitChange event (dispose w) = dispose w ∧
  delivered (snd (refresh P ct scan tBuild tEvent (dispose w))) = delivered w ∧
  dispose (dispose w) = dispose w.
Proof.
  assert (Hstop : isRunning (stop w) = false ∧
                  dependencyService (stop w) = dependencyService w ∧
                  delivered (stop w) = delivered w).
  { unfold stop. destruct (isRunning w) eqn:Hrun; simpl; auto. }
  destruct Hstop as (Hrun & Hsvc & Hdel).
  split; [exact Hrun |]. split; [reflexivity |]. split; [reflexivity |].
  split; [exact Hsvc |]. split; [exact Hdel |]. split; [reflexivity |]. split.
  - destruct (refresh_fields P ct scan tBuild tEvent (dispose w))
      as (_ & _ & [Hd | (ev & _ & _ & Hd)]); rewrite Hd; simpl;
      rewrite ?app_nil_r; exact Hdel.
  - assert (Hidle : stop (dispose w) = dispose w).
    { unfold stop at 1. change (isRunning (dispose w)) with (isRunning (stop w)).
      now rewrite Hrun. }
    unfold dispose at 1. rewrite Hidle. reflexivity.
Qed.

(** ** [normalizePath] *)

Lemma replaceBackslashes_app (a b : string) :
  replaceBackslashes (a ++ b)%string
  = (replaceBackslashes a ++ replaceBackslashes b)%string.
Proof.
  induction a as [| x a IH]; [reflexivity |].
  rewrite string_app_cons. simpl. rewrite IH. reflexivity.
Qed.

Lemma replaceBackslashes_noBackslash (p : string) :
  noBackslash (replaceBackslashes p) = true.
Proof.
  induction p as [| x p IH]; [reflexivity |].
  unfold noBackslash in *. simpl. rewrite IH, andb_true_r.
  case_decide as Hx; apply negb_true_iff, bool_decide_eq_false_2;
    [discriminate | exact Hx].
Qed.

Lemma replaceBackslashes_fixed (s : string) :
  noBackslash s = true -> replaceBackslashes s = s.
Proof.
  unfold noBackslash. induction s as [| x s IH]; [reflexivity |].
  simpl. intros Hs. apply andb_prop in Hs as [Hx Hs].
  apply negb_true_iff, bool_decide_eq_false_1 in Hx.
  rewrite decide_False by exact Hx. now rewrite IH.
Qed.

Lemma stripTrailingSlash_cons x y s :
  stripTrailingSlash (String x (String y s)) = String x (stripTrailingSlash (String y s)).
Proof. reflexivity. Qed.

Lemma stripTrailingSlash_app_slash (s : string) :
  stripTrailingSlash (s ++ "/")%string = s.
Proof.
  induction s as [| x s IH]; [reflexivity |].
  rewrite string_app_cons. destruct s as [| y s].
  - reflexivity.
  - rewrite string_app_cons in *. rewrite stripTrailingSlash_cons. now rewrite IH.
Qed.

Lemma stripTrailingSlash_cases (s : string) :
  s = stripTrailingSlash s ∨ s = (stripTrailingSlash s ++ "/")%string.
Proof.
  induction s as [| x s IH]; [now left |].
  destruct s as [| y s].
  - simpl. case_decide as Hx; [right; now rewrite Hx | now left].
  - rewrite stripTrailingSlash_cons, string_app_cons.
    destruct IH as [IH | IH]; [left | right]; now rewrite <- IH.
Qed.

Lemma stripTrailingSlash_noBackslash (s : string) :
  noBackslash s = true -> noBackslash (stripTrailingSlash s) = true.
Proof.
  unfold noBackslash. induction s as [| x s IH]; [reflexivity |].
  destruct s as [| y s].
  - simpl. case_decide; [reflexivity | now simpl].
  - rewrite stripTrailingSlash_cons. intros Hs.
    change (string_forallb ?p (String x ?r)) with (p x && string_forallb p r)%bool in *.
    apply andb_prop in Hs as [Hx Hs]. now rewrite Hx, IH.
Qed.

(** X23.  [normalizePath] returns a path without backslashes: the path
    with every backslash turned into a slash, less one trailing slash if
    it has one.  Paths that differ in their separators only, or by one
    trailing separator added to the same path, are normalized to the same
    path, so [buildNodes] finds the same contract for them. *)
Theorem normalizePath_separators (p : string) :
  noBackslash (normalizePath p) = true ∧
  (replaceBackslashes p = normalizePath p ∨
   replaceBackslashes p = (normalizePath p ++ "/")%string) ∧
  normalizePath (p ++ "/")%string = replaceBackslashes p ∧
  normalizePath (p ++ String backslash EmptyString)%string = replaceBackslashes p ∧
  normalizePath (replaceBackslashes p) = normalizePath p ∧
  (∀ contracts,
      findContractByPath contracts (replaceBackslashes p) = findContractByPath contracts p).
Proof.
  assert (Hidem : normalizePath (replaceBackslashes p) = normalizePath p).
  { unfold normalizePath.
    now rewrite (replaceBackslashes_fixed _ (replaceBackslashes_noBackslash p)). }
  unfold normalizePath in *. split.
  - apply stripTrailingSlash_noBackslash, replaceBackslashes_noBackslash.
  - split; [apply stripTrailingSlash_cases |].
    split; [rewrite replaceBackslashes_app; apply stripTrailingSlash_app_slash |].
    split; [rewrite replaceBackslashes_app; apply stripTrailingSlash_app_slash |].
    split; [exact Hidem |].
    intros contracts. unfold findContractByPath, normalizePath. now rewrite Hidem.
Qed.

(** ** [findCargoDependency] *)




(** ** Outcome of a build *)

(** X25.  [buildDependencyGraph] throws exactly when the resolver does,
    with the same error, and then leaves the cache as it was.  Otherwise
    the graph carries the cycles, order and levels of the resolver and is
    stored with the time of the build; with [detectImports] switched off it
    has no import and every edge has source [cargo]. *)
Theorem build_outcome (P : Platform) (contracts : list ContractMetadata)
    (opts : DependencyDetectionOptions) (now : Z) (svc : DetectionService) :
  let r := buildDependencyGraph P contracts opts now svc in
  let resolved :=
    resolveDeploymentDependencies P contracts
      (default false (includeDevDependencies opts)) in
  (∀ e, fst r = Throw e ↔ resolved = Throw e) ∧
  (∀ e, fst r = Throw e -> snd r = svc) ∧
  (∀ g, fst r = Ok g ->
        snd r = {| cachedGraph := Some g; lastScanTime := now |} ∧
        (∃ res, resolved = Ok res ∧ cycles g = res_cycles res ∧
                deploymentOrder g = res_order res ∧
                deploymentLevels g = res_levels res) ∧
        (detectImports opts = Some false ->
         imports g = [] ∧ ∀ edge, edge ∈ edges g -> edge_source edge = cargo)).
Proof.
  intros r resolved. subst r resolved. unfold buildDependencyGraph. simpl.
  destruct (resolveDeploymentDependencies P contracts
              (default false (includeDevDependencies opts))) as [res | err]; simpl.
  - split; [split; discriminate |]. split; [discriminate |].
    intros g [= <-]. split; [reflexivity |].
    split; [exists res; now repeat split |].
    intros ->. simpl. split; [reflexivity |].
    intros edge Hedge. apply values_elem_of in Hedge as [k Hedge].
    pose proof (enhancedEdgeMap_wellFormed (res_edges res) [] contracts) as Hwf.
    rewrite Forall_forall in Hwf. destruct (Hwf _ Hedge) as (_ & Hsrc & Himps & _).
    simpl in *. apply Hsrc.
    destruct (edge_imports edge) as [imps |] eqn:Hi; [| reflexivity].
    destruct (Himps imps eq_refl) as [Hne Hall].
    destruct imps as [| imp imps]; [contradiction |].
    destruct (Hall imp) as [Hin _]; [left |]. now apply elem_of_nil in Hin.
  - split; [split; intros [= ->]; reflexivity |]. split; [reflexivity | discriminate].
Qed.

(** ** Reports on cycles *)

(** X26.  [getCircularDependencyDetails] gives one line for each cycle of
    the graph, in their order, each starting with
    ["Circular dependency: "]; it is empty exactly when
    [hasCircularDependencies] is false. *)
Theorem cycle_details_per_cycle (graph : DependencyGraph) :
  length (getCircularDependencyDetails graph) = length (cycles graph) ∧
  (∀ line, line ∈ getCircularDependencyDetails graph ->
           ∃ rest, line = ("Circular dependency: " ++ rest)%string) ∧
  (hasCircularDependencies graph = false ↔ getCircularDependencyDetails graph = []).
Proof.
  unfold getCircularDependencyDetails, hasCircularDependencies.
  split; [apply length_map |]. split.
  - intros line Hline.
    change (map ?f ?l) with (f <$> l) in Hline.
    apply list_elem_of_fmap in Hline as (cycle & -> & _). eauto.
  - destruct (cycles graph) as [| c cs]; simpl; [now split |].
    split; [| discriminate]. intros H. apply Z.ltb_ge in H. lia.
Qed.
